(** * EACL'26 preference arena: rating, replay and pair selection

    A shallow embedding of the rating and selection core of the preference
    arena (rating.js, selector.js and the vote / undo / history logic of
    unified_app.js), with the properties of its specification, and of
    what surrounds that core: the CSV reader and writer and the column
    detection of csv.js, the escaping, ranking and score normalization
    helpers of unified_app.js, the rating core of the legacy application
    (legacy/web/app.js) and the opacity map of the projection page
    (viz/app.js).

    Modelling conventions.
    - JavaScript numbers are real numbers ([R]): arithmetic is exact and
      there is no NaN or infinity, so that a formula proved here holds of
      the program up to the rounding of binary64.  Counters ([n],
      [wins], [losses], [ties]) and [topN] are integers ([Z]).
    - Objects that the code mutates in place (the rating records stored in
      [state.ratings]) live in a store keyed by item id; a function that
      receives such objects receives their keys, and every field
      assignment is an update of the store, so that two references to the
      same record alias exactly as they do in the source.
    - An id or a vote label is used as a property key of a plain object
      ([state.ratings[id]], [map[choice]]).  Under the names that every
      object inherits from [Object.prototype] ([inherited_names]) such a
      read finds the inherited member, not what the page stored there:
      the legacy application then computes with undefined fields, and the
      unified one repairs the inherited object into a record that
      [state.ratings = {}] does not reset.  The definitions read these
      objects as finite maps, which is what the source does for every
      other key ([ordinary]); what is proved about undo, about the replay
      and about the legacy application is stated for ordinary ids and
      labels.
    - What is read back from storage is a JSON value ([jsval]); the
      entries of [state.history] are the typed records that
      [normalizeHistoryEntry] and [vote] build, and a record of
      [state.ratings] has its six numeric fields, as the page writes it.
    - [Math.random] is an explicit supply of draws threaded through the
      selector; the clock is an argument of the functions that read it.
    - Strings are sequences of characters with codes below 256; a record
      of the CSV writer is given by its property read [rec[h]], and a
      [Map] that is only filled and read by a finite map.
    - Rendering and persistence ([render*], [persistState], [saveState])
      do not touch the modelled state and are left out. *)

From Stdlib Require Import Reals Lra Lia ZArith Ascii String.
From stdpp Require Import gmap strings list sorting.

Local Open Scope string_scope.
Local Open Scope list_scope.

(* ===================================================================== *)
(** * JavaScript values *)
(* ===================================================================== *)

(** What [JSON.parse] can produce, plus [undefined] for absent fields. *)
#[warnings="-register-all"]
Inductive jsval : Type :=
| JUndefined
| JNull
| JBool (b : bool)
| JNum (x : R)
| JStr (s : string)
| JArr (xs : list jsval)
| JObj (fields : list (string * jsval)).

(** ToBoolean. *)
Definition truthy (v : jsval) : bool :=
  match v with
  | JUndefined | JNull => false
  | JBool b => b
  | JNum x => if Req_dec_T x 0 then false else true
  | JStr s => negb (String.eqb s "")
  | JArr _ | JObj _ => true
  end.

(** [typeof v === "object"] (true of [null], arrays and objects). *)
Definition typeof_object (v : jsval) : bool :=
  match v with
  | JNull | JArr _ | JObj _ => true
  | _ => false
  end.

(** [v === null || v === undefined]. *)
Definition nullish (v : jsval) : bool :=
  match v with
  | JUndefined | JNull => true
  | _ => false
  end.

(** The value of the field [k] in the fields of an object, each key being
    held once; [undefined] when the field is absent. *)
Fixpoint assoc (k : string) (fs : list (string * jsval)) : jsval :=
  match fs with
  | [] => JUndefined
  | (k', v) :: fs' => if String.eqb k k' then v else assoc k fs'
  end.

(** Property read [h.k] on a value that is not [null] or [undefined]. *)
Definition get (h : jsval) (k : string) : jsval :=
  match h with
  | JObj fs => assoc k fs
  | _ => JUndefined
  end.

(** [Math.max(lo, Math.min(hi, x))]. *)
Definition clamp (x lo hi : R) : R := Rmax lo (Rmin hi x).

(* ===================================================================== *)
(** * Data model *)
(* ===================================================================== *)

(** A rating record of [state.ratings]. *)
Record rating : Type := mkRating {
  mu : R;
  sigma : R;
  n : Z;
  wins : Z;
  losses : Z;
  ties : Z
}.

(** The store of rating records, [state.ratings]: id -> record. *)
Abbreviation store := (gmap string rating).

(** The property names that every plain object inherits from
    [Object.prototype]: a read [o[k]] under one of them finds the
    inherited member when [o] has no such property of its own. *)
Definition inherited_names : list string :=
  ["constructor"; "hasOwnProperty"; "isPrototypeOf"; "propertyIsEnumerable";
   "toLocaleString"; "toString"; "valueOf"; "__proto__";
   "__defineGetter__"; "__defineSetter__"; "__lookupGetter__";
   "__lookupSetter__"].

(** A key under which a plain object holds only what was stored in it. *)
Definition ordinary (k : string) : Prop := k ∉ inherited_names.

(** A hydrated item, as the selector sees it. *)
Module Item.
Record t : Type := mk {
  id : string;
  cat1 : string;
  mu : R;
  sigma : R;
  n : Z;
  wins : Z
}.
End Item.
Abbreviation item := Item.t.

(** A history entry, in the shape [normalizeHistoryEntry] and [vote]
    produce. *)
Module Entry.
Record t : Type := mk {
  a : jsval;
  b : jsval;
  outcome : option R;
  choice : string;
  kMult : R;
  neitherPenaltyApplied : bool;
  ts : jsval
}.
End Entry.
Abbreviation entry := Entry.t.

(** The persisted application state. *)
Record state : Type := mkState {
  ratings : store;
  history : list entry;
  lastPair : list item;
  mode : option string;
  topN : option Z;
  resolveTieNMatches : option string;
  muPriority : option string;
  winsOnly : bool
}.

(* ===================================================================== *)
(** * rating.js *)
(* ===================================================================== *)

Definition DEFAULT_MU : R := 1500.
Definition DEFAULT_SIGMA : R := 350.
Definition MIN_SIGMA : R := 60.
Definition SIGMA_DECAY : R := 0.93.

(** The record [getRating] creates for an unseen id. *)
Definition default_rating : rating :=
  mkRating DEFAULT_MU DEFAULT_SIGMA 0 0 0 0.

(** Dereference of a rating object held in the store. *)
Definition obj (s : store) (k : string) : rating :=
  default default_rating (s !! k).

Definition set_mu (v : R) (r : rating) : rating :=
  mkRating v (sigma r) (n r) (wins r) (losses r) (ties r).
Definition set_sigma (v : R) (r : rating) : rating :=
  mkRating (mu r) v (n r) (wins r) (losses r) (ties r).
Definition set_n (v : Z) (r : rating) : rating :=
  mkRating (mu r) (sigma r) v (wins r) (losses r) (ties r).
Definition set_wins (v : Z) (r : rating) : rating :=
  mkRating (mu r) (sigma r) (n r) v (losses r) (ties r).
Definition set_losses (v : Z) (r : rating) : rating :=
  mkRating (mu r) (sigma r) (n r) (wins r) v (ties r).
Definition set_ties (v : Z) (r : rating) : rating :=
  mkRating (mu r) (sigma r) (n r) (wins r) (losses r) v.

(** [1 / (1 + Math.pow(10, -x / 400))], the exact value: it lies strictly
    between 0 and 1, where binary64 rounds it to 0 or to 1 once the gap
    exceeds some 6400 points. *)
Definition logistic (x : R) : R := (1 / (1 + Rpower 10 (- x / 400)))%R.

(** [updatePair(A, B, outcome, opts)]: [A] and [B] are the keys of the two
    rating objects in the store; [baseK] is [opts.baseK] when present. *)
Definition updatePair (A B : string) (outcome : R) (baseK : option R)
    (s : store) : store :=
  let baseK := default 32%R baseK in
  let KA := (baseK * clamp (sigma (obj s A) / DEFAULT_SIGMA) 0.6 1.8)%R in
  let KB := (baseK * clamp (sigma (obj s B) / DEFAULT_SIGMA) 0.6 1.8)%R in
  let pA := logistic (mu (obj s A) - mu (obj s B)) in
  let pB := (1 - pA)%R in
  let dA := (KA * (outcome - pA))%R in
  let dB := (KB * ((1 - outcome) - pB))%R in
  let s := alter (fun r => set_mu (mu r + dA) r) A s in
  let s := alter (fun r => set_mu (mu r + dB) r) B s in
  let tieFactor := if Req_dec_T outcome 0.5 then 0.98%R else 1.0%R in
  let s := alter (fun r =>
             set_sigma (Rmax MIN_SIGMA (sigma r * SIGMA_DECAY * tieFactor)) r) A s in
  let s := alter (fun r =>
             set_sigma (Rmax MIN_SIGMA (sigma r * SIGMA_DECAY * tieFactor)) r) B s in
  let s := alter (fun r => set_n (n r + 1) r) A s in
  let s := alter (fun r => set_n (n r + 1) r) B s in
  s.

(* ===================================================================== *)
(** * unified_app.js: rating helpers *)
(* ===================================================================== *)

Definition BASE_K : R := 32.
Definition JOINT_FEEDBACK_SCALE : R := 0.45.

(** [getRating(id)] for an [ordinary] id: creates the default record on
    first reference.  The per-field [typeof] repairs of the source are
    the identity on typed records.  The returned reference is the key
    [id] itself.  (Under an inherited name the source finds the inherited
    object instead of a missing record: it never stores a record of its
    own there, and the repairs turn the inherited object into a record
    that outlives [state.ratings = {}].) *)
Definition getRating (id : string) (s : store) : store :=
  match s !! id with
  | None => <[id := default_rating]> s
  | Some _ => s
  end.

(** [applyOutcomeCounters(rA, rB, outcome)]. *)
Definition applyOutcomeCounters (rA rB : string) (outcome : R)
    (s : store) : store :=
  if Req_dec_T outcome 1.0 then
    let s := alter (fun r => set_wins (wins r + 1) r) rA s in
    alter (fun r => set_losses (losses r + 1) r) rB s
  else if Req_dec_T outcome 0.0 then
    let s := alter (fun r => set_wins (wins r + 1) r) rB s in
    alter (fun r => set_losses (losses r + 1) r) rA s
  else
    let s := alter (fun r => set_ties (ties r + 1) r) rA s in
    alter (fun r => set_ties (ties r + 1) r) rB s.

(** The body of [applyJointAdjustment] on the one record it mutates. *)
Definition jointAdjust (direction kMult : R) (r : rating) : rating :=
  let effectiveK :=
    (BASE_K * kMult * clamp (sigma r / DEFAULT_SIGMA) 0.6 1.8)%R in
  let r := set_mu (mu r + direction * effectiveK * JOINT_FEEDBACK_SCALE)%R r in
  let r := set_sigma (Rmax MIN_SIGMA (sigma r * SIGMA_DECAY * 0.99)) r in
  set_n (n r + 1) r.

(** [applyJointAdjustment(rating, direction, kMult)]. *)
Definition applyJointAdjustment (rating : string) (direction kMult : R)
    (s : store) : store :=
  alter (jointAdjust direction kMult) rating s.

(* ===================================================================== *)
(** * selector.js *)
(* ===================================================================== *)

(** ** Randomness

    [Math.random] is a supply of draws; [randInt(n)] turns one draw into
    an index below [n] (every index below [n] is reachable). *)

Definition rng : Type := nat -> nat.
Definition Rand (A : Type) : Type := rng -> A * rng.

#[global] Instance rand_ret : MRet Rand := fun A x g => (x, g).
#[global] Instance rand_bind : MBind Rand :=
  fun A B k m g => let (x, g') := m g in k x g'.

Definition draw : Rand nat := fun g => (g 0%nat, fun i => g (S i)).

(** [randInt(n)]: [Math.floor(Math.random() * n)]. *)
Definition randInt (n : nat) : Rand nat :=
  k ← draw; mret (if (n =? 0)%nat then 0%nat else (k mod n)%nat).

(** [x ?? y] on a possibly-missing value. *)
Definition orElse {A} (x y : option A) : option A :=
  match x with
  | Some _ => x
  | None => y
  end.

(** The body of the loop of [shuffle], from index [i] down to 1. *)
Fixpoint shuffle_from {A} (i : nat) (out : list A) : Rand (list A) :=
  match i with
  | O => mret out
  | S i' =>
      j ← randInt (i + 1) ;
      let out' :=
        match out !! i, out !! j with
        | Some oi, Some oj => <[j := oi]> (<[i := oj]> out)
        | _, _ => out
        end in
      shuffle_from i' out'
  end.

(** [shuffle(arr)]. *)
Definition shuffle {A} (arr : list A) : Rand (list A) :=
  shuffle_from (length arr - 1) arr.

(** [Array.prototype.sort] with a numeric comparator: a stable sort that
    puts [x] after [y] exactly when [cmp x y > 0]. *)
Fixpoint insert_sorted {A} (cmp : A -> A -> R) (x : A) (l : list A) : list A :=
  match l with
  | [] => [x]
  | y :: l' =>
      if Rlt_dec 0 (cmp x y) then y :: insert_sorted cmp x l' else x :: l
  end.

Definition sort {A} (cmp : A -> A -> R) (l : list A) : list A :=
  foldr (insert_sorted cmp) [] l.

Definition lower_ascii (c : ascii) : ascii :=
  let k := nat_of_ascii c in
  if ((65 <=? k) && (k <=? 90))%nat then ascii_of_nat (k + 32) else c.

(** [s.toLowerCase()] (on the ASCII letters). *)
Fixpoint toLowerCase (s : string) : string :=
  match s with
  | EmptyString => EmptyString
  | String c s' => String (lower_ascii c) (toLowerCase s')
  end.

Definition getMuPriority (st : state) : string :=
  toLowerCase (default "highest" (muPriority st)).

Definition getNStrategy (st : state) : string :=
  toLowerCase (default "minimal" (resolveTieNMatches st)).

Definition applyWinsFilter (items : list item) (st : state) : list item :=
  if negb (winsOnly st) then items
  else filter (fun x => (1 <= Item.wins x)%Z) items.

(** The two numeric sorts by [mu]. *)
Definition mu_ascending (a b : item) : R := (Item.mu a - Item.mu b)%R.
Definition mu_descending (a b : item) : R := (Item.mu b - Item.mu a)%R.

Definition orderByMuPriority (items : list item) (st : state)
    : Rand (list item) :=
  let priority := getMuPriority st in
  if String.eqb priority "lowest" then mret (sort mu_ascending items)
  else if String.eqb priority "random" then shuffle items
  else mret (sort mu_descending items).

(** ** Grouping with a [Map]

    [group_by key items] is the content of the [Map] after the loop
    [if (!m.has(k)) m.set(k, []); m.get(k).push(item)], in insertion
    order of the keys. *)
Section Grouping.
Context {K : Type} `{EqDecision K}.

Fixpoint group_add (k : K) (x : item) (m : list (K * list item))
    : list (K * list item) :=
  match m with
  | [] => [(k, [x])]
  | (k', g) :: m' =>
      if decide (k = k') then (k', g ++ [x]) :: m'
      else (k', g) :: group_add k x m'
  end.

Definition group_by (key : item -> K) (items : list item)
    : list (K * list item) :=
  fold_left (fun m x => group_add (key x) x m) items [].

(** [m.get(k)]. *)
Fixpoint group_get (k : K) (m : list (K * list item))
    : option (list item) :=
  match m with
  | [] => None
  | (k', g) :: m' => if decide (k = k') then Some g else group_get k m'
  end.
End Grouping.

Definition Z_ascending (a b : Z) : R := (IZR a - IZR b)%R.

(** The choice of [targetN] among the sorted values, by strategy:
    [values[0]], [values[values.length - 1]] or
    [values[randInt(values.length)]]. *)
Definition pickTargetN (strategy : string) (values : list Z)
    : Rand (option Z) :=
  if String.eqb strategy "maximal" then
    mret (values !! (length values - 1)%nat)
  else if String.eqb strategy "random" then
    i ← randInt (length values); mret (values !! i)
  else mret (values !! 0%nat).

(** [selectGroupByN(items, state)]. *)
Definition selectGroupByN (items : list item) (st : state)
    : Rand (list item) :=
  if (length items <=? 1)%nat then mret items
  else
    let grouped := group_by Item.n items in
    let nValues := sort Z_ascending (map fst grouped) in
    let strategy := getNStrategy st in
    targetN ← pickTargetN strategy nValues;
    mret (default items (targetN ≫= fun k => group_get k grouped)).

(** [pickNotIn(arr, bannedSet)]. *)
Definition pickNotIn (arr : list item) (bannedSet : gset string)
    : option item :=
  List.find (fun x => bool_decide (Item.id x ∉ bannedSet)) arr.

(** [pickTwoFromPool(pool, lastIds, state)]. *)
Definition pickTwoFromPool (pool : list item) (lastIds : gset string)
    (st : state) : Rand (option (item * item)) :=
  candidates ← selectGroupByN pool st;
  match orElse (pickNotIn candidates lastIds) (head candidates) with
  | None => mret None
  | Some first =>
      let secondCandidates :=
        filter (fun x => Item.id x ≠ Item.id first) candidates in
      if (length secondCandidates =? 0)%nat then mret None
      else
        match orElse (pickNotIn secondCandidates lastIds)
                     (head secondCandidates) with
        | None => mret None
        | Some second => mret (Some (first, second))
        end
  end.

(** ** Keys of the tie groups: [Number(item.mu).toFixed(6)]

    The string [x.toFixed(6)] is determined by the sign of [x] and the
    integer nearest to [|x| * 10^6] (the larger one on a tie); from
    [10^21] on it is the plain decimal string of [x], which determines
    [x]. *)
Inductive mukey : Type :=
| Fixed (neg : bool) (scaled : Z)
| Plain (x : R).

#[global] Instance mukey_eq_dec : EqDecision mukey.
Proof.
  intros k1 k2. unfold Decision.
  decide equality; [apply Z.eq_dec | apply bool_dec | apply Req_dec_T].
Defined.

Definition round_half_up (y : R) : Z := Int_part (y + 1 / 2).

Definition toFixed6 (x : R) : mukey :=
  if Rle_dec 1e21 (Rabs x) then Plain x
  else if Rlt_dec x 0 then Fixed true (round_half_up (- x * 1000000))
  else Fixed false (round_half_up (x * 1000000)).

(** [Number(muKey)]. *)
Definition Number_of_key (k : mukey) : R :=
  match k with
  | Fixed neg z => if neg then (- (IZR z / 1000000))%R else (IZR z / 1000000)%R
  | Plain x => x
  end.

(** The [for (const tieGroupEntry of tiedGroups)] loop of
    [chooseTieResolutionPair].  The selected group has at least two
    members, so [first] always exists there. *)
Fixpoint tieLoop (tiedGroups : list (R * list item)) (st : state)
    (lastIds : gset string) (strategy : string)
    : Rand (option (item * item)) :=
  match tiedGroups with
  | [] => mret None
  | (_, topTieGroup) :: rest =>
      let candidatePool := applyWinsFilter topTieGroup st in
      let groupedByN := group_by Item.n candidatePool in
      let availableN :=
        sort Z_ascending
          (filter (fun nValue =>
                     (2 <= length (default [] (group_get nValue groupedByN)))%nat)
                  (map fst groupedByN)) in
      primary ←
        (if (0 <? length availableN)%nat then
           targetN ← pickTargetN strategy availableN;
           let selectedGroup :=
             default [] (targetN ≫= fun k => group_get k groupedByN) in
           match orElse (pickNotIn selectedGroup lastIds)
                        (head selectedGroup) with
           | None => mret None
           | Some first =>
               let secondCandidates :=
                 filter (fun x => Item.id x ≠ Item.id first) selectedGroup in
               match orElse (pickNotIn secondCandidates lastIds)
                            (head secondCandidates) with
               | Some second => mret (Some (first, second))
               | None => mret None
               end
           end
         else mret None);
      match primary with
      | Some found => mret (Some found)
      | None =>
          fallbackPair ← pickTwoFromPool candidatePool lastIds st;
          match fallbackPair with
          | Some found => mret (Some found)
          | None => tieLoop rest st lastIds strategy
          end
      end
  end.

(** [chooseTieResolutionPair(items, state, lastIds)].  The sort with the
    comparator [() => Math.random() - 0.5] produces a permutation fixed
    by the draws; it is modelled by [shuffle]. *)
Definition chooseTieResolutionPair (items : list item) (st : state)
    (lastIds : gset string) : Rand (option (item * item)) :=
  let groupedByMu := group_by (fun it => toFixed6 (Item.mu it)) items in
  let tiedGroups :=
    filter (fun e : R * list item => (2 <= length (snd e))%nat)
           (map (fun e : mukey * list item => (Number_of_key (fst e), snd e))
                groupedByMu) in
  let muPriority := getMuPriority st in
  tiedGroups ←
    (if String.eqb muPriority "lowest" then
       mret (sort (fun x y : R * list item => (fst x - fst y)%R) tiedGroups)
     else if String.eqb muPriority "random" then shuffle tiedGroups
     else
       mret (sort (fun x y : R * list item => (fst y - fst x)%R) tiedGroups));
  if (length tiedGroups =? 0)%nat then mret None
  else tieLoop tiedGroups st lastIds (getNStrategy st).

(** An opponent candidate [{x, closeness, info}]. *)
Record candidate : Type := mkCandidate {
  x : item;
  closeness : R;
  info : R
}.

(** [(u.closeness - v.closeness) || (v.info - u.info)]. *)
Definition candidate_order (u v : candidate) : R :=
  let d := (closeness u - closeness v)%R in
  if Req_dec_T d 0 then (info v - info u)%R else d.

(** [chooseNextPair(items, state)]. *)
Definition chooseNextPair (items : list item) (st : state)
    : Rand (option (item * item)) :=
  if (length items <? 2)%nat then mret None
  else
    let effectiveItems := applyWinsFilter items st in
    if (length effectiveItems <? 2)%nat then mret None
    else
      prioritized ← orderByMuPriority effectiveItems st;
      let last := lastPair st in
      let lastIds : gset string :=
        list_to_set (filter (fun s => s ≠ "") (map Item.id last)) in
      let mode := default "active" (mode st) in
      tiePair ←
        (if String.eqb mode "resolve_ties" then
           chooseTieResolutionPair prioritized st lastIds
         else mret None);
      match tiePair with
      | Some found => mret (Some found)
      | None =>
          if String.eqb mode "random" then
            pickTwoFromPool prioritized lastIds st
          else
            (* Math.max(2, Math.ceil(prioritized.length * 0.4)) *)
            let focusCount :=
              Nat.max 2 ((2 * length prioritized + 4) / 5) in
            let focusPool := take focusCount prioritized in
            let byUnc :=
              sort (fun x y => (Item.sigma y - Item.sigma x)%R) focusPool in
            let poolA := take (Nat.min 40 (length byUnc)) byUnc in
            poolAByN ← selectGroupByN poolA st;
            match orElse (pickNotIn poolAByN lastIds) (head poolAByN) with
            | None => mret None
            | Some A =>
                let candidates :=
                  sort candidate_order
                    (map (fun x =>
                            mkCandidate x (Rabs (Item.mu x - Item.mu A))
                                        (Item.sigma x))
                         (filter (fun x => Item.id x ≠ Item.id A)
                                 prioritized)) in
                let Acat := Item.cat1 A in
                let diverse :=
                  filter (fun c => Item.cat1 (x c) ≠ Acat) candidates in
                let poolB :=
                  take 30 (if (0 <? length diverse)%nat then diverse
                           else candidates) in
                bubble ←
                  (if String.eqb mode "bubble" then
                     let topN := Z.max 10 (default 60%Z (topN st)) in
                     let boundarySource :=
                       if String.eqb (getMuPriority st) "lowest"
                       then reverse prioritized else prioritized in
                     let boundary :=
                       take (Z.to_nat (topN + 20)) boundarySource in
                     let boundaryIds : gset string :=
                       list_to_set (map Item.id boundary) in
                     if bool_decide (Item.id A ∈ boundaryIds) then
                       let poolB2 :=
                         filter (fun c => Item.id (x c) ∈ boundaryIds)
                                poolB in
                       if (0 <? length poolB2)%nat then
                         chosenBPool ← selectGroupByN (map x poolB2) st;
                         mret (orElse (pickNotIn chosenBPool lastIds)
                                      (head chosenBPool))
                       else mret None
                     else mret None
                   else mret None);
                match bubble with
                | Some B2 => mret (Some (A, B2))
                | None =>
                    finalBPool ← selectGroupByN (map x poolB) st;
                    match orElse (pickNotIn finalBPool lastIds)
                                 (head finalBPool) with
                    | None => mret None
                    | Some B => mret (Some (A, B))
                    end
                end
            end
      end.

(* ===================================================================== *)
(** * unified_app.js: history normalization *)
(* ===================================================================== *)

(** [o === v] for a number-or-null [o]. *)
Definition is_number (o : option R) (v : R) : bool :=
  match o with
  | Some x => if Req_dec_T x v then true else false
  | None => false
  end.

(** [normalizeHistoryEntry(h)]; [now] is [new Date().toISOString()]. *)
Definition normalizeHistoryEntry (now : string) (h : jsval) : option entry :=
  if negb (truthy h) || negb (typeof_object h) then None
  else if negb (nullish (get h "outcome"))
          && (negb (truthy (get h "a")) || negb (truthy (get h "b")))
  then None
  else
    let outcome :=
      match get h "outcome" with JNum x => Some x | _ => None end in
    let choice :=
      match get h "choice" with JStr s => Some s | _ => None end in
    let kMult :=
      match get h "kMult" with JNum x => Some x | _ => None end in
    let neitherPenaltyApplied := truthy (get h "neitherPenaltyApplied") in
    let choice :=
      match choice with
      | Some s =>
          if negb (String.eqb s "") then s
          else if is_number outcome 1.0 then "A"
          else if is_number outcome 0.0 then "B"
          else if is_number outcome 0.5 then "BOTH"
          else "SKIP"
      | None =>
          if is_number outcome 1.0 then "A"
          else if is_number outcome 0.0 then "B"
          else if is_number outcome 0.5 then "BOTH"
          else "SKIP"
      end in
    let kMult :=
      match kMult with
      | Some k => k
      | None =>
          if is_number outcome 1.0 || is_number outcome 0.0 then 1.0%R
          else if is_number outcome 0.5 then 0.75%R
          else 0.0%R
      end in
    let neitherPenaltyApplied :=
      if String.eqb choice "NEITHER" then true else neitherPenaltyApplied in
    Some (Entry.mk (get h "a") (get h "b") outcome choice kMult
                   neitherPenaltyApplied
                   (if nullish (get h "ts") then JStr now else get h "ts")).

(** The [history] field of [normalizeState(raw)], [None] when
    [normalizeState] returns [null].  The other fields of the result are
    copied from the defaults and from [raw].  [clock i] is the time read
    while the element of index [i] is normalized. *)
Definition normalizeState_history (clock : nat -> string) (raw : jsval)
    : option (list entry) :=
  if negb (truthy raw) || negb (typeof_object raw)
     || negb (truthy (get raw "ratings"))
  then None
  else
    Some match get raw "history" with
         | JArr hs =>
             omap (fun h => h)
                  (imap (fun i h => normalizeHistoryEntry (clock i) h) hs)
         | _ => []
         end.

(* ===================================================================== *)
(** * unified_app.js: session controller *)
(* ===================================================================== *)

(** A row of [RAW_RECORDS], reduced to the columns the core reads: the
    trimmed id and the primary category. *)
Record record : Type := mkRecord {
  rec_id : string;
  rec_cat1 : string
}.

(** The application: the persisted [state] and the module variables.
    [domFilter] is the conjunction of the search and filter controls of
    the page, as a predicate on hydrated items. *)
Record app : Type := mkApp {
  st : state;
  RAW_RECORDS : list record;
  domFilter : item -> bool;
  filtered : list item;
  currentPair : option (item * item)
}.

Definition set_ratings (s : store) (t : state) : state :=
  mkState s (history t) (lastPair t) (mode t) (topN t)
          (resolveTieNMatches t) (muPriority t) (winsOnly t).
Definition set_history (h : list entry) (t : state) : state :=
  mkState (ratings t) h (lastPair t) (mode t) (topN t)
          (resolveTieNMatches t) (muPriority t) (winsOnly t).
Definition set_lastPair (l : list item) (t : state) : state :=
  mkState (ratings t) (history t) l (mode t) (topN t)
          (resolveTieNMatches t) (muPriority t) (winsOnly t).
Definition set_st (t : state) (w : app) : app :=
  mkApp t (RAW_RECORDS w) (domFilter w) (filtered w) (currentPair w).

(** [getDefaultState()]. *)
Definition getDefaultState : state :=
  mkState ∅ [] [] (Some "active") (Some 60%Z) (Some "minimal")
          (Some "highest") false.

(** [hydrateItem(rec)]: reads the rating of the record, creating it. *)
Definition hydrateItem (rec : record) (s : store) : item * store :=
  let s := getRating (rec_id rec) s in
  let r := obj s (rec_id rec) in
  (Item.mk (rec_id rec) (rec_cat1 rec) (mu r) (sigma r) (n r) (wins r), s).

(** [RAW_RECORDS.map(hydrateItem)]. *)
Fixpoint hydrateAll (recs : list record) (s : store) : list item * store :=
  match recs with
  | [] => ([], s)
  | rec :: recs' =>
      let (it, s) := hydrateItem rec s in
      let (its, s) := hydrateAll recs' s in
      (it :: its, s)
  end.

(** [nextPair()]. *)
Definition nextPair (w : app) : Rand app :=
  if (length (filtered w) <? 2)%nat then mret w
  else
    pair ← chooseNextPair (filtered w) (st w);
    match pair with
    | None => mret w
    | Some (A, B) =>
        mret (mkApp (set_lastPair [A; B] (st w)) (RAW_RECORDS w)
                    (domFilter w) (filtered w) (Some (A, B)))
    end.

(** [rebuildFiltered()]. *)
Definition rebuildFiltered (w : app) : Rand app :=
  let (items, s) := hydrateAll (RAW_RECORDS w) (ratings (st w)) in
  let filtered :=
    filter (fun it => Item.id it ≠ "" ∧ domFilter w it = true) items in
  nextPair (mkApp (set_ratings s (st w)) (RAW_RECORDS w) (domFilter w)
                  filtered (currentPair w)).

(** A row of the table [map] of [vote]. *)
Record voteCfg : Type := mkCfg {
  cfg_outcome : option R;
  cfg_kMult : R;
  cfg_neitherPenaltyApplied : bool
}.

(** [map[choice]] for an [ordinary] label: one of the seven rows, or
    undefined.  (Under an inherited name the source finds an inherited
    function, truthy and without the fields of a row; the arithmetic of
    [vote] on its undefined fields yields NaN, which the numbers of this
    model do not have.  The page calls [vote] with the seven labels
    only.) *)
Definition voteMap (choice : string) : option voteCfg :=
  if String.eqb choice "A" then Some (mkCfg (Some 1.0%R) 1.0 false)
  else if String.eqb choice "STRONG_A" then Some (mkCfg (Some 1.0%R) 1.8 false)
  else if String.eqb choice "B" then Some (mkCfg (Some 0.0%R) 1.0 false)
  else if String.eqb choice "STRONG_B" then Some (mkCfg (Some 0.0%R) 1.8 false)
  else if String.eqb choice "BOTH" then Some (mkCfg (Some 0.5%R) 0.8 false)
  else if String.eqb choice "NEITHER" then Some (mkCfg (Some 0.5%R) 1.2 false)
  else if String.eqb choice "SKIP" then Some (mkCfg None 0.0 false)
  else None.

(** [vote(choice)]; [now] is [new Date().toISOString()]. *)
Definition vote (now : string) (choice : string) (w : app) : Rand app :=
  match currentPair w with
  | None => mret w
  | Some (A, B) =>
      match voteMap choice with
      | None => mret w
      | Some cfg =>
          match cfg_outcome cfg with
          | None =>
              let e := Entry.mk (JStr (Item.id A)) (JStr (Item.id B)) None
                                choice 0.0 false (JStr now) in
              rebuildFiltered
                (set_st (set_history (history (st w) ++ [e]) (st w)) w)
          | Some outcome =>
              let s := ratings (st w) in
              let s := getRating (Item.id A) s in
              let rA := Item.id A in
              let s := getRating (Item.id B) s in
              let rB := Item.id B in
              let s :=
                if String.eqb choice "BOTH" then
                  let s := applyJointAdjustment rA 1 (cfg_kMult cfg) s in
                  applyJointAdjustment rB 1 (cfg_kMult cfg) s
                else if String.eqb choice "NEITHER" then
                  let s := applyJointAdjustment rA (-1) (cfg_kMult cfg) s in
                  applyJointAdjustment rB (-1) (cfg_kMult cfg) s
                else
                  updatePair rA rB outcome
                             (Some (BASE_K * cfg_kMult cfg)%R) s in
              let s := applyOutcomeCounters rA rB outcome s in
              let e := Entry.mk (JStr (Item.id A)) (JStr (Item.id B))
                                (Some outcome) choice (cfg_kMult cfg)
                                (cfg_neitherPenaltyApplied cfg) (JStr now) in
              rebuildFiltered
                (set_st (set_history (history (st w) ++ [e])
                                     (set_ratings s (st w))) w)
          end
      end
  end.

Section Replay.
(** [Number.prototype.toString], which turns a number used as a
    property key into its decimal string. *)
Variable Number_toString : R -> string.

(** ToPropertyKey on the values an entry can hold as [a] or [b]; a
    string is its own key. *)
Fixpoint ToString (v : jsval) : string :=
  match v with
  | JUndefined => "undefined"
  | JNull => "null"
  | JBool b => if b then "true" else "false"
  | JNum x => Number_toString x
  | JStr s => s
  | JArr xs =>
      (fix join (xs : list jsval) : string :=
         match xs with
         | [] => ""
         | v :: rest =>
             let e := match v with
                      | JUndefined | JNull => ""
                      | _ => ToString v
                      end in
             match rest with
             | [] => e
             | _ => (e ++ "," ++ join rest)%string
             end
         end) xs
  | JObj _ => "[object Object]"
  end.

(** The body of [history.forEach((h) => ...)] in [undo].  [kMult] of a
    typed entry is always a number, so the [typeof] fallback to [1.0]
    never applies. *)
Definition replayEntry (t : state) (h : entry) : state :=
  match Entry.outcome h with
  | None => set_history (history t ++ [h]) t
  | Some outcome =>
      let s := ratings t in
      let rA := ToString (Entry.a h) in
      let s := getRating rA s in
      let rB := ToString (Entry.b h) in
      let s := getRating rB s in
      let kMult := Entry.kMult h in
      let s :=
        if String.eqb (Entry.choice h) "BOTH" then
          let s := applyJointAdjustment rA 1 kMult s in
          applyJointAdjustment rB 1 kMult s
        else if String.eqb (Entry.choice h) "NEITHER" then
          let s := applyJointAdjustment rA (-1) kMult s in
          applyJointAdjustment rB (-1) kMult s
        else
          let s := updatePair rA rB outcome (Some (BASE_K * kMult)%R) s in
          if Entry.neitherPenaltyApplied h then
            let s := alter (fun r => set_mu (mu r - 10) r) rA s in
            alter (fun r => set_mu (mu r - 10) r) rB s
          else s in
      let s := applyOutcomeCounters rA rB outcome s in
      set_history (history t ++ [h]) (set_ratings s t)
  end.

(** The state after the reset and the replay of [undo] over [hs]. *)
Definition replay (hs : list entry) (t : state) : state :=
  fold_left replayEntry hs
            (set_lastPair [] (set_history [] (set_ratings ∅ t))).

(** [undo()]. *)
Definition undo (w : app) : Rand app :=
  if (length (history (st w)) =? 0)%nat then mret w
  else
    let history := take (length (history (st w)) - 1) (history (st w)) in
    rebuildFiltered (set_st (replay history (st w)) w).

(** ** The events of the page that reach the core *)
Inductive event : Type :=
| EVote (now choice : string)
| EUndo
| EFilter (f : item -> bool)
| ELoadCSV (recs : list record)
| EMode (v : string)
| EResolveTieNMatches (v : string)
| EMuPriority (v : string)
| EWinsOnly (v : bool)
| ETopN (v : Z)
| EReset.

Definition handle (e : event) (w : app) : Rand app :=
  match e with
  | EVote now choice => vote now choice w
  | EUndo => undo w
  | EFilter f =>
      rebuildFiltered
        (mkApp (st w) (RAW_RECORDS w) f (filtered w) (currentPair w))
  | ELoadCSV recs =>
      rebuildFiltered
        (mkApp (st w) recs (domFilter w) (filtered w) (currentPair w))
  | EMode v =>
      let t := st w in
      nextPair (set_st (mkState (ratings t) (history t) (lastPair t)
                                (Some v) (topN t) (resolveTieNMatches t)
                                (muPriority t) (winsOnly t)) w)
  | EResolveTieNMatches v =>
      let t := st w in
      nextPair (set_st (mkState (ratings t) (history t) (lastPair t)
                                (mode t) (topN t) (Some v)
                                (muPriority t) (winsOnly t)) w)
  | EMuPriority v =>
      let t := st w in
      nextPair (set_st (mkState (ratings t) (history t) (lastPair t)
                                (mode t) (topN t) (resolveTieNMatches t)
                                (Some v) (winsOnly t)) w)
  | EWinsOnly v =>
      let t := st w in
      nextPair (set_st (mkState (ratings t) (history t) (lastPair t)
                                (mode t) (topN t) (resolveTieNMatches t)
                                (muPriority t) v) w)
  | ETopN v =>
      let t := st w in
      mret (set_st (mkState (ratings t) (history t) (lastPair t)
                            (mode t) (Some v) (resolveTieNMatches t)
                            (muPriority t) (winsOnly t)) w)
  | EReset => rebuildFiltered (set_st getDefaultState w)
  end.

Fixpoint run (es : list event) (w : app) : Rand app :=
  match es with
  | [] => mret w
  | e :: es' => w' ← handle e w; run es' w'
  end.

(** The application at boot with nothing persisted. *)
Definition boot : app := mkApp getDefaultState [] (fun _ => true) [] None.

(** The effect of one replayed entry on the ratings alone. *)
Definition entryStep (h : entry) (s : store) : store :=
  ratings (replayEntry (set_ratings s getDefaultState) h).

(** The ratings that the replay of [undo] rebuilds from a history. *)
Definition replayed (hs : list entry) : store :=
  fold_left (fun s h => entryStep h s) hs ∅.

(** The ratings of the application are those a full replay of its
    history yields, record by record. *)
Definition consistent (w : app) : Prop :=
  forall id,
    obj (ratings (st w)) id
    = obj (ratings (replay (history (st w)) (st w))) id.
End Replay.

(* ===================================================================== *)
(** * storage.js: the state across a reload of the page *)
(* ===================================================================== *)

(** [JSON.parse(JSON.stringify(r))] for a rating record. *)
Definition stored_rating (r : rating) : jsval :=
  JObj [("mu", JNum (mu r)); ("sigma", JNum (sigma r)); ("n", JNum (IZR (n r)));
        ("wins", JNum (IZR (wins r))); ("losses", JNum (IZR (losses r)));
        ("ties", JNum (IZR (ties r)))].

(** [JSON.parse(JSON.stringify(h))] for an entry of [state.history]. *)
Definition stored_entry (h : entry) : jsval :=
  JObj [("a", Entry.a h); ("b", Entry.b h);
        ("outcome", match Entry.outcome h with
                    | Some o => JNum o
                    | None => JNull
                    end);
        ("choice", JStr (Entry.choice h));
        ("kMult", JNum (Entry.kMult h));
        ("neitherPenaltyApplied", JBool (Entry.neitherPenaltyApplied h));
        ("ts", Entry.ts h)].

(** What [loadState] reads back after [saveState(state)], as far as
    [normalizeState] looks at it. *)
Definition stored_state (t : state) : jsval :=
  JObj [("ratings",
         JObj (map (fun kr => (kr.1, stored_rating kr.2))
                   (map_to_list (ratings t))));
        ("history", JArr (map stored_entry (history t)))].

(** A reload of the page: [state] is [normalizeState(loadState())], with
    the default state when that is [null], and the module variables
    start afresh. *)
Definition reload (clock : nat -> string) (w : app) : app :=
  mkApp match normalizeState_history clock (stored_state (st w)) with
        | Some hs => set_history hs (st w)
        | None => getDefaultState
        end [] (fun _ => true) [] None.

(** A step of a session: an event of the page, or a reload. *)
Inductive step : Type :=
| Event (e : event)
| Reload (clock : nat -> string).

Fixpoint session (nts : R -> string) (steps : list step) (w : app) : Rand app :=
  match steps with
  | [] => mret w
  | Event e :: steps' => w' ← handle nts e w; session nts steps' w'
  | Reload clock :: steps' => session nts steps' (reload clock w)
  end.

(* ===================================================================== *)
(** * csv.js *)
(* ===================================================================== *)

(** The characters the parser and the writer look for. *)
Definition DQUOTE : ascii := "034"%char.
Definition COMMA : ascii := ","%char.
Definition LF : ascii := "010"%char.
Definition CR : ascii := "013"%char.

(** White space and line terminators: what [trim] strips and [\s]
    matches (tab, LF, VT, FF, CR, space and the no-break space). *)
Definition is_space (c : ascii) : bool :=
  let k := nat_of_ascii c in
  ((9 <=? k) && (k <=? 13) || (k =? 32) || (k =? 160))%nat.

Fixpoint trimStart (s : string) : string :=
  match s with
  | String c s' => if is_space c then trimStart s' else s
  | EmptyString => EmptyString
  end.

Fixpoint trimEnd (s : string) : string :=
  match s with
  | EmptyString => EmptyString
  | String c s' =>
      match trimEnd s' with
      | EmptyString => if is_space c then EmptyString else String c EmptyString
      | t => String c t
      end
  end.

(** [s.trim()]. *)
Definition trim (s : string) : string := trimEnd (trimStart s).

(** [row.length > 1 || (row.length === 1 && row[0].trim() !== '')]. *)
Definition keepRow (row : list string) : bool :=
  (1 <? length row)%nat
  || ((length row =? 1)%nat
      && negb (String.eqb (trim (default "" (head row))) "")).

(** [field += c]. *)
Definition push_char (field : string) (c : ascii) : string :=
  field +:+ String c EmptyString.

(** [if (...) rows.push(row)]. *)
Definition pushRow (rows : list (list string)) (row : list string)
    : list (list string) :=
  if keepRow row then rows ++ [row] else rows.

(** The [while] loop of [parseCSV] on the text from index [i] on, and
    the statements after it once the text is exhausted. *)
Fixpoint parseLoop (text : string) (rows : list (list string)) (field : string)
    (row : list string) (inQuotes : bool) : list (list string) :=
  match text with
  | EmptyString => pushRow rows (row ++ [field])
  | String c rest =>
      if inQuotes then
        if Ascii.eqb c DQUOTE then
          match rest with
          | String c' rest' =>
              if Ascii.eqb c' DQUOTE
              then parseLoop rest' rows (push_char field DQUOTE) row true
              else parseLoop rest rows field row false
          | EmptyString => parseLoop rest rows field row false
          end
        else parseLoop rest rows (push_char field c) row true
      else if Ascii.eqb c DQUOTE then parseLoop rest rows field row true
      else if Ascii.eqb c COMMA then
        parseLoop rest rows "" (row ++ [field]) false
      else if Ascii.eqb c LF || Ascii.eqb c CR then
        let rows' := pushRow rows (row ++ [field]) in
        match rest with
        | String c' rest' =>
            if Ascii.eqb c CR && Ascii.eqb c' LF
            then parseLoop rest' rows' "" [] false
            else parseLoop rest rows' "" [] false
        | EmptyString => parseLoop rest rows' "" [] false
        end
      else parseLoop rest rows (push_char field c) row false
  end.

(** [parseCSV(text)]. *)
Definition parseCSV (text : string) : list (list string) :=
  parseLoop text [] "" [] false.

(** [arr.join(sep)]. *)
Fixpoint join (sep : string) (l : list string) : string :=
  match l with
  | [] => EmptyString
  | x0 :: l' =>
      match l' with
      | [] => x0
      | _ => x0 +:+ sep +:+ join sep l'
      end
  end.

(** [s.replaceAll(pat, rep)] for a pattern of one character. *)
Fixpoint replaceAll (pat : ascii) (rep : string) (s : string) : string :=
  match s with
  | EmptyString => EmptyString
  | String c s' =>
      if Ascii.eqb c pat then rep +:+ replaceAll pat rep s'
      else String c (replaceAll pat rep s')
  end.

(** A character occurs in a string. *)
Fixpoint has_char (c : ascii) (s : string) : bool :=
  match s with
  | EmptyString => false
  | String c' s' => Ascii.eqb c' c || has_char c s'
  end.

(** The characters of a string. *)
Definition chars (s : string) : list ascii := list_ascii_of_string s.

Section Writers.
Variable Number_toString : R -> string.

(** [String(s ?? '')]. *)
Definition String_of (s : jsval) : string :=
  if nullish s then "" else ToString Number_toString s.

(** The function [esc] of [toCSV]: a cell with a double quote, a comma,
    a line feed or a carriage return is quoted, its quotes doubled. *)
Definition csv_esc (s : jsval) : string :=
  let str := String_of s in
  if has_char DQUOTE str || has_char COMMA str || has_char LF str
     || has_char CR str
  then String DQUOTE
         (replaceAll DQUOTE (String DQUOTE (String DQUOTE EmptyString)) str
          +:+ String DQUOTE EmptyString)
  else str.

(** The array [lines] of [toCSV]; a record is given by its property
    read [rec[h]]. *)
Definition csv_lines (headers : list string) (records : list (string -> jsval))
    : list string :=
  join "," (map (fun h => csv_esc (JStr h)) headers)
  :: map (fun rec => join "," (map (fun h => csv_esc (rec h)) headers))
         records.

(** [toCSV(headers, records)]. *)
Definition toCSV (headers : list string) (records : list (string -> jsval))
    : string :=
  join (String LF EmptyString) (csv_lines headers records).

(** [esc(s)] of unified_app.js, [escapeHtml(s)] of the legacy
    application. *)
Definition esc (s : jsval) : string :=
  replaceAll "'" "&#039;"
    (replaceAll DQUOTE "&quot;"
       (replaceAll ">" "&gt;"
          (replaceAll "<" "&lt;"
             (replaceAll "&" "&amp;" (String_of s))))).
End Writers.

(** [\w]: a letter, a digit or the underscore. *)
Definition is_word (c : ascii) : bool :=
  let k := nat_of_ascii c in
  ((65 <=? k) && (k <=? 90) || (97 <=? k) && (k <=? 122)
   || (48 <=? k) && (k <=? 57) || (k =? 95))%nat.

(** [s.replace(/\s+/g, ' ')]; [after_space] tells that the character
    before [s] belongs to a run of white space already replaced. *)
Fixpoint collapse_spaces (after_space : bool) (s : string) : string :=
  match s with
  | EmptyString => EmptyString
  | String c s' =>
      if is_space c then
        if after_space then collapse_spaces true s'
        else String " " (collapse_spaces true s')
      else String c (collapse_spaces false s')
  end.

(** [s.replace(/[^\w\s-]/g, '')]. *)
Fixpoint strip_punctuation (s : string) : string :=
  match s with
  | EmptyString => EmptyString
  | String c s' =>
      if is_word c || is_space c || Ascii.eqb c "-"
      then String c (strip_punctuation s')
      else strip_punctuation s'
  end.

(** [normKey(s)] for a string [s]. *)
Definition normKey (s : string) : string :=
  strip_punctuation (collapse_spaces false (toLowerCase (trim s))).

(** [hay.includes(needle)]. *)
Fixpoint includes (needle hay : string) : bool :=
  String.prefix needle hay
  || match hay with
     | EmptyString => false
     | String _ hay' => includes needle hay'
     end.

(** [arr.findIndex(p)], [None] for -1. *)
Fixpoint findIndex {A} (p : A -> bool) (arr : list A) : option nat :=
  match arr with
  | [] => None
  | v :: arr' => if p v then Some 0%nat else S <$> findIndex p arr'
  end.

(** [arr.indexOf(v)] on strings, [None] for -1. *)
Definition indexOf (v : string) (arr : list string) : option nat :=
  findIndex (String.eqb v) arr.

(** The function [idx] of [detectColumns], with [H = headers.map(normKey)];
    [None] is [null].  The indices found are indices of [headers]. *)
Fixpoint idx (headers : list string) (aliases : list string) : option string :=
  let H := map normKey headers in
  match aliases with
  | [] => None
  | a :: aliases' =>
      match indexOf (normKey a) H with
      | Some ai => headers !! ai
      | None =>
          match findIndex (fun h => includes (normKey a) h) H with
          | Some sub => headers !! sub
          | None => idx headers aliases'
          end
      end
  end.

(** The object [detectColumns] returns. *)
Record columns : Type := mkColumns {
  col_id : option string;
  col_title : option string;
  col_abstract : option string;
  col_authors : option string;
  col_presenter : option string;
  col_session : option string;
  col_location : option string;
  col_date : option string;
  col_time : option string;
  col_cat1 : option string;
  col_cat2 : option string;
  col_keywords : option string
}.

(** [detectColumns(headers)]. *)
Definition detectColumns (headers : list string) : columns :=
  mkColumns
    (idx headers ["Paper number"; "id"; "paper id"; "submission id"; "program id"])
    (idx headers ["Title"; "paper title"; "title"])
    (idx headers ["Abstract"; "paper abstract"])
    (idx headers ["Authors Names"; "authors"; "author list"])
    (idx headers ["Presenters Name"; "presenter"; "presenting author"; "speaker"])
    (idx headers ["Session"; "session"])
    (idx headers ["Room Location"; "location"; "room"; "hall"])
    (idx headers ["Session Date"; "date"; "day"])
    (idx headers ["Session time"; "time"])
    (idx headers ["category_primary"])
    (idx headers ["category_secondary"])
    (idx headers ["keywords"]).

(* ===================================================================== *)
(** * unified_app.js: ranks and scores for display *)
(* ===================================================================== *)

(** [Math.min(...values)] and [Math.max(...values)] of [v :: vs]. *)
Definition Math_min (v : R) (vs : list R) : R := fold_left Rmin vs v.
Definition Math_max (v : R) (vs : list R) : R := fold_left Rmax vs v.

(** [normalizeInGroup(values, value)]. *)
Definition normalizeInGroup (values : list R) (value : R) : R :=
  match values with
  | [] => 0.0%R
  | v :: vs =>
      let minVal := Math_min v vs in
      let maxVal := Math_max v vs in
      let span := (maxVal - minVal)%R in
      if Rlt_dec span 1e-9 then 0.5%R else ((value - minVal) / span)%R
  end.

(** [new Map(entries)], and a [Map] filled by [set] in the order of
    [entries]: the last entry of a key decides. *)
Definition Map_of {V} (entries : list (string * V)) : gmap string V :=
  fold_left (fun (m : gmap string V) (e : string * V) => <[e.1 := e.2]> m)
            entries ∅.

(** [buildRankById()]: the [Map] from id to rank, and the ratings after
    the hydration of every record. *)
Definition buildRankById (w : app) : gmap string nat * store :=
  let (items, s) := hydrateAll (RAW_RECORDS w) (ratings (st w)) in
  let all := sort mu_descending items in
  (Map_of (imap (fun idx it => (Item.id it, (idx + 1)%nat)) all), s).

(* ===================================================================== *)
(** * viz/app.js: the opacity of the points *)
(* ===================================================================== *)

(** [buildOpacityMap(points)]: a point is given by its [paper_id], and
    [s] holds the ratings read from storage, as the ranking page wrote
    them. *)
Definition buildOpacityMap (s : store) (points : list string)
    : gmap string R :=
  let mus := map (fun p => mu (obj s p)) points in
  match mus with
  | [] => ∅
  | m :: ms =>
      let minMu := Math_min m ms in
      let maxMu := Math_max m ms in
      let span := Rmax 1e-9 (maxMu - minMu) in
      Map_of (map (fun e : string * R =>
                     let norm := ((e.2 - minMu) / span)%R in
                     (e.1, (0.18 + (0.92 - 0.18) * norm)%R))
                  (zip points mus))
  end.

(* ===================================================================== *)
(** * legacy/web/app.js: the rating core of the legacy application *)
(* ===================================================================== *)

(** The legacy application keeps the same state record (it leaves the
    selection settings of the unified application alone) and has the
    same [applyOutcomeCounters].  Its [vote] and [undo] rate every
    outcome with [updatePair] and take [NEITHER_PENALTY] off both items
    of a NEITHER vote.  Both functions are modelled up to their final
    call of [rebuildFiltered], which re-hydrates and re-selects. *)
Module Legacy.

Definition NEITHER_PENALTY : R := 10.

(** The legacy [getRating(id)] for an [ordinary] id: it creates the
    default record on first reference and has no repairs.  (Under an
    inherited name it returns the inherited object as it is, and the
    arithmetic on its undefined fields yields NaN.) *)
Definition getRating (id : string) (s : store) : store :=
  match s !! id with
  | None => <[id := default_rating]> s
  | Some _ => s
  end.

(** [map[choice]] of the legacy [vote] for an [ordinary] label; see
    [voteMap] of the unified application for the inherited names. *)
Definition voteMap (choice : string) : option voteCfg :=
  if String.eqb choice "A" then Some (mkCfg (Some 1.0%R) 1.0 false)
  else if String.eqb choice "STRONG_A" then Some (mkCfg (Some 1.0%R) 1.8 false)
  else if String.eqb choice "B" then Some (mkCfg (Some 0.0%R) 1.0 false)
  else if String.eqb choice "STRONG_B" then Some (mkCfg (Some 0.0%R) 1.8 false)
  else if String.eqb choice "BOTH" then Some (mkCfg (Some 0.5%R) 0.8 false)
  else if String.eqb choice "NEITHER" then Some (mkCfg (Some 0.5%R) 1.2 true)
  else if String.eqb choice "SKIP" then Some (mkCfg None 0.0 false)
  else None.

(** [rA.mu -= NEITHER_PENALTY; rB.mu -= NEITHER_PENALTY]. *)
Definition penalize (rA rB : string) (s : store) : store :=
  let s := alter (fun r => set_mu (mu r - NEITHER_PENALTY) r) rA s in
  alter (fun r => set_mu (mu r - NEITHER_PENALTY) r) rB s.

(** The legacy [vote(choice)] on the current pair [A], [B], up to
    [rebuildFiltered()]; [None] when it returns at once. *)
Definition vote (now choice : string) (A B : item) (t : state)
    : option state :=
  match voteMap choice with
  | None => None
  | Some cfg =>
      match cfg_outcome cfg with
      | None =>
          let e := Entry.mk (JStr (Item.id A)) (JStr (Item.id B)) None
                            choice 0.0 false (JStr now) in
          Some (set_history (history t ++ [e]) t)
      | Some outcome =>
          let s := ratings t in
          let s := getRating (Item.id A) s in
          let rA := Item.id A in
          let s := getRating (Item.id B) s in
          let rB := Item.id B in
          let s := updatePair rA rB outcome
                              (Some (BASE_K * cfg_kMult cfg)%R) s in
          let s := if cfg_neitherPenaltyApplied cfg then penalize rA rB s
                   else s in
          let s := applyOutcomeCounters rA rB outcome s in
          let e := Entry.mk (JStr (Item.id A)) (JStr (Item.id B))
                            (Some outcome) choice (cfg_kMult cfg)
                            (cfg_neitherPenaltyApplied cfg) (JStr now) in
          Some (set_history (history t ++ [e]) (set_ratings s t))
      end
  end.

Section Replay.
Variable Number_toString : R -> string.

(** The body of [for (const h of history)] in the legacy [undo]. *)
Definition replayEntry (t : state) (h : entry) : state :=
  match Entry.outcome h with
  | None => set_history (history t ++ [h]) t
  | Some outcome =>
      let s := ratings t in
      let rA := ToString Number_toString (Entry.a h) in
      let s := getRating rA s in
      let rB := ToString Number_toString (Entry.b h) in
      let s := getRating rB s in
      let kMult := Entry.kMult h in
      let s := updatePair rA rB outcome (Some (BASE_K * kMult)%R) s in
      let s := if Entry.neitherPenaltyApplied h then penalize rA rB s
               else s in
      let s := applyOutcomeCounters rA rB outcome s in
      set_history (history t ++ [h]) (set_ratings s t)
  end.

(** The legacy [undo()] up to [rebuildFiltered()]; [None] when the
    history is empty. *)
Definition undo (t : state) : option state :=
  if (length (history t) =? 0)%nat then None
  else
    let history := take (length (history t) - 1) (history t) in
    Some (fold_left replayEntry history
            (set_lastPair [] (set_history [] (set_ratings ∅ t)))).

(** The ratings that the legacy replay rebuilds from a history. *)
Definition replayed (hs : list entry) : store :=
  ratings (fold_left replayEntry hs
             (set_lastPair [] (set_history [] (set_ratings ∅ getDefaultState)))).
End Replay.
End Legacy.

(* ===================================================================== *)
(** * Vocabulary of the properties *)
(* ===================================================================== *)

(** Two stores that show the same record at every id (a record that was
    never created reads as the default one). *)
Definition veq (s1 s2 : store) : Prop := forall k, obj s1 k = obj s2 k.

(** [consistent], stated on the ratings a replay rebuilds. *)
Definition in_sync (nts : R -> string) (w : app) : Prop :=
  veq (ratings (st w)) (replayed nts (history (st w))).

(** The effective learning rate [K] of a record in [updatePair]. *)
Definition effK (baseK : option R) (r : rating) : R :=
  (default 32%R baseK * clamp (sigma r / DEFAULT_SIGMA) 0.6 1.8)%R.

(** The tie factor of [updatePair]. *)
Definition tieFactor (outcome : R) : R :=
  if Req_dec_T outcome 0.5 then 0.98%R else 1.0%R.

(** One rating update: a pairwise update or a joint adjustment. *)
Inductive ratingOp : Type :=
| OpPair (A B : string) (outcome : R) (baseK : option R)
| OpJoint (rating : string) (direction kMult : R).

Definition applyOp (s : store) (op : ratingOp) : store :=
  match op with
  | OpPair A B outcome baseK => updatePair A B outcome baseK s
  | OpJoint rating direction kMult =>
      applyJointAdjustment rating direction kMult s
  end.

Definition floored (r : rating) : Prop := (MIN_SIGMA <= sigma r)%R.

Definition all_floored (s : store) : Prop := forall k, floored (obj s k).

(** A stored entry has no usable [choice]: the field is absent, not a
    string, or the empty string. *)
Definition choice_missing (h : jsval) : Prop :=
  match get h "choice" with
  | JStr s => s = ""
  | _ => True
  end.

(** A stored entry has no usable [kMult]: the field is not a number. *)
Definition kMult_missing (h : jsval) : Prop :=
  match get h "kMult" with
  | JNum _ => False
  | _ => True
  end.

(** The outcome of a stored entry as normalization reads it. *)
Definition stored_outcome (h : jsval) : option R :=
  match get h "outcome" with
  | JNum v => Some v
  | _ => None
  end.

(** A pair of two members of the pool with distinct ids. *)
Definition valid_pair (pool : list item) (p : item * item) : Prop :=
  p.1 ∈ pool /\ p.2 ∈ pool /\ Item.id p.1 <> Item.id p.2.

(** Every group of a [Map] is a non-empty part of the pool. *)
Definition groups_in {K : Type} (pool : list item)
    (m : list (K * list item)) : Prop :=
  Forall (fun kg => kg.2 <> [] /\ kg.2 ⊆ pool) m.

(** An entry in the shape [vote] records: a non-empty label and, with an
    outcome, two ids. *)
Definition vote_shaped (h : entry) : Prop :=
  Entry.choice h <> "" /\
  (Entry.outcome h <> None ->
   truthy (Entry.a h) = true /\ truthy (Entry.b h) = true).

(** The current pair shows two distinct, non-empty ids. *)
Definition pair_ok (w : app) : Prop :=
  forall A B, currentPair w = Some (A, B) ->
              Item.id A <> "" /\ Item.id B <> "" /\ Item.id A <> Item.id B.

(** What is on display is in order: [rebuildFiltered] drops the rows
    without an id, and the current pair comes from the selector on the
    filtered rows. *)
Definition display_ok (w : app) : Prop :=
  Forall (fun it => Item.id it <> "") (filtered w) /\ pair_ok w.

(** A session in good order: ratings and history agree, the history is
    made of recorded votes, and no empty id is on display. *)
Definition session_ok (nts : R -> string) (w : app) : Prop :=
  consistent nts w /\ Forall vote_shaped (history (st w)) /\ display_ok w.

(** ** Ordinary ids and labels

    The states and sessions in which every property key that reaches
    [state.ratings] or the table of [vote] is [ordinary]. *)

(** Both ids of an entry are ordinary. *)
Definition ordinary_entry (nts : R -> string) (h : entry) : Prop :=
  ordinary (ToString nts (Entry.a h)) /\ ordinary (ToString nts (Entry.b h)).

(** The ids of the history, of the loaded rows and of the current pair
    are ordinary, and the store holds nothing under an inherited name. *)
Definition ordinary_app (nts : R -> string) (w : app) : Prop :=
  Forall (ordinary_entry nts) (history (st w)) /\
  Forall (fun rec => ordinary (rec_id rec)) (RAW_RECORDS w) /\
  (forall A B, currentPair w = Some (A, B) ->
               ordinary (Item.id A) /\ ordinary (Item.id B)) /\
  Forall (fun k => ratings (st w) !! k = None) inherited_names.

(** The store holds nothing under an inherited name. *)
Definition ordinary_store (s : store) : Prop :=
  Forall (fun k => s !! k = None) inherited_names.

(** An ordinary state whose rows on display have ordinary ids. *)
Definition ordinary_session (nts : R -> string) (w : app) : Prop :=
  ordinary_app nts w /\ Forall (fun it => ordinary (Item.id it)) (filtered w).

(** A vote carries an ordinary label and a load brings rows with
    ordinary ids. *)
Definition ordinary_event (e : event) : Prop :=
  match e with
  | EVote _ choice => ordinary choice
  | ELoadCSV recs => Forall (fun rec => ordinary (rec_id rec)) recs
  | _ => True
  end.

Definition ordinary_step (s : step) : Prop :=
  match s with
  | Event e => ordinary_event e
  | Reload _ => True
  end.

(** ** Sample data *)

(** Three papers after one vote on the first two. *)
Definition p1 : item := Item.mk "p1" "Parsing" 1516 325.5 1 1.
Definition p2 : item := Item.mk "p2" "Parsing" 1484 325.5 1 0.
Definition p3 : item := Item.mk "p3" "Parsing" 1500 350 0 0.

Definition random_state : state :=
  mkState ∅ [] [p1; p2] (Some "random") (Some 60%Z) (Some "minimal")
          (Some "highest") false.

(** Two unrated papers shown as the current pair of a fresh session. *)
Definition itemX : item := Item.mk "X" "Parsing" 1500 350 0 0.
Definition itemY : item := Item.mk "Y" "Semantics" 1500 350 0 0.
Definition paired : app :=
  mkApp getDefaultState [] (fun _ => true) [] (Some (itemX, itemY)).
Definition no_draws : rng := fun _ => 0%nat.
Definition fresh_pair : store :=
  <["X" := default_rating]> (<["Y" := default_rating]> ∅).

(* ===================================================================== *)
(** * Vocabulary of the further properties *)
(* ===================================================================== *)

#[global] Instance R_eq_dec : EqDecision R := Req_dec_T.
#[global] Instance Rlt_decision (a b : R) : Decision (a < b)%R := Rlt_dec a b.

(** The matches of a record that no counter accounts for. *)
Definition uncounted (r : rating) : Z := (n r - wins r - losses r - ties r)%Z.

Definition counters_ok (r : rating) : Prop :=
  (0 <= wins r)%Z /\ (0 <= losses r)%Z /\ (0 <= ties r)%Z.

(** A hydrated item carries the rating fields of its record. *)
Definition shows (s : store) (it : item) : Prop :=
  Item.mu it = mu (obj s (Item.id it)) /\
  Item.sigma it = sigma (obj s (Item.id it)) /\
  Item.n it = n (obj s (Item.id it)) /\
  Item.wins it = wins (obj s (Item.id it)).

(** Every row on display has an id, passes the filters of the page,
    comes from a loaded record and shows the stored rating of its id. *)
Definition display_synced (w : app) : Prop :=
  Forall (fun it => Item.id it <> "" /\ domFilter w it = true /\
                    shows (ratings (st w)) it /\
                    exists rec, rec ∈ RAW_RECORDS w /\ rec_id rec = Item.id it)
         (filtered w).

(** The order a numeric comparator defines: [x0] may stand before [y]. *)
Definition before {A} (cmp : A -> A -> R) (x0 y : A) : Prop := (cmp x0 y <= 0)%R.

(** A comparator that orders its arguments consistently. *)
Definition consistent_cmp {A} (cmp : A -> A -> R) : Prop :=
  (forall a b, (0 < cmp a b)%R -> (cmp b a <= 0)%R) /\
  (forall a b c, (cmp a b <= 0)%R -> (cmp b c <= 0)%R -> (cmp a c <= 0)%R).

Section Groups.
Context {K : Type} `{EqDecision K}.

(** A [Map] under construction: distinct keys, and each group holds the
    items of [l] with its key, in order. *)
Definition groups_of (key : item -> K) (l : list item)
    (m : list (K * list item)) : Prop :=
  NoDup (map fst m) /\
  (forall k grp, (k, grp) ∈ m ->
                 grp <> [] /\ grp = filter (fun v => key v = k) l) /\
  (forall v, v ∈ l -> key v ∈ map fst m).
End Groups.

(** The opponent candidates of [A] in [chooseNextPair], sorted by
    closeness in mu, and the pool [poolB] drawn from them. *)
Definition opponent_candidates (prioritized : list item) (A : item)
    : list candidate :=
  sort candidate_order
    (map (fun v => mkCandidate v (Rabs (Item.mu v - Item.mu A)) (Item.sigma v))
         (filter (fun v => Item.id v <> Item.id A) prioritized)).

Definition opponent_source (prioritized : list item) (A : item)
    : list candidate :=
  let candidates := opponent_candidates prioritized A in
  let diverse := filter (fun c => Item.cat1 (x c) <> Item.cat1 A) candidates in
  if (0 <? length diverse)%nat then diverse else candidates.

Definition opponent_pool (prioritized : list item) (A : item)
    : list candidate :=
  take 30 (opponent_source prioritized A).

(** Two items that tie: the same mu to six decimals and as many
    matches. *)
Definition tied (a b : item) : Prop :=
  toFixed6 (Item.mu a) = toFixed6 (Item.mu b) /\ Item.n a = Item.n b.

(** The effect of one entry of the legacy replay on the ratings. *)
Definition legacy_step (nts : R -> string) (h : entry) (s : store) : store :=
  ratings (Legacy.replayEntry nts (set_ratings s getDefaultState) h).

(** The next character, if any, is no double quote. *)
Definition no_quote_head (tail : string) : Prop :=
  match tail with
  | String c _ => c <> DQUOTE
  | EmptyString => True
  end.

(** The next character, if any, is no line feed. *)
Definition no_LF_head (s : string) : Prop :=
  match s with
  | String c _ => c <> LF
  | EmptyString => True
  end.

(** The line breaks that [parseCSV] accepts: LF, CR LF and CR. *)
Definition line_break (sep : string) : Prop :=
  sep = String LF EmptyString \/ sep = String CR (String LF EmptyString)
  \/ sep = String CR EmptyString.

(** The characters of a normalized key. *)
Definition is_key_char (c : ascii) : bool :=
  let k := nat_of_ascii c in
  ((97 <=? k) && (k <=? 122) || (48 <=? k) && (k <=? 57) || (k =? 95)
   || (k =? 32) || (k =? 45))%nat.

Definition is_upper (c : ascii) : bool :=
  let k := nat_of_ascii c in ((65 <=? k) && (k <=? 90))%nat.

(** What [esc] writes for one character. *)
Definition entity (c : ascii) : string :=
  if Ascii.eqb c "&" then "&amp;"
  else if Ascii.eqb c "<" then "&lt;"
  else if Ascii.eqb c ">" then "&gt;"
  else if Ascii.eqb c DQUOTE then "&quot;"
  else if Ascii.eqb c "'" then "&#039;"
  else String c EmptyString.

(** The markup characters that [esc] removes. *)
Definition is_markup (c : ascii) : bool :=
  Ascii.eqb c "<" || Ascii.eqb c ">" || Ascii.eqb c DQUOTE || Ascii.eqb c "'".


(** ** Sample data of the further properties *)

(** The fresh pair with the first paper 100 points ahead. *)
Definition ahead_pair : store :=
  <["X" := mkRating 1600 350 0 0 0 0]> fresh_pair.

(** A session state with one vote in its history. *)
Definition voted_once : app :=
  mkApp (mkState ∅
           [Entry.mk (JStr "X") (JStr "Y") (Some 1%R) "A" 1.0 false (JStr "t0")]
           [] (Some "active") (Some 60%Z) (Some "minimal") (Some "highest")
           false)
        [] (fun _ => true) [] None.

(** Two loaded rows. *)
Definition two_rows : list record :=
  [mkRecord "X" "Parsing"; mkRecord "Y" "Semantics"].
Definition loaded : app :=
  mkApp getDefaultState two_rows (fun _ => true) [] None.

(** The selection settings of the tie resolution. *)
Definition resolve_state : state :=
  mkState ∅ [] [] (Some "resolve_ties") (Some 60%Z) (Some "minimal")
          (Some "highest") false.

(** A table of two columns and one row. *)
Definition sample_headers : list string := ["id"; "title"].
Definition sample_row (h : string) : jsval :=
  if String.eqb h "id" then JNum 7 else JStr "Parsing, fast".

(** A state as [importState] accepts it: a rating for X that no entry of
    the (empty) history accounts for, shown as the current pair with Y. *)
Definition imported : app :=
  mkApp (mkState {[ "X" := mkRating 1700 350 0 0 0 0 ]} [] []
                 (Some "active") (Some 60%Z) (Some "minimal")
                 (Some "highest") false)
        two_rows (fun _ => true) []
        (Some (Item.mk "X" "Parsing" 1700 350 0 0, itemY)).

(** The entry that the legacy application records for a NEITHER vote on
    X and Y. *)
Definition neither_entry : entry :=
  Entry.mk (JStr "X") (JStr "Y") (Some 0.5%R) "NEITHER" 1.2 true (JStr "t1").

(** The legacy state after a NEITHER vote on the fresh pair. *)
Definition legacy_voted : state :=
  default getDefaultState
          (Legacy.vote "t1" "NEITHER" itemX itemY getDefaultState).

(** The selection settings with the lowest mu first. *)
Definition lowest_state : state :=
  mkState ∅ [] [] (Some "active") (Some 60%Z) (Some "minimal")
          (Some "lowest") false.

(* ===================================================================== *)
(** * Properties *)
(* ===================================================================== *)

(** ** The store of rating records *)

Lemma obj_lookup (s : store) (k : string) (r : rating) :
  s !! k = Some r -> obj s k = r.
Proof. intros H. unfold obj. by rewrite H. Qed.

Lemma obj_alter_eq (f : rating -> rating) (s : store) (k : string) :
  is_Some (s !! k) -> obj (alter f k s) k = f (obj s k).
Proof.
  intros [r Hr]. unfold obj. rewrite lookup_alter_eq, Hr. reflexivity.
Qed.

Lemma obj_alter_ne (f : rating -> rating) (s : store) (k k' : string) :
  k <> k' -> obj (alter f k s) k' = obj s k'.
Proof. intros Hne. unfold obj. by rewrite lookup_alter_ne. Qed.

Lemma alter_is_Some (f : rating -> rating) (s : store) (k k' : string) :
  is_Some (alter f k s !! k') <-> is_Some (s !! k').
Proof.
  destruct (decide (k = k')) as [->|Hne].
  - rewrite lookup_alter_eq. apply fmap_is_Some.
  - by rewrite lookup_alter_ne.
Qed.

(** A property of records that every update function preserves is
    preserved by [alter] at every key. *)
Lemma obj_alter_preserves (P : rating -> Prop) (f : rating -> rating)
    (s : store) (k k' : string) :
  (forall r, P r -> P (f r)) -> P (obj s k') -> P (obj (alter f k s) k').
Proof.
  intros Hf HP. destruct (decide (k = k')) as [->|Hne].
  - unfold obj in *. rewrite lookup_alter_eq.
    destruct (s !! k'); simpl in *; auto.
  - by rewrite obj_alter_ne.
Qed.

Lemma getRating_obj (id k : string) (s : store) :
  obj (getRating id s) k = obj s k.
Proof.
  unfold getRating. destruct (s !! id) eqn:E; [done|].
  unfold obj. destruct (decide (id = k)) as [->|Hne].
  - by rewrite lookup_insert_eq, E.
  - by rewrite lookup_insert_ne.
Qed.

Lemma getRating_is_Some (id : string) (s : store) :
  is_Some (getRating id s !! id).
Proof.
  unfold getRating. destruct (s !! id) eqn:E.
  - rewrite E. eauto.
  - rewrite lookup_insert_eq. eauto.
Qed.

Lemma getRating_keeps (id k : string) (s : store) :
  is_Some (s !! k) -> is_Some (getRating id s !! k).
Proof.
  unfold getRating. destruct (s !! id) eqn:E; [done|].
  intros H. destruct (decide (id = k)) as [->|Hne].
  - rewrite lookup_insert_eq. eauto.
  - by rewrite lookup_insert_ne.
Qed.

Lemma getRating_lookup_Some (id k : string) (s : store) (r : rating) :
  s !! k = Some r -> getRating id s !! k = Some r.
Proof.
  unfold getRating. destruct (s !! id) eqn:E; [done|].
  intros H. rewrite lookup_insert_ne; [done|]. intros ->. congruence.
Qed.

(** ** The numeric helpers *)

Lemma clamp_bounds (v lo hi : R) : (lo <= hi -> lo <= clamp v lo hi <= hi)%R.
Proof.
  intros H. unfold clamp, Rmax, Rmin.
  repeat destruct (Rle_dec _ _); lra.
Qed.

Lemma clamp_one : clamp (DEFAULT_SIGMA / DEFAULT_SIGMA) 0.6 1.8 = 1%R.
Proof.
  unfold clamp, DEFAULT_SIGMA, Rmax, Rmin.
  replace (350 / 350)%R with 1%R by lra.
  repeat destruct (Rle_dec _ _); lra.
Qed.

Lemma logistic_zero : logistic 0 = 0.5%R.
Proof.
  unfold logistic. replace (- 0 / 400)%R with 0%R by lra.
  rewrite Rpower_O by lra. lra.
Qed.

Lemma logistic_range (v : R) : (0 < logistic v < 1)%R.
Proof.
  unfold logistic.
  assert (Hp : (0 < Rpower 10 (- v / 400))%R) by (unfold Rpower; apply exp_pos).
  split.
  - apply Rdiv_lt_0_compat; lra.
  - apply Rmult_lt_reg_r with (1 + Rpower 10 (- v / 400))%R; [lra|].
    unfold Rdiv. rewrite Rmult_assoc, Rinv_l by lra. lra.
Qed.

(** ** [updatePair] on two distinct records *)

Lemma updatePair_A (A B : string) (o : R) (k : option R) (s : store)
    (ra rb : rating) :
  A <> B -> s !! A = Some ra -> s !! B = Some rb ->
  updatePair A B o k s !! A =
    Some (mkRating (mu ra + effK k ra * (o - logistic (mu ra - mu rb)))
                   (Rmax MIN_SIGMA (sigma ra * SIGMA_DECAY * tieFactor o))
                   (n ra + 1) (wins ra) (losses ra) (ties ra)).
Proof.
  intros Hne HA HB. unfold updatePair, obj, effK, tieFactor.
  rewrite HA, HB. simpl. by simplify_map_eq.
Qed.

Lemma updatePair_B (A B : string) (o : R) (k : option R) (s : store)
    (ra rb : rating) :
  A <> B -> s !! A = Some ra -> s !! B = Some rb ->
  updatePair A B o k s !! B =
    Some (mkRating (mu rb + effK k rb *
                      ((1 - o) - (1 - logistic (mu ra - mu rb))))
                   (Rmax MIN_SIGMA (sigma rb * SIGMA_DECAY * tieFactor o))
                   (n rb + 1) (wins rb) (losses rb) (ties rb)).
Proof.
  intros Hne HA HB. unfold updatePair, obj, effK, tieFactor.
  rewrite HA, HB. simpl. by simplify_map_eq.
Qed.

Lemma updatePair_other (A B : string) (o : R) (k : option R) (s : store)
    (c : string) :
  c <> A -> c <> B -> updatePair A B o k s !! c = s !! c.
Proof.
  intros HA HB. unfold updatePair. by rewrite !lookup_alter_ne.
Qed.

Lemma updatePair_is_Some (A B : string) (o : R) (k : option R) (s : store)
    (c : string) :
  is_Some (updatePair A B o k s !! c) <-> is_Some (s !! c).
Proof. unfold updatePair. by rewrite !alter_is_Some. Qed.

Lemma applyOutcomeCounters_other (A B : string) (o : R) (s : store)
    (c : string) :
  c <> A -> c <> B -> applyOutcomeCounters A B o s !! c = s !! c.
Proof.
  intros HA HB. unfold applyOutcomeCounters.
  repeat destruct (Req_dec_T _ _); by rewrite !lookup_alter_ne.
Qed.

Lemma applyOutcomeCounters_is_Some (A B : string) (o : R) (s : store)
    (c : string) :
  is_Some (applyOutcomeCounters A B o s !! c) <-> is_Some (s !! c).
Proof.
  unfold applyOutcomeCounters.
  repeat destruct (Req_dec_T _ _); by rewrite !alter_is_Some.
Qed.

(** Claim C4.  Standard pairwise update on two default records: with
    outcome 1.0 and baseK = 32, [updatePair] on two distinct records [X]
    and [Y] that both hold the defaults (mu 1500, sigma 350, n 0) leaves
    mu_X = 1516, mu_Y = 1484, sigma = 325.5 and n = 1 for both; once
    [applyOutcomeCounters] has run, X.wins = 1 and Y.losses = 1. *)
Theorem updatePair_default_example (s : store) (X Y : string) :
  X <> Y ->
  s !! X = Some default_rating ->
  s !! Y = Some default_rating ->
  let s1 := updatePair X Y 1.0 (Some 32%R) s in
  let s2 := applyOutcomeCounters X Y 1.0 s1 in
  s1 !! X = Some (mkRating 1516 325.5 1 0 0 0) /\
  s1 !! Y = Some (mkRating 1484 325.5 1 0 0 0) /\
  s2 !! X = Some (mkRating 1516 325.5 1 1 0 0) /\
  s2 !! Y = Some (mkRating 1484 325.5 1 0 1 0).
Proof.
  intros Hne HX HY s1 s2.
  assert (H1 : s1 !! X = Some (mkRating 1516 325.5 1 0 0 0)).
  { unfold s1. rewrite (updatePair_A X Y _ _ s _ _ Hne HX HY).
    unfold effK, tieFactor, default_rating; simpl.
    rewrite clamp_one. replace (DEFAULT_MU - DEFAULT_MU)%R with 0%R by lra.
    rewrite logistic_zero.
    destruct (Req_dec_T 1.0 0.5); [lra|].
    unfold Rmax, MIN_SIGMA, DEFAULT_SIGMA, SIGMA_DECAY, DEFAULT_MU.
    destruct (Rle_dec _ _); [|lra].
    do 2 f_equal; lra. }
  assert (H2 : s1 !! Y = Some (mkRating 1484 325.5 1 0 0 0)).
  { unfold s1. rewrite (updatePair_B X Y _ _ s _ _ Hne HX HY).
    unfold effK, tieFactor, default_rating; simpl.
    rewrite clamp_one. replace (DEFAULT_MU - DEFAULT_MU)%R with 0%R by lra.
    rewrite logistic_zero.
    destruct (Req_dec_T 1.0 0.5); [lra|].
    unfold Rmax, MIN_SIGMA, DEFAULT_SIGMA, SIGMA_DECAY, DEFAULT_MU.
    destruct (Rle_dec _ _); [|lra].
    do 2 f_equal; lra. }
  repeat split; [done|done| |].
  - unfold s2, applyOutcomeCounters. destruct (Req_dec_T 1.0 1.0); [|lra].
    rewrite lookup_alter_ne by done. rewrite lookup_alter_eq, H1. done.
  - unfold s2, applyOutcomeCounters. destruct (Req_dec_T 1.0 1.0); [|lra].
    rewrite lookup_alter_eq. rewrite lookup_alter_ne by done. rewrite H2. done.
Qed.

Lemma getRating_lookup (id : string) (s : store) :
  getRating id s !! id = Some (obj s id).
Proof.
  unfold getRating, obj. destruct (s !! id) eqn:E; simpl.
  - by rewrite E.
  - by rewrite lookup_insert_eq.
Qed.

Lemma getRating_lookup_ne (id k : string) (s : store) :
  id <> k -> getRating id s !! k = s !! k.
Proof.
  intros Hne. unfold getRating. destruct (s !! id); [done|].
  by rewrite lookup_insert_ne.
Qed.

(** ** The random monad *)

Lemma rand_bind_unfold {A B} (m : Rand A) (k : A -> Rand B) (g : rng) :
  (m ≫= k) g = k (m g).1 (m g).2.
Proof. unfold mbind, rand_bind. by destruct (m g). Qed.

(** ** Hydration and re-selection leave ratings and history alone *)

Lemma hydrateAll_obj (recs : list record) (s : store) (k : string) :
  obj (hydrateAll recs s).2 k = obj s k.
Proof.
  revert s. induction recs as [|rec recs IH]; intros s; [done|].
  simpl. destruct (hydrateAll recs (getRating (rec_id rec) s)) as [its s'] eqn:E.
  simpl. specialize (IH (getRating (rec_id rec) s)). rewrite E in IH. simpl in IH.
  by rewrite IH, getRating_obj.
Qed.

Lemma hydrateAll_lookup_Some (recs : list record) (s : store) (k : string)
    (r : rating) :
  s !! k = Some r -> (hydrateAll recs s).2 !! k = Some r.
Proof.
  revert s. induction recs as [|rec recs IH]; intros s H; [done|].
  simpl. destruct (hydrateAll recs (getRating (rec_id rec) s)) as [its s'] eqn:E.
  simpl. specialize (IH (getRating (rec_id rec) s)). rewrite E in IH.
  apply IH. by apply getRating_lookup_Some.
Qed.

Lemma nextPair_ratings (w : app) (g : rng) :
  ratings (st (nextPair w g).1) = ratings (st w).
Proof.
  unfold nextPair. destruct (_ <? _)%nat; [done|].
  rewrite rand_bind_unfold.
  destruct (chooseNextPair (filtered w) (st w) g).1 as [[A B]|]; done.
Qed.

Lemma nextPair_history (w : app) (g : rng) :
  history (st (nextPair w g).1) = history (st w).
Proof.
  unfold nextPair. destruct (_ <? _)%nat; [done|].
  rewrite rand_bind_unfold.
  destruct (chooseNextPair (filtered w) (st w) g).1 as [[A B]|]; done.
Qed.

Lemma rebuildFiltered_ratings (w : app) (g : rng) :
  ratings (st (rebuildFiltered w g).1)
  = (hydrateAll (RAW_RECORDS w) (ratings (st w))).2.
Proof.
  unfold rebuildFiltered.
  destruct (hydrateAll (RAW_RECORDS w) (ratings (st w))) as [its s'].
  by rewrite nextPair_ratings.
Qed.

Lemma rebuildFiltered_obj (w : app) (g : rng) (k : string) :
  obj (ratings (st (rebuildFiltered w g).1)) k = obj (ratings (st w)) k.
Proof. by rewrite rebuildFiltered_ratings, hydrateAll_obj. Qed.

Lemma rebuildFiltered_lookup_Some (w : app) (g : rng) (k : string) (r : rating) :
  ratings (st w) !! k = Some r ->
  ratings (st (rebuildFiltered w g).1) !! k = Some r.
Proof. rewrite rebuildFiltered_ratings. apply hydrateAll_lookup_Some. Qed.

Lemma rebuildFiltered_history (w : app) (g : rng) :
  history (st (rebuildFiltered w g).1) = history (st w).
Proof.
  unfold rebuildFiltered.
  destruct (hydrateAll (RAW_RECORDS w) (ratings (st w))) as [its s'].
  by rewrite nextPair_history.
Qed.

(** Claim C8.  SKIP frame property: a SKIP vote on a current pair appends
    exactly one history entry, with outcome null, choice SKIP and kMult
    0.0, and leaves the rating record of every item unchanged (records
    that exist stay as they are; a record created by the re-hydration
    reads as the default it already stood for). *)
Theorem vote_skip_frame (now : string) (w : app) (g : rng) (A B : item) :
  currentPair w = Some (A, B) ->
  let w' := (vote now "SKIP" w g).1 in
  history (st w') =
    history (st w) ++
      [Entry.mk (JStr (Item.id A)) (JStr (Item.id B)) None "SKIP" 0.0 false
                (JStr now)] /\
  (forall id, obj (ratings (st w')) id = obj (ratings (st w)) id) /\
  (forall id r, ratings (st w) !! id = Some r ->
                ratings (st w') !! id = Some r).
Proof.
  intros Hcur w'. unfold w', vote. rewrite Hcur. simpl.
  split; [|split].
  - by rewrite rebuildFiltered_history.
  - intros id. by rewrite rebuildFiltered_obj.
  - intros id r H. by apply rebuildFiltered_lookup_Some.
Qed.

(** ** Joint votes *)

Lemma vote_joint_lookup (now choice : string) (dir k : R) (w : app) (g : rng)
    (A B : item) :
  currentPair w = Some (A, B) ->
  Item.id A <> Item.id B ->
  (choice = "BOTH" /\ dir = 1%R /\ k = 0.8%R) \/
  (choice = "NEITHER" /\ dir = (-1)%R /\ k = 1.2%R) ->
  let w' := (vote now choice w g).1 in
  let adj (r : rating) := set_ties (ties r + 1) (jointAdjust dir k r) in
  ratings (st w') !! Item.id A = Some (adj (obj (ratings (st w)) (Item.id A))) /\
  ratings (st w') !! Item.id B = Some (adj (obj (ratings (st w)) (Item.id B))) /\
  history (st w') =
    history (st w) ++
      [Entry.mk (JStr (Item.id A)) (JStr (Item.id B)) (Some 0.5%R) choice k
                false (JStr now)].
Proof.
  intros Hcur Hne Hc w' adj.
  set (s0 := ratings (st w)).
  assert (HA : getRating (Item.id B) (getRating (Item.id A) s0) !! Item.id A
               = Some (obj s0 (Item.id A))).
  { rewrite getRating_lookup_ne by congruence. apply getRating_lookup. }
  assert (HB : getRating (Item.id B) (getRating (Item.id A) s0) !! Item.id B
               = Some (obj s0 (Item.id B))).
  { rewrite getRating_lookup. by rewrite getRating_obj. }
  unfold w', vote. rewrite Hcur.
  destruct Hc as [(-> & -> & ->)|(-> & -> & ->)]; simpl;
    (split; [|split]);
    try (apply rebuildFiltered_lookup_Some; simpl; fold s0;
         unfold applyOutcomeCounters, applyJointAdjustment;
         destruct (Req_dec_T 0.5 1.0); [lra|];
         destruct (Req_dec_T 0.5 0.0); [lra|];
         by simplify_map_eq);
    by rewrite rebuildFiltered_history.
Qed.

(** ** The sigma floor *)

Lemma floored_default : floored default_rating.
Proof. unfold floored, default_rating, MIN_SIGMA, DEFAULT_SIGMA. simpl. lra. Qed.

Lemma updatePair_floored (A B : string) (o : R) (k : option R) (s : store)
    (c : string) :
  floored (obj s c) -> floored (obj (updatePair A B o k s) c).
Proof.
  intros H. unfold updatePair.
  repeat (apply obj_alter_preserves;
          [intros r Hr; unfold floored in *; simpl; auto using Rmax_l|]).
  exact H.
Qed.

Lemma jointAdjust_floored (d k : R) (r : rating) : floored (jointAdjust d k r).
Proof. unfold floored, jointAdjust. simpl. apply Rmax_l. Qed.

Lemma applyJointAdjustment_floored (a : string) (d k : R) (s : store)
    (c : string) :
  floored (obj s c) -> floored (obj (applyJointAdjustment a d k s) c).
Proof.
  intros H. unfold applyJointAdjustment.
  apply obj_alter_preserves; [|done].
  intros r _. apply jointAdjust_floored.
Qed.

(** Claim C5.  Sigma floor: an item whose sigma is at least MIN_SIGMA keeps
    a sigma of at least MIN_SIGMA through any sequence of pairwise
    updates and joint adjustments, whatever the outcomes, the base
    learning rates, the multipliers and the records they touch. *)
Theorem sigma_floor_invariant (ops : list ratingOp) (s : store) (k : string) :
  (MIN_SIGMA <= sigma (obj s k))%R ->
  (MIN_SIGMA <= sigma (obj (fold_left applyOp ops s) k))%R.
Proof.
  revert s. induction ops as [|op ops IH]; intros s H; [done|].
  simpl. apply IH. destruct op; simpl.
  - by apply updatePair_floored.
  - by apply applyJointAdjustment_floored.
Qed.

(** ** The pairwise update as an exchange *)

(** Claim C7, as amended.  Zero-sum Elo property: for a standard update
    with outcome 1.0 on two distinct records with equal effective
    learning rates (K_A = K_B) and a base rate that is not negative, the
    increment of mu_A is d = K_A * (1 - p_A), which is not negative, and
    the increment of mu_B is -d: mu_A does not decrease, mu_B does not
    increase, and the two move by the same amount. *)
Theorem zero_sum_update (A B : string) (baseK : option R) (s : store) :
  A <> B -> is_Some (s !! A) -> is_Some (s !! B) ->
  effK baseK (obj s A) = effK baseK (obj s B) ->
  (0 <= default 32 baseK)%R ->
  let s' := updatePair A B 1.0 baseK s in
  let d := (effK baseK (obj s A)
            * (1 - logistic (mu (obj s A) - mu (obj s B))))%R in
  (0 <= d)%R /\
  mu (obj s' A) = (mu (obj s A) + d)%R /\
  mu (obj s' B) = (mu (obj s B) - d)%R /\
  (mu (obj s A) <= mu (obj s' A))%R /\
  (mu (obj s' B) <= mu (obj s B))%R.
Proof.
  intros Hne [ra HA] [rb HB] HK Hpos s' d. subst s' d.
  rewrite (obj_lookup _ _ _ HA), (obj_lookup _ _ _ HB) in *.
  rewrite (obj_lookup _ _ _ (updatePair_A A B _ _ s ra rb Hne HA HB)).
  rewrite (obj_lookup _ _ _ (updatePair_B A B _ _ s ra rb Hne HA HB)).
  simpl.
  pose proof (logistic_range (mu ra - mu rb)) as Hp.
  assert (HKpos : (0 <= effK baseK ra)%R).
  { unfold effK. apply Rmult_le_pos; [done|].
    pose proof (clamp_bounds (sigma ra / DEFAULT_SIGMA) 0.6 1.8). lra. }
  rewrite <- HK.
  assert (Hd : (0 <= effK baseK ra * (1 - logistic (mu ra - mu rb)))%R)
    by (apply Rmult_le_pos; lra).
  repeat split; lra.
Qed.

(** Claim C7 as stated fails at a zero base rate, which [updatePair]
    receives from the replay of a stored entry whose [kMult] is 0: the
    two rates are equal (both 0), the outcome is 1.0, and neither mu
    moves. *)
Lemma zero_rate_counterexample :
  let s' := updatePair "X" "Y" 1.0 (Some 0%R) fresh_pair in
  effK (Some 0%R) (obj fresh_pair "X") = effK (Some 0%R) (obj fresh_pair "Y") /\
  mu (obj s' "X") = mu (obj fresh_pair "X") /\
  mu (obj s' "Y") = mu (obj fresh_pair "Y") /\
  ~ (mu (obj fresh_pair "X") < mu (obj s' "X"))%R.
Proof.
  intros s'.
  assert (HX : fresh_pair !! "X" = Some default_rating) by reflexivity.
  assert (HY : fresh_pair !! "Y" = Some default_rating) by reflexivity.
  assert (Hne : "X" <> "Y") by discriminate.
  assert (H1 : mu (obj s' "X") = mu (obj fresh_pair "X")).
  { unfold s'.
    rewrite (obj_lookup _ _ _ (updatePair_A "X" "Y" _ _ _ _ _ Hne HX HY)).
    rewrite (obj_lookup _ _ _ HX). unfold effK. simpl. lra. }
  assert (H2 : mu (obj s' "Y") = mu (obj fresh_pair "Y")).
  { unfold s'.
    rewrite (obj_lookup _ _ _ (updatePair_B "X" "Y" _ _ _ _ _ Hne HX HY)).
    rewrite (obj_lookup _ _ _ HY). unfold effK. simpl. lra. }
  split; [reflexivity|]. split; [exact H1|]. split; [exact H2|].
  rewrite H1. lra.
Qed.

(** ** The joint adjustment *)

(** Claim C6.  Joint adjustment: for a BOTH (direction +1, kMult 0.8) or
    NEITHER (direction -1, kMult 1.2) vote, the mu of each of the two
    items moves by direction * (BASE_K * kMult * clamp(sigma /
    DEFAULT_SIGMA, 0.6, 1.8)) * 0.45, each sigma decays by SIGMA_DECAY *
    0.99 with the floor MIN_SIGMA, and each n grows by 1; a BOTH vote on
    two default items brings each mu to 1511.52 and each sigma to
    350 * 0.93 * 0.99. *)
Theorem joint_adjustment_postcondition (now choice : string) (dir k : R)
    (w : app) (g : rng) (A B : item) :
  currentPair w = Some (A, B) ->
  Item.id A <> Item.id B ->
  (choice = "BOTH" /\ dir = 1%R /\ k = 0.8%R) \/
  (choice = "NEITHER" /\ dir = (-1)%R /\ k = 1.2%R) ->
  let s := ratings (st w) in
  let s' := ratings (st (vote now choice w g).1) in
  (forall r : rating,
     mu (jointAdjust dir k r) =
       (mu r + dir * (BASE_K * k * clamp (sigma r / DEFAULT_SIGMA) 0.6 1.8)
               * 0.45)%R /\
     sigma (jointAdjust dir k r) =
       Rmax MIN_SIGMA (sigma r * (SIGMA_DECAY * 0.99)) /\
     n (jointAdjust dir k r) = (n r + 1)%Z) /\
  (forall X, X = A \/ X = B ->
     mu (obj s' (Item.id X)) = mu (jointAdjust dir k (obj s (Item.id X))) /\
     sigma (obj s' (Item.id X)) = sigma (jointAdjust dir k (obj s (Item.id X))) /\
     n (obj s' (Item.id X)) = (n (obj s (Item.id X)) + 1)%Z) /\
  (choice = "BOTH" ->
   forall X, X = A \/ X = B ->
     obj s (Item.id X) = default_rating ->
     mu (obj s' (Item.id X)) = 1511.52%R /\
     sigma (obj s' (Item.id X)) = (350 * 0.93 * 0.99)%R).
Proof.
  intros Hcur Hne Hc s s'.
  destruct (vote_joint_lookup now choice dir k w g A B Hcur Hne Hc)
    as (HA & HB & _).
  assert (Hform : forall r : rating,
     mu (jointAdjust dir k r) =
       (mu r + dir * (BASE_K * k * clamp (sigma r / DEFAULT_SIGMA) 0.6 1.8)
               * 0.45)%R /\
     sigma (jointAdjust dir k r) =
       Rmax MIN_SIGMA (sigma r * (SIGMA_DECAY * 0.99)) /\
     n (jointAdjust dir k r) = (n r + 1)%Z).
  { intros r. unfold jointAdjust, JOINT_FEEDBACK_SCALE. simpl.
    repeat split; try done. f_equal. lra. }
  assert (Hvote : forall X, X = A \/ X = B ->
     obj s' (Item.id X) =
       set_ties (ties (obj s (Item.id X)) + 1)
                (jointAdjust dir k (obj s (Item.id X)))).
  { intros X [->| ->]; by apply obj_lookup. }
  split; [exact Hform|]. split.
  - intros X HX. rewrite (Hvote X HX). simpl. done.
  - intros HBoth X HX Hdef.
    destruct Hc as [(_ & -> & ->)|(Hn & _)]; [|congruence].
    rewrite (Hvote X HX), Hdef. simpl.
    rewrite clamp_one.
    unfold DEFAULT_MU, BASE_K, JOINT_FEEDBACK_SCALE, DEFAULT_SIGMA,
      SIGMA_DECAY, MIN_SIGMA, Rmax.
    destruct (Rle_dec _ _); [|lra].
    split; lra.
Qed.

(** Claim C10.  A NEITHER vote records an entry with outcome 0.5 and
    kMult 1.2, adds 1 to the ties counter of both items, leaves their
    wins and losses counters unchanged, and lowers both mus. *)
Theorem vote_neither_counters (now : string) (w : app) (g : rng)
    (A B : item) :
  currentPair w = Some (A, B) ->
  Item.id A <> Item.id B ->
  let s := ratings (st w) in
  let w' := (vote now "NEITHER" w g).1 in
  let s' := ratings (st w') in
  history (st w') =
    history (st w) ++
      [Entry.mk (JStr (Item.id A)) (JStr (Item.id B)) (Some 0.5%R) "NEITHER"
                1.2 false (JStr now)] /\
  forall X, X = A \/ X = B ->
    ties (obj s' (Item.id X)) = (ties (obj s (Item.id X)) + 1)%Z /\
    wins (obj s' (Item.id X)) = wins (obj s (Item.id X)) /\
    losses (obj s' (Item.id X)) = losses (obj s (Item.id X)) /\
    (mu (obj s' (Item.id X)) < mu (obj s (Item.id X)))%R.
Proof.
  intros Hcur Hne s w' s'.
  destruct (vote_joint_lookup now "NEITHER" (-1) 1.2 w g A B Hcur Hne)
    as (HA & HB & HH); [right; done|].
  split; [exact HH|].
  assert (Hvote : forall X, X = A \/ X = B ->
     obj s' (Item.id X) =
       set_ties (ties (obj s (Item.id X)) + 1)
                (jointAdjust (-1) 1.2 (obj s (Item.id X)))).
  { intros X [->| ->]; by apply obj_lookup. }
  intros X HX. rewrite (Hvote X HX). simpl. repeat split; try done.
  pose proof (clamp_bounds (sigma (obj s (Item.id X)) / DEFAULT_SIGMA) 0.6 1.8).
  unfold BASE_K, JOINT_FEEDBACK_SCALE. nra.
Qed.

(** ** History normalization *)

Lemma is_number_Some (y v : R) :
  is_number (Some y) v = if Req_dec_T y v then true else false.
Proof. reflexivity. Qed.

Lemma normalize_fields (now : string) (h : jsval) (e : entry) :
  normalizeHistoryEntry now h = Some e ->
  Entry.a e = get h "a" /\ Entry.b e = get h "b" /\
  Entry.outcome e = stored_outcome h /\
  (nullish (get h "outcome") = true \/
   truthy (get h "a") = true /\ truthy (get h "b") = true).
Proof.
  unfold normalizeHistoryEntry, stored_outcome.
  destruct (negb (truthy h) || negb (typeof_object h)); [discriminate|].
  destruct (nullish (get h "outcome")) eqn:Hn; simpl.
  - intros [= <-]. simpl. repeat split; auto.
  - destruct (truthy (get h "a")), (truthy (get h "b")); simpl;
      try discriminate.
    intros [= <-]. simpl. repeat split; auto.
Qed.

Lemma normalize_choice (now : string) (h : jsval) (e : entry) :
  normalizeHistoryEntry now h = Some e ->
  choice_missing h ->
  Entry.choice e =
    if is_number (stored_outcome h) 1.0 then "A"
    else if is_number (stored_outcome h) 0.0 then "B"
    else if is_number (stored_outcome h) 0.5 then "BOTH"
    else "SKIP".
Proof.
  unfold normalizeHistoryEntry, stored_outcome, choice_missing.
  destruct (negb (truthy h) || negb (typeof_object h)); [discriminate|].
  destruct (_ && _); [discriminate|].
  intros [= <-] Hm. simpl.
  destruct (get h "choice"); try done. subst s. done.
Qed.

Lemma normalize_kMult (now : string) (h : jsval) (e : entry) :
  normalizeHistoryEntry now h = Some e ->
  kMult_missing h ->
  Entry.kMult e =
    if is_number (stored_outcome h) 1.0 || is_number (stored_outcome h) 0.0
    then 1.0%R
    else if is_number (stored_outcome h) 0.5 then 0.75%R
    else 0.0%R.
Proof.
  unfold normalizeHistoryEntry, stored_outcome, kMult_missing.
  destruct (negb (truthy h) || negb (typeof_object h)); [discriminate|].
  destruct (_ && _); [discriminate|].
  intros [= <-] Hm. simpl.
  destruct (get h "kMult"); done.
Qed.

Lemma normalize_neither (now : string) (h : jsval) (e : entry) :
  normalizeHistoryEntry now h = Some e ->
  Entry.choice e = "NEITHER" ->
  Entry.neitherPenaltyApplied e = true.
Proof.
  unfold normalizeHistoryEntry.
  destruct (negb (truthy h) || negb (typeof_object h)); [discriminate|].
  destruct (_ && _); [discriminate|].
  intros [= <-]. simpl. intros ->. done.
Qed.

Lemma normalize_dropped (now : string) (h : jsval) :
  nullish (get h "outcome") = false ->
  truthy (get h "a") = false \/ truthy (get h "b") = false ->
  normalizeHistoryEntry now h = None.
Proof.
  intros Hn Hab. unfold normalizeHistoryEntry.
  destruct (negb (truthy h) || negb (typeof_object h)); [done|].
  rewrite Hn. destruct Hab as [-> | ->]; simpl; [done|].
  by rewrite orb_true_r.
Qed.

Lemma normalize_survives (now : string) (fields : list (string * jsval)) :
  let h := JObj fields in
  nullish (get h "outcome") = true \/
  truthy (get h "a") = true /\ truthy (get h "b") = true ->
  is_Some (normalizeHistoryEntry now h).
Proof.
  intros h H. unfold normalizeHistoryEntry.
  replace (negb (truthy h) || negb (typeof_object h)) with false by done.
  destruct H as [-> | [-> ->]]; simpl; eauto.
  rewrite andb_false_r. eauto.
Qed.

Lemma elem_of_omap_imap {A B} (f : nat -> A -> option B) (l : list A) (y : B) :
  y ∈ omap (fun o => o) (imap f l) <-> exists i v, l !! i = Some v /\ f i v = Some y.
Proof.
  rewrite list_elem_of_omap. split.
  - intros (o & Ho & Hy). apply list_elem_of_lookup in Ho as [i Hi].
    rewrite list_lookup_imap in Hi.
    destruct (l !! i) as [v|] eqn:E; simpl in Hi; [|discriminate].
    exists i, v. split; [done|]. congruence.
  - intros (i & v & Hv & Hf). exists (Some y). split; [|done].
    apply list_elem_of_lookup. exists i. rewrite list_lookup_imap, Hv. simpl.
    by rewrite Hf.
Qed.

Lemma normalize_None (now : string) (h : jsval) :
  normalizeHistoryEntry now h = None <->
  truthy h = false \/ typeof_object h = false \/
  (nullish (get h "outcome") = false /\
   (truthy (get h "a") = false \/ truthy (get h "b") = false)).
Proof.
  unfold normalizeHistoryEntry.
  destruct (truthy h), (typeof_object h); simpl;
    try (split; [intros _; auto|done]).
  destruct (nullish (get h "outcome")), (truthy (get h "a")),
    (truthy (get h "b")); simpl;
    (split;
     [first [discriminate
            | intros _; right; right; split; [reflexivity|auto]]
     |first [intros _; reflexivity
            | intros [H|[H|[H1 [H2|H2]]]]; discriminate]]).
Qed.

(** Claim C9.  History normalization: exactly the stored elements that
    are no object, or that have a non-null outcome and a missing [a] or
    [b], are dropped, so the normalized history holds exactly the
    normalized images of the other elements; every other element
    survives with its ids and its numeric outcome, a missing choice
    backfilled from the outcome as 1.0 -> A, 0.0 -> B, 0.5 -> BOTH,
    null -> SKIP and a missing kMult as 1.0, 1.0, 0.75, 0.0; every
    surviving entry with a non-null outcome has both ids. *)
Theorem history_normalization (now : string) (clock : nat -> string)
    (raw : jsval) (hs : list jsval) (h : jsval) (l : list entry) :
  get raw "history" = JArr hs ->
  normalizeState_history clock raw = Some l ->
  (* dropped *)
  (normalizeHistoryEntry now h = None <->
     truthy h = false \/ typeof_object h = false \/
     (nullish (get h "outcome") = false /\
      (truthy (get h "a") = false \/ truthy (get h "b") = false))) /\
  (forall e, e ∈ l <->
     exists i v, hs !! i = Some v /\ normalizeHistoryEntry (clock i) v = Some e) /\
  (* kept and backfilled *)
  (truthy h = true -> typeof_object h = true ->
   nullish (get h "outcome") = true \/
   truthy (get h "a") = true /\ truthy (get h "b") = true ->
   exists e,
     normalizeHistoryEntry now h = Some e /\
     Entry.a e = get h "a" /\ Entry.b e = get h "b" /\
     Entry.outcome e = stored_outcome h /\
     (choice_missing h ->
        (stored_outcome h = Some 1.0%R -> Entry.choice e = "A") /\
        (stored_outcome h = Some 0.0%R -> Entry.choice e = "B") /\
        (stored_outcome h = Some 0.5%R -> Entry.choice e = "BOTH") /\
        (stored_outcome h = None -> Entry.choice e = "SKIP")) /\
     (kMult_missing h ->
        (stored_outcome h = Some 1.0%R -> Entry.kMult e = 1.0%R) /\
        (stored_outcome h = Some 0.0%R -> Entry.kMult e = 1.0%R) /\
        (stored_outcome h = Some 0.5%R -> Entry.kMult e = 0.75%R) /\
        (stored_outcome h = None -> Entry.kMult e = 0.0%R))) /\
  (* survivors *)
  (forall e, e ∈ l -> Entry.outcome e <> None ->
     truthy (Entry.a e) = true /\ truthy (Entry.b e) = true).
Proof.
  intros Hhist Hnorm.
  assert (Hl : l = omap (fun o => o)
                 (imap (fun i v => normalizeHistoryEntry (clock i) v) hs)).
  { unfold normalizeState_history in Hnorm.
    destruct (_ || _); [discriminate|]. rewrite Hhist in Hnorm. congruence. }
  split; [apply normalize_None|].
  split; [intros e; rewrite Hl; apply elem_of_omap_imap|].
  split.
  - intros Ht Hobj Hab.
    destruct (normalizeHistoryEntry now h) as [e|] eqn:He.
    2:{ exfalso. apply normalize_None in He.
        destruct He as [He|[He|[He1 He2]]]; [congruence|congruence|].
        destruct Hab as [Hab|[Ha Hb]]; [congruence|].
        destruct He2; congruence. }
    exists e. split; [done|].
    destruct (normalize_fields _ _ _ He) as (Ha & Hb & Ho & _).
    split; [done|]. split; [done|]. split; [done|]. split.
    + intros Hm. rewrite (normalize_choice _ _ _ He Hm).
      repeat split; intros ->; rewrite ?is_number_Some; simpl;
        repeat (destruct (Req_dec_T _ _); try lra); done.
    + intros Hm. rewrite (normalize_kMult _ _ _ He Hm).
      repeat split; intros ->; rewrite ?is_number_Some; simpl;
        repeat (destruct (Req_dec_T _ _); simpl; try lra); done.
  - intros e He Hout. rewrite Hl in He.
    apply elem_of_omap_imap in He as (i & v & _ & Hv).
    destruct (normalize_fields _ _ _ Hv) as (Ha & Hb & Ho & Hab).
    rewrite Ha, Hb. destruct Hab as [Hn|Hab]; [|done].
    exfalso. apply Hout. rewrite Ho. unfold stored_outcome.
    destruct (get v "outcome"); done.
Qed.

#[global] Instance veq_equiv : Equivalence veq.
Proof.
  split.
  - intros s k. reflexivity.
  - intros s1 s2 H k. symmetry. apply H.
  - intros s1 s2 s3 H1 H2 k. rewrite H1. apply H2.
Qed.

Lemma alter_veq (f : rating -> rating) (k : string) (s1 s2 : store) :
  veq s1 s2 -> is_Some (s1 !! k) -> is_Some (s2 !! k) ->
  veq (alter f k s1) (alter f k s2).
Proof.
  intros H H1 H2 k'. destruct (decide (k = k')) as [<-|Hne].
  - rewrite !obj_alter_eq by done. by rewrite H.
  - by rewrite !obj_alter_ne.
Qed.

Lemma getRating_veq (id : string) (s1 s2 : store) :
  veq s1 s2 -> veq (getRating id s1) (getRating id s2).
Proof. intros H k. by rewrite !getRating_obj. Qed.

Lemma updatePair_veq (A B : string) (o : R) (k : option R) (s1 s2 : store) :
  veq s1 s2 ->
  is_Some (s1 !! A) -> is_Some (s2 !! A) ->
  is_Some (s1 !! B) -> is_Some (s2 !! B) ->
  veq (updatePair A B o k s1) (updatePair A B o k s2).
Proof.
  intros H A1 A2 B1 B2. unfold updatePair. rewrite !(H A), !(H B).
  repeat (apply alter_veq; [|by rewrite ?alter_is_Some|by rewrite ?alter_is_Some]).
  exact H.
Qed.

Lemma applyJointAdjustment_veq (a : string) (d k : R) (s1 s2 : store) :
  veq s1 s2 -> is_Some (s1 !! a) -> is_Some (s2 !! a) ->
  veq (applyJointAdjustment a d k s1) (applyJointAdjustment a d k s2).
Proof. intros. by apply alter_veq. Qed.

Lemma applyJointAdjustment_is_Some (a : string) (d k : R) (s : store) (c : string) :
  is_Some (applyJointAdjustment a d k s !! c) <-> is_Some (s !! c).
Proof. apply alter_is_Some. Qed.

Lemma applyOutcomeCounters_veq (A B : string) (o : R) (s1 s2 : store) :
  veq s1 s2 ->
  is_Some (s1 !! A) -> is_Some (s2 !! A) ->
  is_Some (s1 !! B) -> is_Some (s2 !! B) ->
  veq (applyOutcomeCounters A B o s1) (applyOutcomeCounters A B o s2).
Proof.
  intros H A1 A2 B1 B2. unfold applyOutcomeCounters.
  repeat destruct (Req_dec_T _ _);
    repeat (apply alter_veq; [|by rewrite ?alter_is_Some|by rewrite ?alter_is_Some]);
    exact H.
Qed.

(** ** Replay *)
Section ReplayFacts.
Variable nts : R -> string.

Lemma replayEntry_ratings (t : state) (h : entry) :
  ratings (replayEntry nts t h) = entryStep nts h (ratings t).
Proof.
  unfold entryStep, replayEntry. destruct (Entry.outcome h); reflexivity.
Qed.

Lemma replayEntry_history (t : state) (h : entry) :
  history (replayEntry nts t h) = history t ++ [h].
Proof. unfold replayEntry. destruct (Entry.outcome h); reflexivity. Qed.

Lemma entryStep_veq (h : entry) (s1 s2 : store) :
  veq s1 s2 -> veq (entryStep nts h s1) (entryStep nts h s2).
Proof.
  intros H. unfold entryStep, replayEntry.
  destruct (Entry.outcome h) as [o|]; simpl; [|done].
  set (A := ToString nts (Entry.a h)). set (B := ToString nts (Entry.b h)).
  set (u1 := getRating B (getRating A s1)).
  set (u2 := getRating B (getRating A s2)).
  assert (Hu : veq u1 u2) by (by do 2 apply getRating_veq).
  assert (A1 : is_Some (u1 !! A)) by apply getRating_keeps, getRating_is_Some.
  assert (A2 : is_Some (u2 !! A)) by apply getRating_keeps, getRating_is_Some.
  assert (B1 : is_Some (u1 !! B)) by apply getRating_is_Some.
  assert (B2 : is_Some (u2 !! B)) by apply getRating_is_Some.
  assert (HJ : forall d, veq
      (applyJointAdjustment B d (Entry.kMult h)
         (applyJointAdjustment A d (Entry.kMult h) u1))
      (applyJointAdjustment B d (Entry.kMult h)
         (applyJointAdjustment A d (Entry.kMult h) u2))).
  { intros d. apply applyJointAdjustment_veq;
      rewrite ?applyJointAdjustment_is_Some; try done.
    by apply applyJointAdjustment_veq. }
  assert (HP : veq
      (updatePair A B o (Some (BASE_K * Entry.kMult h)%R) u1)
      (updatePair A B o (Some (BASE_K * Entry.kMult h)%R) u2))
    by (by apply updatePair_veq).
  apply applyOutcomeCounters_veq;
    repeat destruct (String.eqb _ _);
    try destruct (Entry.neitherPenaltyApplied h);
    rewrite ?alter_is_Some, ?applyJointAdjustment_is_Some,
      ?updatePair_is_Some; try done.
  do 2 (apply alter_veq;
        rewrite ?alter_is_Some, ?updatePair_is_Some; try done).
Qed.

Lemma fold_replayEntry_ratings (hs : list entry) (t : state) :
  ratings (fold_left (replayEntry nts) hs t)
  = fold_left (fun s h => entryStep nts h s) hs (ratings t).
Proof.
  revert t. induction hs as [|h hs IH]; intros t; [done|].
  simpl. by rewrite IH, replayEntry_ratings.
Qed.

Lemma fold_replayEntry_history (hs : list entry) (t : state) :
  history (fold_left (replayEntry nts) hs t) = history t ++ hs.
Proof.
  revert t. induction hs as [|h hs IH]; intros t; simpl.
  - by rewrite app_nil_r.
  - by rewrite IH, replayEntry_history, <- app_assoc.
Qed.

Lemma replay_ratings (hs : list entry) (t : state) :
  ratings (replay nts hs t) = replayed nts hs.
Proof. unfold replay. by rewrite fold_replayEntry_ratings. Qed.

Lemma replay_history (hs : list entry) (t : state) :
  history (replay nts hs t) = hs.
Proof. unfold replay. by rewrite fold_replayEntry_history. Qed.

Lemma replayed_snoc (hs : list entry) (h : entry) :
  replayed nts (hs ++ [h]) = entryStep nts h (replayed nts hs).
Proof. unfold replayed. by rewrite fold_left_app. Qed.

Lemma nextPair_in_sync (w : app) (g : rng) :
  in_sync nts w -> in_sync nts (nextPair w g).1.
Proof.
  unfold in_sync. by rewrite nextPair_ratings, nextPair_history.
Qed.

Lemma rebuildFiltered_veq (w : app) (g : rng) :
  veq (ratings (st (rebuildFiltered w g).1)) (ratings (st w)).
Proof. intros k. apply rebuildFiltered_obj. Qed.

Lemma rebuildFiltered_in_sync (w : app) (g : rng) :
  in_sync nts w -> in_sync nts (rebuildFiltered w g).1.
Proof.
  unfold in_sync. intros H.
  rewrite rebuildFiltered_history. by rewrite rebuildFiltered_veq.
Qed.

(** What [vote] does before it re-selects: nothing, or one more entry
    whose replay step is the update it applied. *)
Lemma vote_cases (now choice : string) (w : app) (g : rng) :
  vote now choice w g = (w, g) \/
  exists (e : entry) (w1 : app),
    vote now choice w g = rebuildFiltered w1 g /\
    history (st w1) = history (st w) ++ [e] /\
    ratings (st w1) = entryStep nts e (ratings (st w)).
Proof.
  unfold vote. destruct (currentPair w) as [[A B]|]; [|by left].
  destruct (voteMap choice) as [cfg|] eqn:Hcfg; [|by left].
  right. destruct (cfg_outcome cfg) as [o|] eqn:Ho.
  - eexists _, _. split; [reflexivity|]. split; [reflexivity|].
    unfold entryStep, replayEntry. simpl.
    assert (Hflag : cfg_neitherPenaltyApplied cfg = false).
    { unfold voteMap in Hcfg.
      repeat (destruct (String.eqb choice _); [by inversion Hcfg|]).
      discriminate. }
    rewrite Hflag. reflexivity.
  - eexists _, _. split; [reflexivity|]. split; [reflexivity|].
    reflexivity.
Qed.

Lemma vote_in_sync (now choice : string) (w : app) (g : rng) :
  in_sync nts w -> in_sync nts (vote now choice w g).1.
Proof.
  intros H. destruct (vote_cases now choice w g) as [->|(e & w1 & -> & Hh & Hr)].
  - done.
  - apply rebuildFiltered_in_sync. unfold in_sync.
    rewrite Hh, Hr, replayed_snoc. by apply entryStep_veq.
Qed.

Lemma undo_in_sync (w : app) (g : rng) :
  in_sync nts w -> in_sync nts (undo nts w g).1.
Proof.
  intros H. unfold undo. destruct (_ =? _)%nat; [done|].
  apply rebuildFiltered_in_sync. unfold in_sync. simpl.
  by rewrite replay_ratings, replay_history.
Qed.

Lemma handle_in_sync (e : event) (w : app) (g : rng) :
  in_sync nts w -> in_sync nts (handle nts e w g).1.
Proof.
  intros H. destruct e; simpl.
  - by apply vote_in_sync.
  - by apply undo_in_sync.
  - by apply rebuildFiltered_in_sync.
  - by apply rebuildFiltered_in_sync.
  - by apply nextPair_in_sync.
  - by apply nextPair_in_sync.
  - by apply nextPair_in_sync.
  - by apply nextPair_in_sync.
  - done.
  - apply rebuildFiltered_in_sync. intros k. reflexivity.
Qed.

Lemma run_in_sync (es : list event) (w : app) (g : rng) :
  in_sync nts w -> in_sync nts (run nts es w g).1.
Proof.
  revert w g. induction es as [|e es IH]; intros w g H; [done|].
  simpl. rewrite rand_bind_unfold. apply IH. by apply handle_in_sync.
Qed.
End ReplayFacts.

Lemma consistent_in_sync (nts : R -> string) (w : app) :
  consistent nts w <-> in_sync nts w.
Proof.
  unfold consistent, in_sync, veq. by setoid_rewrite replay_ratings.
Qed.



(** ** The floor along the events of the application *)

Lemma applyOutcomeCounters_floored (A B : string) (o : R) (s : store)
    (c : string) :
  floored (obj s c) -> floored (obj (applyOutcomeCounters A B o s) c).
Proof.
  intros H. unfold applyOutcomeCounters.
  repeat destruct (Req_dec_T _ _);
    repeat (apply obj_alter_preserves; [by intros r Hr|]); exact H.
Qed.

Lemma entryStep_floored (nts : R -> string) (h : entry) (s : store) :
  all_floored s -> all_floored (entryStep nts h s).
Proof.
  intros H k. unfold entryStep, replayEntry.
  destruct (Entry.outcome h) as [o|]; simpl; [|apply H].
  apply applyOutcomeCounters_floored.
  assert (H0 : floored (obj (getRating (ToString nts (Entry.b h))
                               (getRating (ToString nts (Entry.a h)) s)) k))
    by (rewrite !getRating_obj; apply H).
  repeat destruct (String.eqb _ _);
    try destruct (Entry.neitherPenaltyApplied h);
    repeat first [ apply applyJointAdjustment_floored
                 | apply updatePair_floored
                 | apply obj_alter_preserves; [by intros r Hr|] ];
    exact H0.
Qed.

Lemma replayed_floored (nts : R -> string) (hs : list entry) :
  all_floored (replayed nts hs).
Proof.
  unfold replayed.
  assert (H : all_floored ∅) by (intros k; apply floored_default).
  revert H. generalize (∅ : store).
  induction hs as [|h hs IH]; intros s H; [done|].
  simpl. apply IH. by apply entryStep_floored.
Qed.

Lemma run_floored (nts : R -> string) (es : list event) (w : app) (g : rng) :
  all_floored (ratings (st w)) ->
  all_floored (ratings (st (run nts es w g).1)).
Proof.
  revert w g. induction es as [|e es IH]; intros w g H; [done|].
  simpl. rewrite rand_bind_unfold. apply IH.
  destruct e; simpl; intros k;
    rewrite ?rebuildFiltered_obj, ?nextPair_ratings; simpl; try apply H.
  - destruct (vote_cases nts now choice w g) as [->|(e & w1 & -> & _ & Hr)];
      [apply H|].
    rewrite rebuildFiltered_obj, Hr. by apply entryStep_floored.
  - unfold undo. destruct (_ =? _)%nat; [apply H|].
    rewrite rebuildFiltered_obj. simpl. rewrite replay_ratings.
    apply replayed_floored.
  - apply floored_default.
Qed.

(** ** The legacy penalty in the replay *)

Lemma applyOutcomeCounters_mu (A B : string) (o : R) (s : store) (c : string) :
  mu (obj (applyOutcomeCounters A B o s) c) = mu (obj s c).
Proof.
  unfold applyOutcomeCounters.
  repeat destruct (Req_dec_T _ _);
    repeat (apply (obj_alter_preserves (fun r => mu r = mu (obj s c)));
            [by intros r Hr|]); done.
Qed.

(** The flat penalty in the replay of [undo]: the block that takes 10
    off both items sits in the branch of the standard update, so it
    follows the flag of an entry whose choice is neither BOTH nor
    NEITHER; an entry whose choice is BOTH or NEITHER is replayed by the
    joint adjustment and its flag is not read.  Normalization sets the
    flag of every entry whose choice is NEITHER. *)
Lemma replay_flat_penalty (nts : R -> string) (now : string)
    (t : state) (h : entry) (o : R) (raw : jsval) (e : entry) :
  Entry.outcome h = Some o ->
  ToString nts (Entry.a h) <> ToString nts (Entry.b h) ->
  normalizeHistoryEntry now raw = Some e ->
  let A := ToString nts (Entry.a h) in
  let B := ToString nts (Entry.b h) in
  let s := getRating B (getRating A (ratings t)) in
  let s' := ratings (replayEntry nts t h) in
  (* standard entries: the flat penalty follows the flag *)
  (Entry.choice h <> "BOTH" -> Entry.choice h <> "NEITHER" ->
   let std := updatePair A B o (Some (BASE_K * Entry.kMult h)%R) s in
   forall X, X = A \/ X = B ->
     mu (obj s' X) =
       if Entry.neitherPenaltyApplied h then (mu (obj std X) - 10)%R
       else mu (obj std X)) /\
  (* joint entries: the flag is not read *)
  (Entry.choice h = "BOTH" \/ Entry.choice h = "NEITHER" ->
   let d := if String.eqb (Entry.choice h) "BOTH" then 1%R else (-1)%R in
   forall X, X = A \/ X = B ->
     mu (obj s' X) = mu (jointAdjust d (Entry.kMult h) (obj s X))) /\
  (* normalization *)
  (Entry.choice e = "NEITHER" -> Entry.neitherPenaltyApplied e = true) /\
  (get raw "choice" = JStr "NEITHER" -> Entry.neitherPenaltyApplied e = true).
Proof.
  intros Ho Hne Hnorm A B s s'.
  assert (HAB : A <> B) by exact Hne.
  assert (HBA : B <> A) by (intros E; apply Hne; symmetry; exact E).
  assert (HA : is_Some (s !! A)) by apply getRating_keeps, getRating_is_Some.
  assert (HB : is_Some (s !! B)) by apply getRating_is_Some.
  assert (Hs' : s' = ratings (replayEntry nts t h)) by done.
  unfold replayEntry in Hs'. rewrite Ho in Hs'. simpl in Hs'.
  fold A B s in Hs'.
  split; [|split; [|split]].
  - intros Hb Hn std X HX.
    apply String.eqb_neq in Hb. apply String.eqb_neq in Hn.
    rewrite Hb, Hn in Hs'. rewrite Hs', applyOutcomeCounters_mu.
    fold std.
    assert (SA : is_Some (std !! A)) by (by apply updatePair_is_Some).
    assert (SB : is_Some (std !! B)) by (by apply updatePair_is_Some).
    destruct (Entry.neitherPenaltyApplied h); [|done].
    destruct HX as [-> | ->].
    + rewrite obj_alter_ne by exact HBA.
      by rewrite obj_alter_eq.
    + rewrite obj_alter_eq by (by rewrite alter_is_Some).
      by rewrite obj_alter_ne.
  - intros Hc d X HX.
    assert (Hj : s' = applyOutcomeCounters A B o
                   (applyJointAdjustment B d (Entry.kMult h)
                      (applyJointAdjustment A d (Entry.kMult h) s))).
    { rewrite Hs'. unfold d. destruct Hc as [-> | ->]; done. }
    rewrite Hj, applyOutcomeCounters_mu. unfold applyJointAdjustment.
    destruct HX as [-> | ->].
    + rewrite obj_alter_ne by exact HBA. by rewrite obj_alter_eq.
    + rewrite obj_alter_eq by (by rewrite alter_is_Some).
      by rewrite obj_alter_ne.
  - by apply (normalize_neither now raw).
  - intros Hraw. apply (normalize_neither now raw); [done|].
    revert Hnorm. unfold normalizeHistoryEntry.
    destruct (negb (truthy raw) || negb (typeof_object raw)); [discriminate|].
    destruct (_ && _); [discriminate|].
    intros [= <-]. simpl. by rewrite Hraw.
Qed.

(** Claim C3 on the code.  The legacy application records a NEITHER vote
    on two fresh papers as [neither_entry], with the flag set and 10
    taken off both ratings (mu 1490), and its own undo replays the entry
    to the same 1490.  The undo of the unified application, which reads
    the same stored state, replays that entry by the joint adjustment
    alone: 1500 - 32 * 1.2 * 0.45 = 1482.72, and no further -10. *)
Lemma neither_penalty_not_reapplied :
  let nts := fun _ : R => "" in
  let w := mkApp (set_history [neither_entry; neither_entry] getDefaultState)
                 [] (fun _ => true) [] None in
  let w' := (undo nts w no_draws).1 in
  (* the legacy application *)
  Legacy.vote "t1" "NEITHER" itemX itemY getDefaultState = Some legacy_voted /\
  history legacy_voted = [neither_entry] /\
  mu (obj (ratings legacy_voted) "X") = 1490%R /\
  mu (obj (Legacy.replayed nts [neither_entry]) "X") = 1490%R /\
  (* the unified application *)
  Entry.neitherPenaltyApplied neither_entry = true /\
  history (st w') = [neither_entry] /\
  mu (obj (ratings (st w')) "X") = 1482.72%R /\
  mu (obj (ratings (st w')) "X") <> (1482.72 - 10)%R.
Proof.
  intros nts w w'.
  assert (Hlegacy : mu (obj (Legacy.replayed nts [neither_entry]) "X") = 1490%R).
  { unfold Legacy.replayed. simpl. rewrite applyOutcomeCounters_mu.
    unfold Legacy.penalize, updatePair, Legacy.getRating, obj.
    simplify_map_eq. simpl.
    replace (DEFAULT_MU - DEFAULT_MU)%R with 0%R by lra.
    rewrite logistic_zero.
    unfold DEFAULT_MU, Legacy.NEITHER_PENALTY. lra. }
  assert (Hmu : mu (obj (ratings (st w')) "X") = 1482.72%R).
  { unfold w', undo. change (history (st w)) with [neither_entry; neither_entry].
    replace ((length [neither_entry; neither_entry] =? 0)%nat) with false
      by reflexivity.
    replace (take (length [neither_entry; neither_entry] - 1)
                  [neither_entry; neither_entry])
      with [neither_entry] by reflexivity.
    rewrite rebuildFiltered_obj.
    simpl.
    unfold applyOutcomeCounters.
    destruct (Req_dec_T 0.5 1.0); [lra|].
    destruct (Req_dec_T 0.5 0.0); [lra|].
    unfold applyJointAdjustment, getRating, obj.
    simplify_map_eq. simpl.
    rewrite clamp_one.
    unfold DEFAULT_MU, BASE_K, JOINT_FEEDBACK_SCALE. lra. }
  split; [reflexivity|]. split; [reflexivity|]. split; [exact Hlegacy|].
  split; [exact Hlegacy|]. split; [reflexivity|]. split.
  - unfold w', undo. change (history (st w)) with [neither_entry; neither_entry].
    replace ((length [neither_entry; neither_entry] =? 0)%nat) with false
      by reflexivity.
    replace (take (length [neither_entry; neither_entry] - 1)
                  [neither_entry; neither_entry])
      with [neither_entry] by reflexivity.
    rewrite rebuildFiltered_history. reflexivity.
  - split; [exact Hmu|]. rewrite Hmu. lra.
Qed.

(** ** The selector *)

Lemma insert_sorted_perm {A} (cmp : A -> A -> R) (v : A) (l : list A) :
  insert_sorted cmp v l ≡ₚ v :: l.
Proof.
  induction l as [|y l IH]; simpl; [done|].
  destruct (Rlt_dec 0 (cmp v y)); [|done].
  by rewrite IH, Permutation_swap.
Qed.

Lemma sort_perm {A} (cmp : A -> A -> R) (l : list A) : sort cmp l ≡ₚ l.
Proof.
  unfold sort. induction l as [|y l IH]; simpl; [done|].
  by rewrite insert_sorted_perm, IH.
Qed.

Lemma shuffle_from_perm {A} (i : nat) (out : list A) (g : rng) :
  (shuffle_from i out g).1 ≡ₚ out.
Proof.
  revert out g. induction i as [|i IH]; intros out g; [done|].
  cbn [shuffle_from]. rewrite rand_bind_unfold. rewrite IH.
  set (j := (randInt (S i + 1) g).1).
  destruct (out !! S i) as [oi|] eqn:Ei; [|done].
  destruct (out !! j) as [oj|] eqn:Ej; [|done].
  by apply Permutation_insert_swap.
Qed.

Lemma shuffle_perm {A} (arr : list A) (g : rng) : (shuffle arr g).1 ≡ₚ arr.
Proof. apply shuffle_from_perm. Qed.

Lemma orderByMuPriority_perm (items : list item) (st : state) (g : rng) :
  (orderByMuPriority items st g).1 ≡ₚ items.
Proof.
  unfold orderByMuPriority.
  destruct (String.eqb _ "lowest"); [apply sort_perm|].
  destruct (String.eqb _ "random"); [apply shuffle_perm|apply sort_perm].
Qed.

Lemma applyWinsFilter_subseteq (items : list item) (st : state) :
  applyWinsFilter items st ⊆ items.
Proof.
  unfold applyWinsFilter. destruct (negb _); [done|].
  apply list_subseteq_filter.
Qed.

(** *** Groups *)
Section GroupFacts.
Context {K : Type} `{EqDecision K}.

Lemma group_add_in (pool : list item) (k : K) (v : item)
    (m : list (K * list item)) :
  v ∈ pool -> groups_in pool m -> groups_in pool (group_add k v m).
Proof.
  intros Hv. induction 1 as [|[k' grp] m [Hne Hsub] Hm IH]; simpl.
  - constructor; [|constructor]. simpl. split; [done|].
    intros y Hy. apply list_elem_of_singleton in Hy. by subst.
  - destruct (decide (k = k')).
    + constructor; [|done]. simpl in *. split.
      * intros E. by apply app_eq_nil in E as [_ ?].
      * intros y Hy. apply elem_of_app in Hy as [Hy|Hy]; [by apply Hsub|].
        apply list_elem_of_singleton in Hy. by subst.
    + constructor; [done|]. apply IH.
Qed.

Lemma group_fold_in (pool : list item) (key : item -> K) (l : list item)
    (m : list (K * list item)) :
  l ⊆ pool -> groups_in pool m ->
  groups_in pool (fold_left (fun m v => group_add (key v) v m) l m).
Proof.
  revert m. induction l as [|v l IH]; intros m Hl Hm; [done|].
  simpl. apply IH.
  - intros y Hy. apply Hl. by right.
  - apply group_add_in; [|done]. apply Hl. by left.
Qed.

Lemma group_by_in (key : item -> K) (items : list item) :
  groups_in items (group_by key items).
Proof. apply group_fold_in; [done|constructor]. Qed.

Lemma group_get_in (pool : list item) (k : K) (m : list (K * list item))
    (grp : list item) :
  groups_in pool m -> group_get k m = Some grp -> grp <> [] /\ grp ⊆ pool.
Proof.
  induction 1 as [|[k' g'] m H Hm IH]; simpl; [discriminate|].
  destruct (decide (k = k')); [|done]. by intros [= <-].
Qed.
End GroupFacts.

(** *** Picks *)

Lemma pickNotIn_elem (arr : list item) (banned : gset string) (v : item) :
  pickNotIn arr banned = Some v -> v ∈ arr.
Proof.
  unfold pickNotIn. intros H. apply find_some in H as [H _].
  by apply list_elem_of_In.
Qed.

Lemma pick_elem (arr : list item) (banned : gset string) (v : item) :
  orElse (pickNotIn arr banned) (head arr) = Some v -> v ∈ arr.
Proof.
  unfold orElse. destruct (pickNotIn arr banned) eqn:E.
  - intros [= <-]. by apply pickNotIn_elem in E.
  - apply head_Some_elem_of.
Qed.

Lemma pick_is_Some (arr : list item) (banned : gset string) :
  arr <> [] -> is_Some (orElse (pickNotIn arr banned) (head arr)).
Proof.
  intros H. unfold orElse. destruct (pickNotIn arr banned); [eauto|].
  destruct arr; [done|]. simpl. eauto.
Qed.

Lemma selectGroupByN_spec (items : list item) (st : state) (g : rng) :
  (selectGroupByN items st g).1 ⊆ items /\
  (items <> [] -> (selectGroupByN items st g).1 <> []).
Proof.
  unfold selectGroupByN. destruct (_ <=? _)%nat; [done|].
  rewrite rand_bind_unfold.
  match goal with |- context [default items ?o] => destruct o as [grp|] eqn:E end;
    simpl; [|done].
  apply bind_Some in E as (k & _ & E).
  apply (group_get_in items) in E as [Hne Hsub]; [done|apply group_by_in].
Qed.

Lemma second_pick_valid (arr : list item) (banned : gset string)
    (f v : item) :
  orElse (pickNotIn (filter (fun y => Item.id y <> Item.id f) arr) banned)
         (head (filter (fun y => Item.id y <> Item.id f) arr)) = Some v ->
  v ∈ arr /\ Item.id v <> Item.id f.
Proof.
  intros H. apply pick_elem in H. apply list_elem_of_filter in H. tauto.
Qed.

Lemma pickTwoFromPool_valid (pool : list item) (lastIds : gset string)
    (st : state) (g : rng) (p : item * item) :
  (pickTwoFromPool pool lastIds st g).1 = Some p -> valid_pair pool p.
Proof.
  unfold pickTwoFromPool. rewrite rand_bind_unfold.
  destruct (selectGroupByN_spec pool st g) as [Hsub _].
  set (cands := (selectGroupByN pool st g).1) in *.
  destruct (orElse (pickNotIn cands lastIds) (head cands)) as [f|] eqn:Ef;
    [|discriminate].
  destruct (_ =? 0)%nat; [discriminate|].
  destruct (orElse (pickNotIn (filter _ cands) lastIds) _) as [v|] eqn:Ev;
    [|discriminate].
  intros [= <-]. apply pick_elem in Ef. apply second_pick_valid in Ev as [Hv Hne].
  repeat split; simpl; auto.
Qed.

Lemma tieLoop_valid (pool : list item) (tiedGroups : list (R * list item))
    (st : state) (lastIds : gset string) (strategy : string) (g : rng)
    (p : item * item) :
  Forall (fun e => e.2 ⊆ pool) tiedGroups ->
  (tieLoop tiedGroups st lastIds strategy g).1 = Some p -> valid_pair pool p.
Proof.
  intros H. revert g. induction H as [|[m grp] rest Hgrp Hrest IH]; intros g;
    [discriminate|].
  cbn [tieLoop]. simpl in Hgrp.
  set (candidatePool := applyWinsFilter grp st).
  assert (Hcand : candidatePool ⊆ pool).
  { etrans; [apply applyWinsFilter_subseteq|done]. }
  rewrite rand_bind_unfold.
  match goal with |- context [(?m g).1] => set (primary := (m g).1);
                                           set (g1 := (m g).2) end.
  assert (Hprim : forall q, primary = Some q -> valid_pair pool q).
  { unfold primary. destruct (0 <? _)%nat; [|intros q Hq; unfold mret, rand_ret in Hq; simpl in Hq; discriminate].
    rewrite rand_bind_unfold.
    match goal with |- context [default [] ?o] =>
      destruct o as [sel|] eqn:Esel end;
      [change (default [] (Some sel)) with sel|].
    - apply bind_Some in Esel as (k & _ & Esel).
      apply (group_get_in candidatePool) in Esel as [_ Hsel];
        [|apply group_by_in].
      destruct (orElse (pickNotIn sel lastIds) (head sel)) as [f|] eqn:Ef;
        [|intros q Hq; unfold mret, rand_ret in Hq; simpl in Hq; discriminate].
      destruct (orElse (pickNotIn (filter _ sel) lastIds) _) as [v|] eqn:Ev;
        [|intros q Hq; unfold mret, rand_ret in Hq; simpl in Hq; discriminate].
      intros q [= <-]. apply pick_elem in Ef.
      apply second_pick_valid in Ev as [Hv Hne].
      repeat split; simpl; auto.
    - intros q Hq; unfold mret, rand_ret in Hq; simpl in Hq; discriminate. }
  destruct primary as [q|]; [intros [= <-]; by apply Hprim|].
  rewrite rand_bind_unfold.
  destruct (pickTwoFromPool candidatePool lastIds st g1).1 as [q|] eqn:Efb.
  - intros [= <-]. apply pickTwoFromPool_valid in Efb as (H1 & H2 & H3).
    repeat split; auto.
  - apply IH.
Qed.

Lemma chooseTieResolutionPair_valid (items : list item) (st : state)
    (lastIds : gset string) (g : rng) (p : item * item) :
  (chooseTieResolutionPair items st lastIds g).1 = Some p ->
  valid_pair items p.
Proof.
  unfold chooseTieResolutionPair.
  match goal with |- context [filter ?P (map ?f ?l)] =>
    set (tied0 := filter P (map f l)) end.
  rewrite rand_bind_unfold.
  match goal with |- context [(?m g).1] => set (tied := (m g).1);
                                           set (g1 := (m g).2) end.
  assert (H0 : Forall (fun e : R * list item => e.2 ⊆ items) tied0).
  { apply Forall_forall. intros e He. unfold tied0 in He.
    apply list_elem_of_filter in He as [_ He].
    apply list_elem_of_In, in_map_iff in He as ([k grp] & <- & Hin).
    simpl. pose proof (group_by_in (fun it => toFixed6 (Item.mu it)) items) as Hg.
    unfold groups_in in Hg. rewrite Forall_forall in Hg.
    apply list_elem_of_In in Hin. apply Hg in Hin. simpl in Hin. tauto. }
  assert (Hperm : tied ≡ₚ tied0).
  { unfold tied. destruct (String.eqb _ "lowest"); [apply sort_perm|].
    destruct (String.eqb _ "random"); [apply shuffle_perm|apply sort_perm]. }
  destruct (_ =? 0)%nat; [discriminate|].
  apply tieLoop_valid. by rewrite Hperm.
Qed.

Lemma valid_pair_mono (pool pool' : list item) (p : item * item) :
  pool ⊆ pool' -> valid_pair pool p -> valid_pair pool' p.
Proof. intros H (H1 & H2 & H3). repeat split; auto. Qed.

(** The opponents offered to [A]: members of the pool with another id. *)
Lemma opponents_elem (prioritized : list item) (A v : item) (k : nat)
    (P : candidate -> Prop) `{!forall c, Decision (P c)} :
  let candidates :=
    sort candidate_order
      (map (fun y => mkCandidate y (Rabs (Item.mu y - Item.mu A)) (Item.sigma y))
           (filter (fun y => Item.id y <> Item.id A) prioritized)) in
  let diverse := filter P candidates in
  let poolB := take k (if (0 <? length diverse)%nat then diverse else candidates) in
  v ∈ map x poolB -> v ∈ prioritized /\ Item.id v <> Item.id A.
Proof.
  intros candidates diverse poolB Hv.
  apply list_elem_of_In, in_map_iff in Hv as (c & <- & Hc).
  apply list_elem_of_In in Hc.
  assert (Hc' : c ∈ candidates).
  { unfold poolB in Hc. apply subseteq_take in Hc.
    destruct (0 <? _)%nat; [|done].
    by apply list_elem_of_filter in Hc as [_ ?]. }
  unfold candidates in Hc'. rewrite sort_perm in Hc'.
  apply list_elem_of_In, in_map_iff in Hc' as (y & <- & Hy).
  apply list_elem_of_In, list_elem_of_filter in Hy as [Hne Hy]. done.
Qed.

Lemma opponents_nonempty (prioritized : list item) (A : item) (k : nat)
    (P : candidate -> Prop) `{!forall c, Decision (P c)} :
  let candidates :=
    sort candidate_order
      (map (fun y => mkCandidate y (Rabs (Item.mu y - Item.mu A)) (Item.sigma y))
           (filter (fun y => Item.id y <> Item.id A) prioritized)) in
  let diverse := filter P candidates in
  let poolB := take k (if (0 <? length diverse)%nat then diverse else candidates) in
  (0 < k)%nat ->
  (exists y, y ∈ prioritized /\ Item.id y <> Item.id A) ->
  map x poolB <> [].
Proof.
  intros candidates diverse poolB Hk (y & Hy & Hne).
  assert (Hcand : candidates <> []).
  { intros E. assert (Hin : mkCandidate y (Rabs (Item.mu y - Item.mu A)) (Item.sigma y) ∈ candidates).
    { unfold candidates. rewrite sort_perm. apply list_elem_of_In, in_map_iff.
      exists y. split; [done|].
      apply list_elem_of_In, list_elem_of_filter. done. }
    rewrite E in Hin. by apply not_elem_of_nil in Hin. }
  assert (Hsrc : (if (0 <? length diverse)%nat then diverse else candidates) <> []).
  { destruct (0 <? length diverse)%nat eqn:E; [|done].
    apply Nat.ltb_lt in E. intros E'. rewrite E' in E. simpl in E. lia. }
  unfold poolB.
  destruct (if (0 <? length diverse)%nat then diverse else candidates) as [|c l];
    [done|].
  destruct k; [lia|]. done.
Qed.

Lemma NoDup_ids_filter (P : item -> Prop) `{!forall v, Decision (P v)}
    (l : list item) :
  NoDup (map Item.id l) -> NoDup (map Item.id (filter P l)).
Proof.
  induction l as [|v l IH]; simpl; [done|].
  intros Hnd. apply NoDup_cons in Hnd as [Hv Hl].
  rewrite filter_cons. destruct (decide (P v)); [|by apply IH].
  simpl. apply NoDup_cons. split; [|by apply IH].
  intros Hin. apply Hv.
  apply list_elem_of_In, in_map_iff in Hin as (y & Hy & Hin).
  apply list_elem_of_In, in_map_iff. exists y. split; [done|].
  apply list_elem_of_In. apply list_elem_of_In in Hin.
  by apply list_elem_of_filter in Hin as [_ ?].
Qed.

Lemma two_distinct_ids (l : list item) :
  NoDup (map Item.id l) -> (2 <= length l)%nat ->
  exists a b, a ∈ l /\ b ∈ l /\ Item.id a <> Item.id b.
Proof.
  destruct l as [|a [|b l]]; simpl; try lia.
  intros H _. exists a, b. repeat split.
  - by left.
  - right. by left.
  - apply NoDup_cons in H as [H _]. intros E. apply H. rewrite E. by left.
Qed.

Lemma other_id (l : list item) (A : item) :
  (exists a b, a ∈ l /\ b ∈ l /\ Item.id a <> Item.id b) ->
  exists y, y ∈ l /\ Item.id y <> Item.id A.
Proof.
  intros (a & b & Ha & Hb & Hne).
  destruct (decide (Item.id a = Item.id A)) as [E|E].
  - exists b. split; [done|]. congruence.
  - by exists a.
Qed.

(** The selection among the prioritized items, once both size guards of
    [chooseNextPair] have passed. *)
Lemma chooseNextPair_post (items : list item) (st : state) (g : rng) :
  let r := (chooseNextPair items st g).1 in
  (2 <= length (applyWinsFilter items st))%nat ->
  (forall p, r = Some p -> valid_pair (applyWinsFilter items st) p) /\
  (default "active" (mode st) <> "random" ->
   (exists a b, a ∈ applyWinsFilter items st /\ b ∈ applyWinsFilter items st /\
                Item.id a <> Item.id b) ->
   is_Some r).
Proof.
  intros r Hlen. unfold r, chooseNextPair.
  set (eff := applyWinsFilter items st) in *.
  assert (Hitems : (length items <? 2)%nat = false).
  { apply Nat.ltb_ge. etrans; [exact Hlen|].
    unfold eff, applyWinsFilter. destruct (negb _); [done|].
    apply length_filter. }
  rewrite Hitems.
  replace (length eff <? 2)%nat with false by (symmetry; by apply Nat.ltb_ge).
  rewrite rand_bind_unfold.
  pose proof (orderByMuPriority_perm eff st g) as Hperm.
  set (prioritized := (orderByMuPriority eff st g).1) in *.
  set (g1 := (orderByMuPriority eff st g).2).
  set (lastIds := list_to_set (filter (fun s : string => s <> "")
                                      (map Item.id (lastPair st))) : gset string).
  set (md := default "active" (mode st)).
  rewrite rand_bind_unfold.
  match goal with |- context [(?m g1).1] => set (tiePair := (m g1).1);
                                            set (g2 := (m g1).2) end.
  assert (Htie : forall q, tiePair = Some q -> valid_pair prioritized q).
  { unfold tiePair. destruct (String.eqb md "resolve_ties").
    - intros q. apply chooseTieResolutionPair_valid.
    - intros q Hq. unfold mret, rand_ret in Hq. discriminate. }
  assert (Hmono : forall q, valid_pair prioritized q -> valid_pair eff q).
  { intros q. apply valid_pair_mono. intros v Hv. by rewrite <- Hperm. }
  destruct tiePair as [q|].
  { split; [|by eauto]. intros p [= <-]. by apply Hmono, Htie. }
  destruct (String.eqb md "random") eqn:Emd.
  { split.
    - intros p Hp. by apply Hmono, (pickTwoFromPool_valid _ _ _ _ _ Hp).
    - intros Hne. apply String.eqb_eq in Emd. done. }
  (* active and bubble *)
  set (focusCount := Nat.max 2 ((2 * length prioritized + 4) / 5)).
  set (focusPool := take focusCount prioritized).
  set (byUnc := sort (fun x0 y : item => (Item.sigma y - Item.sigma x0)%R) focusPool).
  set (poolA := take (Nat.min 40 (length byUnc)) byUnc).
  rewrite rand_bind_unfold.
  destruct (selectGroupByN_spec poolA st g2) as [HAsub HAne].
  set (poolAByN := (selectGroupByN poolA st g2).1) in *.
  set (g3 := (selectGroupByN poolA st g2).2).
  assert (HpoolA : poolA ⊆ prioritized).
  { unfold poolA. etrans; [apply subseteq_take|].
    unfold byUnc. intros v Hv. rewrite sort_perm in Hv.
    by apply subseteq_take in Hv. }
  assert (HpoolAne : poolA <> []).
  { assert (Hpl : (2 <= length prioritized)%nat) by (by rewrite Hperm).
    assert (Hf : (2 <= length focusPool)%nat).
    { unfold focusPool. rewrite length_take. unfold focusCount.
      apply Nat.min_glb; [apply Nat.le_max_l|exact Hpl]. }
    assert (Hb : (2 <= length byUnc)%nat).
    { unfold byUnc. by rewrite sort_perm. }
    assert (Hpa : (0 < length poolA)%nat).
    { unfold poolA. rewrite length_take. lia. }
    intros E. rewrite E in Hpa. inversion Hpa. }
  destruct (pick_is_Some poolAByN lastIds (HAne HpoolAne)) as [A EA].
  rewrite EA.
  assert (HA : A ∈ prioritized) by (apply HpoolA, HAsub; by apply pick_elem in EA).
  match goal with |- context [take 30 ?src] => set (poolB := take 30 src) end.
  assert (HB : forall v, v ∈ map x poolB -> v ∈ prioritized /\ Item.id v <> Item.id A).
  { intros v. apply opponents_elem. }
  assert (HBne : (exists y, y ∈ prioritized /\ Item.id y <> Item.id A) ->
                 map x poolB <> []).
  { apply opponents_nonempty. lia. }
  rewrite rand_bind_unfold.
  match goal with |- context [(?m g3).1] => set (bubble := (m g3).1);
                                            set (g4 := (m g3).2) end.
  assert (Hbub : forall B2, bubble = Some B2 -> B2 ∈ map x poolB).
  { unfold bubble. intros B2.
    destruct (String.eqb md "bubble");
      [|intros Hq; unfold mret, rand_ret in Hq; discriminate].
    destruct (bool_decide (Item.id A ∈ _));
      [|intros Hq; unfold mret, rand_ret in Hq; discriminate].
    destruct (0 <? length (filter _ poolB))%nat;
      [|intros Hq; unfold mret, rand_ret in Hq; discriminate].
    rewrite rand_bind_unfold.
    match goal with |- context [selectGroupByN ?l st g3] =>
      destruct (selectGroupByN_spec l st g3) as [Hs _];
      set (chosen := (selectGroupByN l st g3).1) in * end.
    intros Hq. unfold mret, rand_ret in Hq. simpl in Hq.
    apply pick_elem, Hs in Hq.
    apply list_elem_of_In, in_map_iff in Hq as (c & <- & Hc).
    apply list_elem_of_In in Hc. apply list_elem_of_filter in Hc as [_ Hc].
    apply list_elem_of_In, in_map_iff. exists c. split; [done|].
    by apply list_elem_of_In. }
  destruct bubble as [B2|].
  { split; [|by eauto]. intros p [= <-].
    destruct (HB B2 (Hbub B2 eq_refl)) as [H1 H2].
    apply Hmono. repeat split; simpl; auto. }
  rewrite rand_bind_unfold.
  destruct (selectGroupByN_spec (map x poolB) st g4) as [HFsub HFne].
  set (finalBPool := (selectGroupByN (map x poolB) st g4).1) in *.
  split.
  - intros p.
    destruct (orElse (pickNotIn finalBPool lastIds) (head finalBPool))
      as [B|] eqn:EB;
      [|intros Hq; unfold mret, rand_ret in Hq; discriminate].
    intros Hq. unfold mret, rand_ret in Hq. simpl in Hq. injection Hq as <-.
    apply pick_elem, HFsub, HB in EB as [H1 H2].
    apply Hmono. repeat split; simpl; auto.
  - intros _ Hdist.
    assert (Hdist' : exists a b, a ∈ prioritized /\ b ∈ prioritized /\
                                 Item.id a <> Item.id b).
    { destruct Hdist as (a & b & Ha & Hb & Hne). exists a, b.
      repeat split; auto; by rewrite Hperm. }
    destruct (pick_is_Some finalBPool lastIds) as [B EB].
    { apply HFne, HBne. by apply other_id. }
    rewrite EB. by eexists.
Qed.

Lemma chooseNextPair_Some (items : list item) (st : state) (g : rng)
    (p : item * item) :
  (chooseNextPair items st g).1 = Some p -> valid_pair items p.
Proof.
  intros Hp.
  destruct (decide (2 <= length (applyWinsFilter items st))%nat) as [Hl|Hl].
  - destruct (chooseNextPair_post items st g Hl) as [Hv _].
    eapply valid_pair_mono; [apply applyWinsFilter_subseteq|]. by apply Hv.
  - revert Hp. unfold chooseNextPair.
    destruct (length items <? 2)%nat; [discriminate|].
    replace (length (applyWinsFilter items st) <? 2)%nat with true
      by (symmetry; apply Nat.ltb_lt; lia).
    discriminate.
Qed.

(** Claim C2, as amended.  Whatever the mode, the priority and the
    strategy, a pair returned by [chooseNextPair] consists of two items
    of the input pool with distinct ids, and null is returned when fewer
    than 2 items pass the wins filter.  In every mode other than
    [random], on a pool with unique ids in which at least 2 items pass
    the wins filter, a pair is returned. *)
Theorem chooseNextPair_validity (items : list item) (st : state) (g : rng) :
  let r := (chooseNextPair items st g).1 in
  (forall p, r = Some p -> valid_pair items p) /\
  ((length (applyWinsFilter items st) < 2)%nat -> r = None) /\
  (default "active" (mode st) <> "random" ->
   NoDup (map Item.id items) ->
   (2 <= length (applyWinsFilter items st))%nat ->
   is_Some r).
Proof.
  intros r.
  assert (Hnone : (length (applyWinsFilter items st) < 2)%nat -> r = None).
  { intros H. unfold r, chooseNextPair.
    destruct (length items <? 2)%nat; [done|].
    apply Nat.ltb_lt in H. by rewrite H. }
  split; [|split; [done|]].
  - intros p. apply chooseNextPair_Some.
  - intros Hmode Hnd Hl.
    destruct (chooseNextPair_post items st g Hl) as [_ Hs].
    apply Hs; [done|]. apply two_distinct_ids; [|done].
    unfold applyWinsFilter. destruct (negb _); [done|].
    by apply NoDup_ids_filter.
Qed.

Ltac decide_reals :=
  repeat (cbn [insert_sorted];
          match goal with
          | |- context [Rlt_dec ?a ?b] =>
              let H := fresh in
              destruct (Rlt_dec a b) as [H|H];
              [try (exfalso; unfold Z_ascending, mu_descending in H;
                    simpl in H; lra)
              |try (exfalso; apply H; unfold Z_ascending, mu_descending;
                    simpl; lra)]
          end).

(** Claim C2 as stated fails in [random] mode: after one vote on [p1] and
    [p2], three papers with unique ids are eligible, the bucket of the
    smallest [n] holds [p3] alone, and [chooseNextPair] returns null. *)
Lemma random_mode_counterexample :
  (2 <= length (applyWinsFilter [p1; p2; p3] random_state))%nat /\
  NoDup (map Item.id [p1; p2; p3]) /\
  forall g, (chooseNextPair [p1; p2; p3] random_state g).1 = None.
Proof.
  split; [simpl; lia|]. split.
  { apply (bool_decide_unpack _). reflexivity. }
  intros g. unfold chooseNextPair.
  change (applyWinsFilter [p1; p2; p3] random_state) with [p1; p2; p3].
  change (length [p1; p2; p3] <? 2)%nat with false. cbv iota.
  rewrite rand_bind_unfold.
  assert (Hsort : orderByMuPriority [p1; p2; p3] random_state g = ([p1; p3; p2], g)).
  { unfold orderByMuPriority. change (getMuPriority random_state) with "highest".
    change ("highest" =? "lowest") with false.
    change ("highest" =? "random") with false. cbv iota.
    unfold mret, rand_ret. f_equal.
    unfold sort. cbn [foldr insert_sorted]. decide_reals. reflexivity. }
  rewrite Hsort. cbn [fst snd].
  change (default "active" (mode random_state)) with "random".
  change ("random" =? "resolve_ties") with false.
  change ("random" =? "random") with true. cbv iota.
  rewrite rand_bind_unfold. unfold mret at 1, rand_ret at 1. cbn [fst snd].
  unfold pickTwoFromPool. rewrite rand_bind_unfold.
  assert (Hsel : forall g', (selectGroupByN [p1; p3; p2] random_state g').1 = [p3]).
  { intros g'. unfold selectGroupByN.
    change (length [p1; p3; p2] <=? 1)%nat with false. cbv iota.
    rewrite rand_bind_unfold.
    change (getNStrategy random_state) with "minimal".
    change ("minimal" =? "maximal") with false.
    change ("minimal" =? "random") with false. cbv iota.
    change (group_by Item.n [p1; p3; p2]) with [(1%Z, [p1; p2]); (0%Z, [p3])].
    cbn [map fst]. unfold sort. cbn [foldr insert_sorted]. decide_reals.
    reflexivity. }
  rewrite Hsel. reflexivity.
Qed.

(** ** Sessions: events and reloads *)

Lemma normalize_stored_entry (now : string) (h : entry) :
  vote_shaped h ->
  normalizeHistoryEntry now (stored_entry h) =
    Some (Entry.mk (Entry.a h) (Entry.b h) (Entry.outcome h) (Entry.choice h)
                   (Entry.kMult h)
                   (if String.eqb (Entry.choice h) "NEITHER" then true
                    else Entry.neitherPenaltyApplied h)
                   (if nullish (Entry.ts h) then JStr now else Entry.ts h)).
Proof.
  intros [Hc Hab]. unfold normalizeHistoryEntry, stored_entry.
  cbn [get assoc String.eqb Ascii.eqb Bool.eqb truthy typeof_object negb orb].
  apply String.eqb_neq in Hc. rewrite Hc. cbn [negb].
  destruct (Entry.outcome h) as [o|] eqn:Ho; cbn [nullish negb andb].
  - destruct Hab as [-> ->]; [done|]. reflexivity.
  - reflexivity.
Qed.

Lemma entryStep_flag_neither (nts : R -> string) (h h' : entry) (s : store) :
  Entry.a h' = Entry.a h -> Entry.b h' = Entry.b h ->
  Entry.outcome h' = Entry.outcome h -> Entry.choice h' = Entry.choice h ->
  Entry.kMult h' = Entry.kMult h ->
  Entry.neitherPenaltyApplied h' =
    (if String.eqb (Entry.choice h) "NEITHER" then true
     else Entry.neitherPenaltyApplied h) ->
  entryStep nts h' s = entryStep nts h s.
Proof.
  intros Ha Hb Ho Hc Hk Hf. unfold entryStep, replayEntry.
  rewrite Ha, Hb, Ho, Hc, Hk, Hf.
  destruct (Entry.outcome h); [|reflexivity]. simpl.
  destruct (String.eqb (Entry.choice h) "BOTH"); [reflexivity|].
  destruct (String.eqb (Entry.choice h) "NEITHER"); reflexivity.
Qed.

(** Normalizing the stored history changes nothing that the replay
    reads. *)
Lemma reload_history (nts : R -> string) (clock : nat -> string) (t : state) :
  Forall vote_shaped (history t) ->
  exists hs, normalizeState_history clock (stored_state t) = Some hs /\
             Forall vote_shaped hs /\
             replayed nts hs = replayed nts (history t).
Proof.
  intros Hwf. unfold normalizeState_history.
  change (negb (truthy (stored_state t)) || negb (typeof_object (stored_state t))
          || negb (truthy (get (stored_state t) "ratings"))) with false.
  cbv iota.
  change (get (stored_state t) "history")
    with (JArr (map stored_entry (history t))).
  eexists. split; [reflexivity|].
  unfold replayed. generalize (∅ : store). revert clock.
  induction Hwf as [|h hs Hh Hhs IH]; intros clock s0; [by split|].
  change (map stored_entry (h :: hs)) with (stored_entry h :: map stored_entry hs).
  rewrite imap_cons.
  change (omap (fun o : option entry => o)
            (normalizeHistoryEntry (clock 0%nat) (stored_entry h) :: ?l))
    with (match normalizeHistoryEntry (clock 0%nat) (stored_entry h) with
          | Some y => y :: omap (fun o : option entry => o) l
          | None => omap (fun o : option entry => o) l
          end).
  rewrite (normalize_stored_entry _ _ Hh).
  destruct (IH (fun i => clock (S i)) (entryStep nts h s0)) as [IH1 IH2].
  split.
  - constructor; [|exact IH1]. destruct Hh as [Hc Hab]. split; done.
  - cbn [fold_left].
    match goal with
    | |- context [entryStep nts (Entry.mk ?a ?b ?o ?c ?k ?f ?ts) s0] =>
        rewrite (entryStep_flag_neither nts h (Entry.mk a b o c k f ts) s0)
          by reflexivity
    end.
    exact IH2.
Qed.

(** *** What is on display carries no empty id *)

Lemma nextPair_display (w : app) (g : rng) :
  display_ok w -> display_ok (nextPair w g).1.
Proof.
  intros [Hf Hp]. unfold nextPair. destruct (_ <? _)%nat; [done|].
  rewrite rand_bind_unfold.
  destruct (chooseNextPair (filtered w) (st w) g).1 as [[A B]|] eqn:E; [|done].
  apply chooseNextPair_Some in E as (HA & HB & HAB). simpl in HA, HB, HAB.
  rewrite Forall_forall in Hf. split; simpl.
  - by apply Forall_forall.
  - intros A' B' [= <- <-]. repeat split; [by apply Hf|by apply Hf|done].
Qed.

Lemma rebuildFiltered_display (w : app) (g : rng) :
  pair_ok w -> display_ok (rebuildFiltered w g).1.
Proof.
  intros Hp. unfold rebuildFiltered.
  destruct (hydrateAll (RAW_RECORDS w) (ratings (st w))) as [its s'].
  apply nextPair_display. split; simpl; [|done].
  apply Forall_forall. intros it Hit.
  apply list_elem_of_filter in Hit as [[Hid _] _]. done.
Qed.

Lemma voteMap_label (choice : string) (cfg : voteCfg) :
  voteMap choice = Some cfg -> choice <> "".
Proof. intros H ->. discriminate. Qed.

(** The entry a vote records. *)
Lemma vote_entry (now choice : string) (w : app) (g : rng) :
  vote now choice w g = (w, g) \/
  exists (A B : item) (e : entry) (t : state),
    currentPair w = Some (A, B) /\
    vote now choice w g = rebuildFiltered (set_st t w) g /\
    history t = history (st w) ++ [e] /\
    Entry.a e = JStr (Item.id A) /\ Entry.b e = JStr (Item.id B) /\
    Entry.choice e = choice /\ choice <> "".
Proof.
  unfold vote. destruct (currentPair w) as [[A B]|] eqn:Hcur; [|by left].
  destruct (voteMap choice) as [cfg|] eqn:Hcfg; [|by left].
  right. exists A, B. apply voteMap_label in Hcfg.
  destruct (cfg_outcome cfg) as [o|];
    eexists _, _; (split; [reflexivity|]); (split; [reflexivity|]);
    repeat split; done.
Qed.

Lemma vote_shaped_history (now choice : string) (w : app) (g : rng) :
  display_ok w ->
  Forall vote_shaped (history (st w)) ->
  Forall vote_shaped (history (st (vote now choice w g).1)) /\
  display_ok (vote now choice w g).1.
Proof.
  intros Hd Hh. pose proof Hd as [_ Hp].
  destruct (vote_entry now choice w g)
    as [E|(A & B & e & t & Hcur & E & Ht & Ha & Hb & Hc & Hne)]; rewrite E.
  - by split.
  - split.
    + rewrite rebuildFiltered_history. simpl. rewrite Ht.
      apply Forall_app. split; [done|]. constructor; [|done].
      destruct (Hp A B Hcur) as (HA & HB & _). split; [congruence|].
      intros _. rewrite Ha, Hb. simpl.
      apply String.eqb_neq in HA, HB. by rewrite HA, HB.
    + apply rebuildFiltered_display. exact Hp.
Qed.

Lemma undo_shaped_history (nts : R -> string) (w : app) (g : rng) :
  display_ok w ->
  Forall vote_shaped (history (st w)) ->
  Forall vote_shaped (history (st (undo nts w g).1)) /\
  display_ok (undo nts w g).1.
Proof.
  intros Hd Hh. unfold undo. destruct (_ =? _)%nat; [by split|]. split.
  - rewrite rebuildFiltered_history. simpl. rewrite replay_history.
    by apply Forall_take.
  - apply rebuildFiltered_display. apply Hd.
Qed.

Lemma handle_shaped_history (nts : R -> string) (e : event) (w : app)
    (g : rng) :
  display_ok w ->
  Forall vote_shaped (history (st w)) ->
  Forall vote_shaped (history (st (handle nts e w g).1)) /\
  display_ok (handle nts e w g).1.
Proof.
  intros Hd Hh. destruct e; simpl.
  - by apply vote_shaped_history.
  - by apply undo_shaped_history.
  - split; [by rewrite rebuildFiltered_history|].
    apply rebuildFiltered_display, Hd.
  - split; [by rewrite rebuildFiltered_history|].
    apply rebuildFiltered_display, Hd.
  - split; [by rewrite nextPair_history|]. by apply nextPair_display.
  - split; [by rewrite nextPair_history|]. by apply nextPair_display.
  - split; [by rewrite nextPair_history|]. by apply nextPair_display.
  - split; [by rewrite nextPair_history|]. by apply nextPair_display.
  - by split.
  - split; [by rewrite rebuildFiltered_history|].
    apply rebuildFiltered_display, Hd.
Qed.

Lemma session_ok_boot (nts : R -> string) : session_ok nts boot.
Proof.
  split; [intros id; reflexivity|]. split; [constructor|].
  split; [constructor|intros A B; discriminate].
Qed.

Lemma handle_session_ok (nts : R -> string) (e : event) (w : app) (g : rng) :
  session_ok nts w -> session_ok nts (handle nts e w g).1.
Proof.
  intros (Hc & Hh & Hd).
  destruct (handle_shaped_history nts e w g Hd Hh) as [Hh' Hd'].
  split; [|by split].
  apply consistent_in_sync, handle_in_sync. by apply consistent_in_sync.
Qed.

Lemma reload_session_ok (nts : R -> string) (clock : nat -> string) (w : app) :
  session_ok nts w -> session_ok nts (reload clock w).
Proof.
  intros (Hc & Hh & Hd).
  destruct (reload_history nts clock (st w) Hh) as (hs & E & Hhs & Hrep).
  unfold reload. rewrite E. split; [|split].
  - apply consistent_in_sync. unfold in_sync. simpl. rewrite Hrep.
    by apply consistent_in_sync.
  - exact Hhs.
  - split; [constructor|intros A B; discriminate].
Qed.

(** Every state of a session that starts at boot is in good order, and so
    its ratings are the replay of its history, also across reloads. *)
Lemma session_session_ok (nts : R -> string) (steps : list step) (w : app)
    (g : rng) :
  session_ok nts w -> session_ok nts (session nts steps w g).1.
Proof.
  revert w g. induction steps as [|[e|clock] steps IH]; intros w g H; [done| |].
  - simpl. rewrite rand_bind_unfold. apply IH. by apply handle_session_ok.
  - simpl. apply IH. by apply reload_session_ok.
Qed.

(** The sigma floor holds along a whole session. *)
Lemma session_floored (nts : R -> string) (steps : list step) (w : app)
    (g : rng) :
  all_floored (ratings (st w)) ->
  all_floored (ratings (st (session nts steps w g).1)).
Proof.
  revert w g. induction steps as [|[e|clock] steps IH]; intros w g H; [done| |].
  - simpl. rewrite rand_bind_unfold. apply IH.
    pose proof (run_floored nts [e] w g H) as He.
    simpl in He. rewrite rand_bind_unfold in He. exact He.
  - simpl. apply IH. unfold reload.
    destruct (normalizeState_history clock (stored_state (st w))); [exact H|].
    intros k. apply floored_default.
Qed.

(** *** Ordinary sessions stay ordinary *)

Lemma getRating_ordinary (id : string) (s : store) :
  ordinary id -> ordinary_store s -> ordinary_store (getRating id s).
Proof.
  intros Hid Hs. unfold getRating. destruct (s !! id); [done|].
  unfold ordinary_store in *. rewrite Forall_forall in *. intros k Hk.
  rewrite lookup_insert_ne; [by apply Hs|]. intros ->. by apply Hid.
Qed.

Lemma alter_ordinary (f : rating -> rating) (k : string) (s : store) :
  ordinary_store s -> ordinary_store (alter f k s).
Proof.
  unfold ordinary_store. rewrite !Forall_forall. intros Hs k' Hk'.
  apply lookup_alter_None. by apply Hs.
Qed.

Lemma updatePair_ordinary (A B : string) (o : R) (k : option R) (s : store) :
  ordinary_store s -> ordinary_store (updatePair A B o k s).
Proof. intros Hs. unfold updatePair. by repeat apply alter_ordinary. Qed.

Lemma counters_ordinary (A B : string) (o : R) (s : store) :
  ordinary_store s -> ordinary_store (applyOutcomeCounters A B o s).
Proof.
  intros Hs. unfold applyOutcomeCounters.
  repeat destruct (Req_dec_T _ _); by repeat apply alter_ordinary.
Qed.

Lemma joint_ordinary (A B : string) (d k : R) (s : store) :
  ordinary_store s ->
  ordinary_store (applyJointAdjustment B d k (applyJointAdjustment A d k s)).
Proof. intros Hs. unfold applyJointAdjustment. by do 2 apply alter_ordinary. Qed.

Lemma entryStep_ordinary (nts : R -> string) (h : entry) (s : store) :
  ordinary_entry nts h -> ordinary_store s ->
  ordinary_store (entryStep nts h s).
Proof.
  intros [Ha Hb] Hs. unfold entryStep, replayEntry.
  destruct (Entry.outcome h) as [o|]; [|done]. simpl.
  apply counters_ordinary.
  assert (H2 : ordinary_store
                 (getRating (ToString nts (Entry.b h))
                    (getRating (ToString nts (Entry.a h)) s)))
    by (by repeat apply getRating_ordinary).
  destruct (String.eqb (Entry.choice h) "BOTH");
    [by apply joint_ordinary|].
  destruct (String.eqb (Entry.choice h) "NEITHER");
    [by apply joint_ordinary|].
  destruct (Entry.neitherPenaltyApplied h);
    [do 2 apply alter_ordinary|]; by apply updatePair_ordinary.
Qed.

Lemma replayed_ordinary (nts : R -> string) (hs : list entry) :
  Forall (ordinary_entry nts) hs -> ordinary_store (replayed nts hs).
Proof.
  intros H. unfold replayed.
  assert (H0 : ordinary_store ∅).
  { unfold ordinary_store. apply Forall_forall. intros k _.
    apply lookup_empty. }
  revert H0. generalize (∅ : store).
  induction H as [|h hs Hh Hhs IH]; intros s Hs; [done|].
  simpl. apply IH. by apply entryStep_ordinary.
Qed.

Lemma hydrateAll_ordinary (recs : list record) (s : store) :
  Forall (fun rec => ordinary (rec_id rec)) recs -> ordinary_store s ->
  ordinary_store (hydrateAll recs s).2 /\
  Forall (fun it => ordinary (Item.id it)) (hydrateAll recs s).1.
Proof.
  intros H. revert s. induction H as [|rec recs Hr Hrs IH]; intros s Hs;
    [by split|].
  simpl. destruct (hydrateAll recs (getRating (rec_id rec) s)) as [its s'] eqn:E.
  destruct (IH (getRating (rec_id rec) s)) as [I1 I2];
    [by apply getRating_ordinary|].
  rewrite E in I1, I2. simpl in *. split; [done|]. by constructor.
Qed.

Lemma nextPair_ordinary (nts : R -> string) (w : app) (g : rng) :
  ordinary_session nts w -> ordinary_session nts (nextPair w g).1.
Proof.
  intros [(Hh & Hr & Hp & Hs) Hf]. unfold nextPair.
  destruct (_ <? _)%nat; [done|]. rewrite rand_bind_unfold.
  destruct (chooseNextPair (filtered w) (st w) g).1 as [[A B]|] eqn:E; [|done].
  apply chooseNextPair_Some in E as (HA & HB & _). simpl in HA, HB.
  rewrite Forall_forall in Hf.
  split; [|by apply Forall_forall]. split; [done|]. split; [done|].
  split; [|done]. intros A' B' [= <- <-]. split; by apply Hf.
Qed.

Lemma rebuildFiltered_ordinary (nts : R -> string) (w : app) (g : rng) :
  ordinary_app nts w -> ordinary_session nts (rebuildFiltered w g).1.
Proof.
  intros (Hh & Hr & Hp & Hs). unfold rebuildFiltered.
  destruct (hydrateAll_ordinary (RAW_RECORDS w) (ratings (st w)) Hr Hs)
    as [H1 H2].
  destruct (hydrateAll (RAW_RECORDS w) (ratings (st w))) as [its s'].
  simpl in H1, H2. apply nextPair_ordinary. split; [done|]. simpl.
  rewrite Forall_forall in *. intros it Hit.
  apply list_elem_of_filter in Hit as [_ Hit]. by apply H2.
Qed.

Lemma vote_ordinary (nts : R -> string) (now choice : string) (w : app)
    (g : rng) :
  ordinary_session nts w -> ordinary_session nts (vote now choice w g).1.
Proof.
  intros Hw. pose proof Hw as [(Hh & Hr & Hp & Hs) Hf]. unfold vote.
  destruct (currentPair w) as [[A B]|] eqn:Hcur; [|done].
  destruct (Hp A B eq_refl) as [HA HB].
  destruct (voteMap choice) as [cfg|]; [|done].
  destruct (cfg_outcome cfg) as [o|]; apply rebuildFiltered_ordinary;
    (split; [simpl; apply Forall_app; split; [done|]; by repeat constructor|]);
    (split; [done|]); (split; [simpl; by rewrite Hcur|]); simpl; [|done].
  apply counters_ordinary.
  assert (H2 : ordinary_store
                 (getRating (Item.id B) (getRating (Item.id A) (ratings (st w)))))
    by (by repeat apply getRating_ordinary).
  destruct (String.eqb choice "BOTH"); [by apply joint_ordinary|].
  destruct (String.eqb choice "NEITHER"); [by apply joint_ordinary|].
  by apply updatePair_ordinary.
Qed.

Lemma undo_ordinary (nts : R -> string) (w : app) (g : rng) :
  ordinary_session nts w -> ordinary_session nts (undo nts w g).1.
Proof.
  intros Hw. pose proof Hw as [(Hh & Hr & Hp & Hs) Hf]. unfold undo.
  destruct (_ =? _)%nat; [done|]. apply rebuildFiltered_ordinary.
  split; [simpl; rewrite replay_history; by apply Forall_take|].
  split; [done|]. split; [done|]. simpl. rewrite replay_ratings.
  apply replayed_ordinary. by apply Forall_take.
Qed.

Lemma handle_ordinary (nts : R -> string) (e : event) (w : app) (g : rng) :
  ordinary_event e -> ordinary_session nts w ->
  ordinary_session nts (handle nts e w g).1.
Proof.
  intros He Hw. pose proof Hw as [(Hh & Hr & Hp & Hs) Hf].
  destruct e; simpl.
  - by apply vote_ordinary.
  - by apply undo_ordinary.
  - by apply rebuildFiltered_ordinary.
  - by apply rebuildFiltered_ordinary.
  - by apply nextPair_ordinary.
  - by apply nextPair_ordinary.
  - by apply nextPair_ordinary.
  - by apply nextPair_ordinary.
  - done.
  - apply rebuildFiltered_ordinary. split; [constructor|]. split; [done|].
    split; [done|]. apply Forall_forall. intros k _. apply lookup_empty.
Qed.

Lemma normalized_ordinary (nts : R -> string) (clock : nat -> string)
    (hs : list entry) :
  Forall (ordinary_entry nts) hs ->
  Forall (ordinary_entry nts)
    (omap (fun o : option entry => o)
          (imap (fun i v => normalizeHistoryEntry (clock i) v)
                (map stored_entry hs))).
Proof.
  intros H. revert clock. induction H as [|h hs Hh Hhs IH]; intros clock;
    [constructor|].
  change (map stored_entry (h :: hs)) with (stored_entry h :: map stored_entry hs).
  rewrite imap_cons.
  change (omap (fun o : option entry => o)
            (normalizeHistoryEntry (clock 0%nat) (stored_entry h) :: ?l))
    with (match normalizeHistoryEntry (clock 0%nat) (stored_entry h) with
          | Some y => y :: omap (fun o : option entry => o) l
          | None => omap (fun o : option entry => o) l
          end).
  specialize (IH (fun i => clock (S i))).
  destruct (normalizeHistoryEntry (clock 0%nat) (stored_entry h)) as [e|] eqn:E;
    [|exact IH].
  constructor; [|exact IH].
  destruct (normalize_fields _ _ _ E) as (Ha & Hb & _).
  unfold ordinary_entry. rewrite Ha, Hb. exact Hh.
Qed.

Lemma reload_ordinary (nts : R -> string) (clock : nat -> string) (w : app) :
  ordinary_session nts w -> ordinary_session nts (reload clock w).
Proof.
  intros [(Hh & Hr & Hp & Hs) Hf]. unfold reload, normalizeState_history.
  change (negb (truthy (stored_state (st w)))
          || negb (typeof_object (stored_state (st w)))
          || negb (truthy (get (stored_state (st w)) "ratings"))) with false.
  cbv iota.
  change (get (stored_state (st w)) "history")
    with (JArr (map stored_entry (history (st w)))).
  split; [|constructor]. split; [by apply normalized_ordinary|].
  split; [constructor|]. split; [intros A B; discriminate|done].
Qed.

Lemma boot_ordinary (nts : R -> string) : ordinary_session nts boot.
Proof.
  split; [|constructor]. split; [constructor|]. split; [constructor|].
  split; [intros A B; discriminate|].
  apply Forall_forall. intros k _. apply lookup_empty.
Qed.

(** Every state of a session of ordinary steps is ordinary. *)
Lemma session_ordinary (nts : R -> string) (steps : list step) (w : app)
    (g : rng) :
  Forall ordinary_step steps -> ordinary_session nts w ->
  ordinary_session nts (session nts steps w g).1.
Proof.
  intros H. revert w g.
  induction H as [|[e|clock] steps Hs Hss IH]; intros w g Hw; [done| |].
  - simpl. rewrite rand_bind_unfold. apply IH. by apply handle_ordinary.
  - simpl. apply IH. by apply reload_ordinary.
Qed.

(** *** Undo *)

Lemma undo_history (nts : R -> string) (w : app) (g : rng) :
  history (st (undo nts w g).1)
  = take (length (history (st w)) - 1) (history (st w)).
Proof.
  unfold undo. destruct (length (history (st w)) =? 0)%nat eqn:E.
  - apply Nat.eqb_eq in E. unfold mret, rand_ret. simpl.
    destruct (history (st w)); [done|discriminate].
  - rewrite rebuildFiltered_history. simpl. by rewrite replay_history.
Qed.

Lemma undo_rebuilds (nts : R -> string) (w : app) (g : rng) :
  history (st w) <> [] -> in_sync nts (undo nts w g).1.
Proof.
  intros H. unfold undo. destruct (length (history (st w)) =? 0)%nat eqn:E.
  - apply Nat.eqb_eq in E. destruct (history (st w)); done.
  - apply rebuildFiltered_in_sync. unfold in_sync. simpl.
    by rewrite replay_ratings, replay_history.
Qed.

(** Claim C1, as amended.  Undo round trip, for ordinary ids and labels.
    In every state that a session reaches from boot, through the events
    of the page and reloads of what it saved, the ratings are those a
    full replay of the history from default ratings yields, and the
    state is ordinary again; and in every ordinary state where that
    holds, when a vote appends an entry, an undo right after it restores
    the history and the rating record (mu, sigma, n, wins, losses, ties)
    of every item.  In any ordinary state, what an undo leaves is the
    replay of the history without its last entry. *)
Theorem undo_round_trip (nts : R -> string) :
  (forall (steps : list step) (g : rng),
     Forall ordinary_step steps ->
     let w := (session nts steps boot g).1 in
     consistent nts w /\ ordinary_app nts w) /\
  (forall (w : app) (now choice : string) (g1 g2 : rng),
     consistent nts w ->
     ordinary_app nts w -> ordinary choice ->
     let w1 := (vote now choice w g1).1 in
     let w2 := (undo nts w1 g2).1 in
     history (st w1) <> history (st w) ->
     history (st w2) = history (st w) /\
     (forall id, obj (ratings (st w2)) id = obj (ratings (st w)) id)) /\
  (forall (w : app) (g : rng),
     ordinary_app nts w -> history (st w) <> [] ->
     let w' := (undo nts w g).1 in
     history (st w') = take (length (history (st w)) - 1) (history (st w)) /\
     (forall id, obj (ratings (st w')) id
                 = obj (replayed nts (history (st w'))) id)).
Proof.
  split.
  { intros steps g Hs w. split.
    - apply session_session_ok, session_ok_boot.
    - apply (session_ordinary nts steps boot g Hs), boot_ordinary. }
  split.
  2:{ intros w g _ Hne w'. split; [apply undo_history|].
      exact (undo_rebuilds nts w g Hne). }
  intros w now choice g1 g2 H0 _ _ w1 w2 Hpush.
  assert (Hw : in_sync nts w) by (by apply consistent_in_sync).
  assert (Hh : exists e, history (st w1) = history (st w) ++ [e]).
  { unfold w1 in *.
    destruct (vote_cases nts now choice w g1) as [E|(e & wm & E & Hh & _)].
    - rewrite E in Hpush. done.
    - exists e. by rewrite E, rebuildFiltered_history. }
  destruct Hh as [e Hh].
  assert (Htake : take (length (history (st w1)) - 1) (history (st w1))
                  = history (st w)).
  { rewrite Hh, length_app. simpl.
    replace (length (history (st w)) + 1 - 1)%nat
      with (length (history (st w))) by lia.
    by rewrite take_app_length. }
  assert (Hlen : (length (history (st w1)) =? 0)%nat = false).
  { rewrite Hh, length_app. simpl. apply Nat.eqb_neq. lia. }
  unfold w2, undo. rewrite Hlen, Htake. split.
  - rewrite rebuildFiltered_history. simpl. by rewrite replay_history.
  - intros id. rewrite rebuildFiltered_obj. simpl.
    rewrite replay_ratings. symmetry. apply Hw.
Qed.

(** Claim C1 as stated fails on a state whose ratings are not the replay
    of its history, such as [importState] accepts: with 1700 stored for X
    and an empty history, a vote and the undo right after it leave X at
    the default 1500, not at the 1700 from before the vote. *)
Lemma undo_after_import_counterexample :
  let nts := fun _ : R => "" in
  let w := imported in
  let w1 := (vote "t1" "A" w no_draws).1 in
  let w2 := (undo nts w1 no_draws).1 in
  ordinary_app nts w /\
  history (st w1) <> history (st w) /\
  history (st w2) = history (st w) /\
  mu (obj (ratings (st w)) "X") = 1700%R /\
  mu (obj (ratings (st w2)) "X") = 1500%R /\
  ~ (forall id, obj (ratings (st w2)) id = obj (ratings (st w)) id).
Proof.
  intros nts w w1 w2.
  assert (Hord : ordinary_app nts w).
  { split; [constructor|]. split; [|split].
    - repeat constructor; apply (bool_decide_unpack _); reflexivity.
    - intros A B [= <- <-].
      split; apply (bool_decide_unpack _); reflexivity.
    - repeat constructor. }
  assert (Hh1 : history (st w1)
                = [Entry.mk (JStr "X") (JStr "Y") (Some 1.0%R) "A" 1.0 false
                            (JStr "t1")]).
  { unfold w1, vote. simpl. by rewrite rebuildFiltered_history. }
  assert (Hh2 : history (st w2) = []).
  { unfold w2. rewrite undo_history, Hh1. reflexivity. }
  assert (Hb : mu (obj (ratings (st w)) "X") = 1700%R) by reflexivity.
  assert (Ha : mu (obj (ratings (st w2)) "X") = 1500%R).
  { assert (Hne : history (st w1) <> []) by (rewrite Hh1; discriminate).
    pose proof (undo_rebuilds nts w1 no_draws Hne "X") as Hs.
    fold w2 in Hs. rewrite Hs, Hh2. reflexivity. }
  split; [exact Hord|]. split; [rewrite Hh1; discriminate|].
  split; [exact Hh2|]. split; [exact Hb|]. split; [exact Ha|].
  intros H. specialize (H "X").
  assert (E : mu (obj (ratings (st w2)) "X") = mu (obj (ratings (st w)) "X"))
    by (by rewrite H).
  rewrite Ha, Hb in E. lra.
Qed.

(* --------------------------------------------------------------------- *)
(** ** rating.js: the direction of an update *)
(* --------------------------------------------------------------------- *)



(* --------------------------------------------------------------------- *)
(** ** unified_app.js: the size and the frame of a vote *)
(* --------------------------------------------------------------------- *)

(** One update moves [mu] by less than the largest learning rate. *)
Lemma updatePair_mu_bound (A B : string) (o : R) (k : option R) (s : store)
    (c : string) :
  A <> B -> is_Some (s !! A) -> is_Some (s !! B) ->
  (0 <= o <= 1)%R -> (0 <= default 32 k)%R ->
  (Rabs (mu (obj (updatePair A B o k s) c) - mu (obj s c))
   <= 1.8 * default 32 k)%R.
Proof.
  intros Hne [ra HA] [rb HB] Ho Hk.
  pose proof (logistic_range (mu ra - mu rb)) as Hp.
  assert (Hc : forall r, (0 <= effK k r <= 1.8 * default 32 k)%R).
  { intros r. unfold effK.
    pose proof (clamp_bounds (sigma r / DEFAULT_SIGMA) 0.6 1.8). nra. }
  destruct (decide (c = A)) as [->|HcA]; [|destruct (decide (c = B)) as [->|HcB]].
  - rewrite (obj_lookup _ _ _ (updatePair_A A B o k s ra rb Hne HA HB)).
    rewrite (obj_lookup _ _ _ HA). simpl.
    specialize (Hc ra). apply Rabs_le. nra.
  - rewrite (obj_lookup _ _ _ (updatePair_B A B o k s ra rb Hne HA HB)).
    rewrite (obj_lookup _ _ _ HB). simpl.
    specialize (Hc rb). apply Rabs_le. nra.
  - unfold obj. rewrite updatePair_other by done.
    replace (_ - _)%R with 0%R by lra. rewrite Rabs_R0. lra.
Qed.

Lemma jointAdjust_mu_bound (d m : R) (r : rating) :
  d = 1%R \/ d = (-1)%R -> (0 <= m)%R ->
  (Rabs (mu (jointAdjust d m r) - mu r) <= BASE_K * m * 1.8 * JOINT_FEEDBACK_SCALE)%R.
Proof.
  intros Hd Hm. unfold jointAdjust. simpl.
  pose proof (clamp_bounds (sigma r / DEFAULT_SIGMA) 0.6 1.8) as Hc.
  unfold BASE_K, JOINT_FEEDBACK_SCALE.
  apply Rabs_le. destruct Hd as [-> | ->]; nra.
Qed.

Lemma pair_step_bound (a b : string) (o m : R) (s : store) (c : string) :
  a <> b -> (0 <= o <= 1)%R -> (0 <= m <= 1.8)%R ->
  (Rabs (mu (obj (applyOutcomeCounters a b o
                    (updatePair a b o (Some (BASE_K * m)%R)
                       (getRating b (getRating a s)))) c)
         - mu (obj s c)) <= 103.68)%R.
Proof.
  intros Hne Ho Hm. rewrite applyOutcomeCounters_mu.
  rewrite <- (getRating_obj a c s), <- (getRating_obj b c (getRating a s)).
  etrans; [apply updatePair_mu_bound|]; try done.
  - apply getRating_keeps, getRating_is_Some.
  - apply getRating_is_Some.
  - simpl. unfold BASE_K. nra.
  - simpl. unfold BASE_K. nra.
Qed.

Lemma joint_step_bound (a b : string) (o d m : R) (s : store) (c : string) :
  a <> b -> d = 1%R \/ d = (-1)%R -> (0 <= m <= 1.8)%R ->
  (Rabs (mu (obj (applyOutcomeCounters a b o
                    (applyJointAdjustment b d m
                       (applyJointAdjustment a d m
                          (getRating b (getRating a s))))) c)
         - mu (obj s c)) <= 103.68)%R.
Proof.
  intros Hne Hd Hm. rewrite applyOutcomeCounters_mu.
  set (s0 := getRating b (getRating a s)).
  assert (Hs0 : obj s0 c = obj s c) by (unfold s0; by rewrite !getRating_obj).
  assert (HA : is_Some (s0 !! a)) by apply getRating_keeps, getRating_is_Some.
  assert (HB : is_Some (s0 !! b)) by apply getRating_is_Some.
  rewrite <- Hs0. unfold applyJointAdjustment.
  assert (Hj : forall r, (Rabs (mu (jointAdjust d m r) - mu r) <= 103.68)%R).
  { intros r. etrans; [apply jointAdjust_mu_bound; [done|lra]|].
    unfold BASE_K, JOINT_FEEDBACK_SCALE. nra. }
  destruct (decide (c = b)) as [->|Hcb]; [|destruct (decide (c = a)) as [->|Hca]].
  - rewrite obj_alter_eq by (by rewrite alter_is_Some).
    rewrite obj_alter_ne by done. apply Hj.
  - rewrite obj_alter_ne by done. rewrite obj_alter_eq by done. apply Hj.
  - rewrite !obj_alter_ne by done.
    replace (_ - _)%R with 0%R by lra. rewrite Rabs_R0. lra.
Qed.

Lemma pair_step_frame (a b : string) (o : R) (k : option R) (s : store)
    (c : string) :
  c <> a -> c <> b ->
  obj (applyOutcomeCounters a b o
         (updatePair a b o k (getRating b (getRating a s)))) c = obj s c.
Proof.
  intros Ha Hb. unfold obj at 1.
  rewrite applyOutcomeCounters_other, updatePair_other by done.
  fold (obj (getRating b (getRating a s)) c). by rewrite !getRating_obj.
Qed.

Lemma joint_step_frame (a b : string) (o d m : R) (s : store) (c : string) :
  c <> a -> c <> b ->
  obj (applyOutcomeCounters a b o
         (applyJointAdjustment b d m
            (applyJointAdjustment a d m (getRating b (getRating a s))))) c
  = obj s c.
Proof.
  intros Ha Hb. unfold obj at 1.
  rewrite applyOutcomeCounters_other by done.
  unfold applyJointAdjustment. rewrite !lookup_alter_ne by done.
  fold (obj (getRating b (getRating a s)) c). by rewrite !getRating_obj.
Qed.

(** Property X3.  A vote with an ordinary label on a pair with distinct,
    ordinary ids leaves the record of every id outside the pair as it
    is, and moves no mu by as much as 104 (the largest step is
    32 * 1.8 * 1.8 = 103.68). *)
Theorem vote_moves_pair_only (now choice : string) (w : app) (g : rng)
    (A B : item) :
  currentPair w = Some (A, B) ->
  Item.id A <> Item.id B ->
  ordinary (Item.id A) -> ordinary (Item.id B) -> ordinary choice ->
  let s := ratings (st w) in
  let s' := ratings (st (vote now choice w g).1) in
  (forall id, id <> Item.id A -> id <> Item.id B -> obj s' id = obj s id) /\
  (forall id, Rabs (mu (obj s' id) - mu (obj s id)) < 104)%R.
Proof.
  intros Hcur Hne _ _ _ s s'.
  cut ((forall id, id <> Item.id A -> id <> Item.id B -> obj s' id = obj s id) /\
       (forall id, Rabs (mu (obj s' id) - mu (obj s id)) <= 103.68)%R).
  { intros [H1 H2]. split; [exact H1|]. intros id. specialize (H2 id). lra. }
  unfold s', s, vote. rewrite Hcur. unfold voteMap.
  assert (H0 : forall x0 : rating, (Rabs (mu x0 - mu x0) <= 103.68)%R).
  { intros x0. replace (_ - _)%R with 0%R by lra. rewrite Rabs_R0. lra. }
  destruct (String.eqb choice "A") eqn:E1;
    [apply String.eqb_eq in E1; subst choice|];
  [|destruct (String.eqb choice "STRONG_A") eqn:E2;
    [apply String.eqb_eq in E2; subst choice|];
  [|destruct (String.eqb choice "B") eqn:E3;
    [apply String.eqb_eq in E3; subst choice|];
  [|destruct (String.eqb choice "STRONG_B") eqn:E4;
    [apply String.eqb_eq in E4; subst choice|];
  [|destruct (String.eqb choice "BOTH") eqn:E5;
    [apply String.eqb_eq in E5; subst choice|];
  [|destruct (String.eqb choice "NEITHER") eqn:E6;
    [apply String.eqb_eq in E6; subst choice|];
  [|destruct (String.eqb choice "SKIP") eqn:E7;
    [apply String.eqb_eq in E7; subst choice|]]]]]]];
  cbn [cfg_outcome cfg_kMult cfg_neitherPenaltyApplied String.eqb Ascii.eqb
       Bool.eqb];
  (split; intros id; [intros HA HB|]);
  rewrite ?rebuildFiltered_obj; cbn [st ratings set_st set_history set_ratings];
  try done; try apply H0;
  first [ by apply pair_step_frame
        | by apply joint_step_frame
        | apply pair_step_bound; [done|lra|lra]
        | apply joint_step_bound; [done|by auto|lra] ].
Qed.


(* --------------------------------------------------------------------- *)
(** ** Uncertainty and counters along a session *)
(* --------------------------------------------------------------------- *)

Lemma settle_alter (s0 : R) (n0 : Z) (f : rating -> rating) (s : store)
    (k c : string) :
  (forall r, floored r /\ (sigma r <= s0)%R /\ (n0 <= n r)%Z ->
             floored (f r) /\ (sigma (f r) <= s0)%R /\ (n0 <= n (f r))%Z) ->
  floored (obj s c) /\ (sigma (obj s c) <= s0)%R /\ (n0 <= n (obj s c))%Z ->
  floored (obj (alter f k s) c) /\ (sigma (obj (alter f k s) c) <= s0)%R /\
  (n0 <= n (obj (alter f k s) c))%Z.
Proof.
  intros Hf H.
  apply (obj_alter_preserves
           (fun r => floored r /\ (sigma r <= s0)%R /\ (n0 <= n r)%Z)); done.
Qed.

Lemma decay_settles (s0 t : R) (r : rating) :
  (0 <= t <= 1)%R -> floored r -> (sigma r <= s0)%R ->
  (Rmax MIN_SIGMA (sigma r * SIGMA_DECAY * t) <= s0)%R.
Proof.
  unfold floored, MIN_SIGMA, SIGMA_DECAY. intros Ht Hr Hs.
  apply Rmax_lub; [lra|]. nra.
Qed.

(** Property X4.  Along any sequence of pairwise updates and joint
    adjustments, the sigma of a record that starts at or above
    [MIN_SIGMA] never exceeds its starting value, and its match count [n]
    never falls below its starting value. *)
Theorem sigma_never_grows (ops : list ratingOp) (s : store) (k : string) :
  (MIN_SIGMA <= sigma (obj s k))%R ->
  (sigma (obj (fold_left applyOp ops s) k) <= sigma (obj s k))%R /\
  (n (obj s k) <= n (obj (fold_left applyOp ops s) k))%Z.
Proof.
  intros H0.
  set (s0 := sigma (obj s k)). set (n0 := n (obj s k)).
  assert (H : floored (obj s k) /\ (sigma (obj s k) <= s0)%R /\
              (n0 <= n (obj s k))%Z) by (unfold s0, n0; repeat split; [done|lra|lia]).
  clearbody s0 n0. clear H0. revert s H.
  induction ops as [|op ops IH]; intros s H; [tauto|].
  simpl. apply IH. destruct op as [A B o baseK|a d m]; simpl.
  - unfold updatePair.
    repeat (apply settle_alter;
            [intros r (Hr1 & Hr2 & Hr3); unfold floored in *; simpl;
             repeat split; try done; try lia;
             try apply Rmax_l;
             try (apply decay_settles; [|done|done];
                  destruct (Req_dec_T o 0.5); lra)|]).
    exact H.
  - unfold applyJointAdjustment. apply settle_alter; [|done].
    intros r (Hr1 & Hr2 & Hr3). unfold jointAdjust, floored in *. simpl.
    repeat split; [apply Rmax_l| |lia].
    apply decay_settles; [lra|done|done].
Qed.

Lemma uncounted_alter (f : rating -> rating) (d : Z) (s : store) (k c : string) :
  (forall r, uncounted (f r) = (uncounted r + d)%Z) ->
  is_Some (s !! k) ->
  uncounted (obj (alter f k s) c)
  = (uncounted (obj s c) + if decide (c = k) then d else 0)%Z.
Proof.
  intros Hf Hk. destruct (decide (c = k)) as [->|Hne].
  - by rewrite obj_alter_eq.
  - rewrite obj_alter_ne by done. lia.
Qed.

Ltac side_uncounted :=
  first [ by rewrite ?alter_is_Some, ?updatePair_is_Some
        | intros ?; unfold uncounted; simpl; lia ].

Lemma uncounted_updatePair (A B : string) (o : R) (k : option R) (s : store)
    (c : string) :
  is_Some (s !! A) -> is_Some (s !! B) ->
  uncounted (obj (updatePair A B o k s) c)
  = (uncounted (obj s c) + (if decide (c = A) then 1 else 0)
                         + (if decide (c = B) then 1 else 0))%Z.
Proof.
  intros HA HB. unfold updatePair.
  rewrite (uncounted_alter _ 1) by side_uncounted.
  rewrite (uncounted_alter _ 1) by side_uncounted.
  rewrite !(uncounted_alter _ 0) by side_uncounted.
  repeat destruct (decide _); lia.
Qed.

Lemma uncounted_joint (a : string) (d m : R) (s : store) (c : string) :
  is_Some (s !! a) ->
  uncounted (obj (applyJointAdjustment a d m s) c)
  = (uncounted (obj s c) + (if decide (c = a) then 1 else 0))%Z.
Proof.
  intros Ha. unfold applyJointAdjustment.
  rewrite (uncounted_alter _ 1); [done| |done].
  intros r. unfold uncounted, jointAdjust. simpl. lia.
Qed.

Lemma uncounted_counters (A B : string) (o : R) (s : store) (c : string) :
  is_Some (s !! A) -> is_Some (s !! B) ->
  uncounted (obj (applyOutcomeCounters A B o s) c)
  = (uncounted (obj s c) - (if decide (c = A) then 1 else 0)
                         - (if decide (c = B) then 1 else 0))%Z.
Proof.
  intros HA HB. unfold applyOutcomeCounters.
  repeat destruct (Req_dec_T _ _);
    rewrite !(uncounted_alter _ (-1))
      by side_uncounted;
    repeat destruct (decide _); lia.
Qed.

Lemma entryStep_uncounted (nts : R -> string) (h : entry) (s : store)
    (c : string) :
  uncounted (obj (entryStep nts h s) c) = uncounted (obj s c).
Proof.
  unfold entryStep, replayEntry.
  destruct (Entry.outcome h) as [o|]; simpl; [|done].
  set (A := ToString nts (Entry.a h)). set (B := ToString nts (Entry.b h)).
  set (s0 := getRating B (getRating A s)).
  assert (HA : is_Some (s0 !! A)) by apply getRating_keeps, getRating_is_Some.
  assert (HB : is_Some (s0 !! B)) by apply getRating_is_Some.
  assert (H0 : uncounted (obj s0 c) = uncounted (obj s c)).
  { unfold s0. by rewrite !getRating_obj. }
  rewrite uncounted_counters.
  2,3: repeat destruct (String.eqb _ _);
       try destruct (Entry.neitherPenaltyApplied h);
       by rewrite ?alter_is_Some, ?applyJointAdjustment_is_Some,
            ?updatePair_is_Some.
  destruct (String.eqb (Entry.choice h) "BOTH");
    [|destruct (String.eqb (Entry.choice h) "NEITHER");
      [|destruct (Entry.neitherPenaltyApplied h)]].
  - rewrite !uncounted_joint by (by rewrite ?applyJointAdjustment_is_Some).
    rewrite H0. lia.
  - rewrite !uncounted_joint by (by rewrite ?applyJointAdjustment_is_Some).
    rewrite H0. lia.
  - rewrite !(uncounted_alter _ 0)
      by side_uncounted.
    rewrite uncounted_updatePair by done. rewrite H0.
    repeat destruct (decide _); lia.
  - rewrite uncounted_updatePair by done. rewrite H0. lia.
Qed.

Lemma updatePair_counters_ok (A B : string) (o : R) (k : option R) (s : store)
    (c : string) :
  counters_ok (obj s c) -> counters_ok (obj (updatePair A B o k s) c).
Proof.
  intros H. unfold updatePair.
  repeat (apply obj_alter_preserves; [by intros r Hr|]). exact H.
Qed.

Lemma entryStep_counters_ok (nts : R -> string) (h : entry) (s : store)
    (c : string) :
  counters_ok (obj s c) -> counters_ok (obj (entryStep nts h s) c).
Proof.
  intros H. unfold entryStep, replayEntry.
  destruct (Entry.outcome h) as [o|]; simpl; [|done].
  assert (H0 : counters_ok (obj (getRating (ToString nts (Entry.b h))
                                   (getRating (ToString nts (Entry.a h)) s)) c))
    by (by rewrite !getRating_obj).
  assert (Hstep : forall f : rating -> rating,
             (forall r, wins r <= wins (f r) /\ losses r <= losses (f r)
                        /\ ties r <= ties (f r))%Z ->
             forall k s', counters_ok (obj s' c) ->
                          counters_ok (obj (alter f k s') c)).
  { intros f Hf k s' Hs'. apply obj_alter_preserves; [|done].
    intros r (Hr1 & Hr2 & Hr3). destruct (Hf r) as (F1 & F2 & F3).
    unfold counters_ok. lia. }
  unfold applyOutcomeCounters.
  repeat destruct (Req_dec_T _ _);
    do 2 (apply Hstep; [intros r; simpl; lia|]);
    repeat destruct (String.eqb _ _);
    try destruct (Entry.neitherPenaltyApplied h);
    unfold applyJointAdjustment;
    repeat first [ apply updatePair_counters_ok
                 | apply Hstep; [intros r; simpl; lia|] ];
    exact H0.
Qed.

Lemma replayed_counted (nts : R -> string) (hs : list entry) (c : string) :
  uncounted (obj (replayed nts hs) c) = 0%Z /\
  counters_ok (obj (replayed nts hs) c).
Proof.
  unfold replayed.
  assert (H : uncounted (obj (∅ : store) c) = 0%Z /\
              counters_ok (obj (∅ : store) c)).
  { unfold obj. rewrite lookup_empty. split; [reflexivity|].
    unfold counters_ok. simpl. lia. }
  revert H. generalize (∅ : store).
  induction hs as [|h hs IH]; intros s H; [done|].
  simpl. apply IH. destruct H as [H1 H2]. split.
  - by rewrite entryStep_uncounted.
  - by apply entryStep_counters_ok.
Qed.

(** Property X5.  In every state of a session that starts at boot, through
    any events of the page and any reloads, every record has
    [n = wins + losses + ties] and none of the three counters is
    negative. *)
Theorem session_counters (nts : R -> string) (steps : list step) (g : rng)
    (id : string) :
  let r := obj (ratings (st (session nts steps boot g).1)) id in
  n r = (wins r + losses r + ties r)%Z /\
  (0 <= wins r)%Z /\ (0 <= losses r)%Z /\ (0 <= ties r)%Z.
Proof.
  intros r.
  pose proof (session_session_ok nts steps boot g (session_ok_boot nts))
    as (Hc & _ & _).
  apply consistent_in_sync in Hc. unfold r. rewrite (Hc id).
  destruct (replayed_counted nts
              (history (st (session nts steps boot g).1)) id) as [H1 H2].
  unfold uncounted in H1. unfold counters_ok in H2. split; [lia|done].
Qed.


(* --------------------------------------------------------------------- *)
(** ** The rows on display, repeated undo, normalization twice *)
(* --------------------------------------------------------------------- *)

Lemma shows_veq (s1 s2 : store) (it : item) :
  (forall k, obj s1 k = obj s2 k) -> shows s1 it -> shows s2 it.
Proof. intros H. unfold shows. by rewrite !H. Qed.

Lemma hydrateAll_shows (recs : list record) (s : store) (it : item) :
  it ∈ (hydrateAll recs s).1 ->
  shows s it /\ exists rec, rec ∈ recs /\ rec_id rec = Item.id it.
Proof.
  revert s. induction recs as [|rec recs IH]; intros s; simpl.
  - intros H. by apply elem_of_nil in H.
  - destruct (hydrateAll recs (getRating (rec_id rec) s)) as [its s'] eqn:E.
    simpl. intros H. apply elem_of_cons in H as [->|H].
    + split; [|exists rec; split; [by left|done]].
      unfold shows. simpl. by rewrite !getRating_obj.
    + specialize (IH (getRating (rec_id rec) s) ). rewrite E in IH.
      destruct (IH H) as [H1 (r & Hr & Hid)]. split.
      * eapply shows_veq; [|exact H1]. intros k. apply getRating_obj.
      * exists r. split; [by right|done].
Qed.

Lemma nextPair_synced (w : app) (g : rng) :
  display_synced w -> display_synced (nextPair w g).1.
Proof.
  intros H. unfold nextPair. destruct (_ <? _)%nat; [done|].
  rewrite rand_bind_unfold.
  destruct (chooseNextPair (filtered w) (st w) g).1 as [[A B]|]; done.
Qed.

Lemma rebuildFiltered_synced (w : app) (g : rng) :
  display_synced (rebuildFiltered w g).1.
Proof.
  unfold rebuildFiltered.
  pose proof (hydrateAll_shows (RAW_RECORDS w) (ratings (st w))) as Hs.
  pose proof (hydrateAll_obj (RAW_RECORDS w) (ratings (st w))) as Ho.
  destruct (hydrateAll (RAW_RECORDS w) (ratings (st w))) as [its s'].
  apply nextPair_synced. unfold display_synced. simpl.
  apply Forall_forall. intros it Hit.
  apply list_elem_of_filter in Hit as [[Hid Hf] Hit].
  destruct (Hs it Hit) as [H1 H2].
  split; [done|]. split; [done|]. split; [|done].
  eapply shows_veq; [|exact H1]. intros k. symmetry. apply Ho.
Qed.

Lemma handle_synced (nts : R -> string) (e : event) (w : app) (g : rng) :
  display_synced w -> display_synced (handle nts e w g).1.
Proof.
  intros H. destruct e; simpl;
    try apply rebuildFiltered_synced; try (by apply nextPair_synced);
    try done.
  - destruct (vote_cases nts now choice w g) as [->|(e & w1 & -> & _)];
      [done|apply rebuildFiltered_synced].
  - unfold undo. destruct (_ =? _)%nat; [done|apply rebuildFiltered_synced].
Qed.

(** Property X6.  In every state of a session that starts at boot, each
    row of [filtered] has a non-empty id, passes the filters of the page,
    comes from a loaded record, and carries the mu, sigma, n and wins of
    the stored rating of its id. *)
Theorem display_shows_ratings (nts : R -> string) (steps : list step)
    (g : rng) (it : item) :
  let w := (session nts steps boot g).1 in
  it ∈ filtered w ->
  Item.id it <> "" /\ domFilter w it = true /\
  (exists rec, rec ∈ RAW_RECORDS w /\ rec_id rec = Item.id it) /\
  Item.mu it = mu (obj (ratings (st w)) (Item.id it)) /\
  Item.sigma it = sigma (obj (ratings (st w)) (Item.id it)) /\
  Item.n it = n (obj (ratings (st w)) (Item.id it)) /\
  Item.wins it = wins (obj (ratings (st w)) (Item.id it)).
Proof.
  intros w Hit.
  assert (H : display_synced w).
  { unfold w. clear Hit. clear w.
    assert (H0 : display_synced boot) by constructor.
    revert H0. generalize boot. revert g.
    induction steps as [|[e|clock] steps IH]; intros g w0 H0; [done| |].
    - simpl. rewrite rand_bind_unfold. apply IH. by apply handle_synced.
    - simpl. apply IH. constructor. }
  unfold display_synced in H. rewrite Forall_forall in H.
  destruct (H it Hit) as (H1 & H2 & (H3 & H4 & H5 & H6) & H7). done.
Qed.

Lemma run_undos (nts : R -> string) (k : nat) :
  forall (w : app) (g : rng),
    (k <= length (history (st w)))%nat ->
    (0 < k)%nat \/ in_sync nts w ->
    let w' := (run nts (replicate k EUndo) w g).1 in
    history (st w') = take (length (history (st w)) - k) (history (st w)) /\
    in_sync nts w'.
Proof.
  induction k as [|k IH]; intros w g Hk Hs; simpl.
  - rewrite Nat.sub_0_r, firstn_all. split; [done|].
    destruct Hs as [Hs|Hs]; [lia|done].
  - rewrite rand_bind_unfold.
    pose proof (undo_history nts w g) as Hh.
    assert (Hne : history (st w) <> []).
    { intros E. rewrite E in Hk. simpl in Hk. lia. }
    pose proof (undo_rebuilds nts w g Hne) as Hsync.
    set (w1 := (undo nts w g).1) in *.
    assert (Hlen : length (history (st w1)) = (length (history (st w)) - 1)%nat).
    { rewrite Hh, length_take. lia. }
    destruct (IH w1 (undo nts w g).2) as [H1 H2]; [lia|by right|].
    split; [|done]. simpl in H1. rewrite H1, Hlen, Hh.
    rewrite take_take. f_equal. lia.
Qed.

(** Property X7.  In a state with ordinary ids, [k] undos in a row, for
    [k] between 1 and the length of the history, leave the history
    without its last [k] entries and the ratings equal, record by
    record, to the replay of what is left; undoing the whole history
    leaves it empty and every record at the default rating. *)
Theorem undo_steps_back (nts : R -> string) (k : nat) (w : app) (g : rng) :
  ordinary_app nts w ->
  (0 < k <= length (history (st w)))%nat ->
  let w' := (run nts (replicate k EUndo) w g).1 in
  history (st w') = take (length (history (st w)) - k) (history (st w)) /\
  (forall id, obj (ratings (st w')) id
              = obj (replayed nts (history (st w'))) id) /\
  (k = length (history (st w)) ->
   history (st w') = [] /\
   forall id, obj (ratings (st w')) id = default_rating).
Proof.
  intros _ [Hk1 Hk2] w'.
  destruct (run_undos nts k w g Hk2 (or_introl Hk1)) as [H1 H2].
  fold w' in H1, H2. split; [done|]. split; [exact H2|].
  intros ->. rewrite Nat.sub_diag in H1. simpl in H1. split; [done|].
  intros id. rewrite (H2 id), H1. reflexivity.
Qed.

Lemma normalize_shape (now : string) (h : jsval) (e : entry) :
  normalizeHistoryEntry now h = Some e ->
  Entry.choice e <> "" /\ nullish (Entry.ts e) = false /\
  (Entry.choice e = "NEITHER" -> Entry.neitherPenaltyApplied e = true) /\
  (Entry.outcome e <> None ->
   truthy (Entry.a e) = true /\ truthy (Entry.b e) = true).
Proof.
  intros He. pose proof (normalize_neither _ _ _ He) as Hn.
  destruct (normalize_fields _ _ _ He) as (Ha & Hb & Ho & Hab).
  revert He. unfold normalizeHistoryEntry.
  destruct (negb (truthy h) || negb (typeof_object h)); [discriminate|].
  destruct (_ && _); [discriminate|].
  intros [= <-]. cbn [Entry.choice Entry.ts Entry.outcome Entry.a Entry.b] in *.
  split; [|split; [|split]].
  - destruct (get h "choice") as [| | | |c| |];
      try (repeat destruct (is_number _ _); discriminate).
    destruct (String.eqb c "") eqn:Ec; simpl.
    + repeat destruct (is_number _ _); discriminate.
    + by apply String.eqb_neq in Ec.
  - destruct (nullish (get h "ts")) eqn:E; done.
  - exact Hn.
  - intros Hout. destruct Hab as [Hab|Hab]; [|exact Hab].
    exfalso. apply Hout. simpl in Ho. rewrite Ho.
    unfold stored_outcome. destruct (get h "outcome"); done.
Qed.

(** Property X8.  History normalization is idempotent: an entry that
    [normalizeHistoryEntry] produced, once stored and read back, is
    normalized to itself, whatever the clock. *)
Theorem normalization_idempotent (now now' : string) (h : jsval) (e : entry) :
  normalizeHistoryEntry now h = Some e ->
  normalizeHistoryEntry now' (stored_entry e) = Some e.
Proof.
  intros He. destruct (normalize_shape _ _ _ He) as (Hc & Hts & Hn & Hab).
  rewrite normalize_stored_entry by (by split).
  rewrite Hts. destruct e as [a b o c k f ts]. simpl in *. f_equal. f_equal.
  destruct (String.eqb c "NEITHER") eqn:E; [|done].
  apply String.eqb_eq in E. symmetry. by apply Hn.
Qed.


(* --------------------------------------------------------------------- *)
(** ** legacy/web/app.js: undo and agreement with the unified application *)
(* --------------------------------------------------------------------- *)

Section LegacyFacts.
Variable nts : R -> string.

Lemma legacy_replayEntry_ratings (t : state) (h : entry) :
  ratings (Legacy.replayEntry nts t h) = legacy_step nts h (ratings t).
Proof.
  unfold legacy_step, Legacy.replayEntry. destruct (Entry.outcome h); reflexivity.
Qed.

Lemma legacy_replayEntry_history (t : state) (h : entry) :
  history (Legacy.replayEntry nts t h) = history t ++ [h].
Proof. unfold Legacy.replayEntry. destruct (Entry.outcome h); reflexivity. Qed.

Lemma legacy_fold_ratings (hs : list entry) (t : state) :
  ratings (fold_left (Legacy.replayEntry nts) hs t)
  = fold_left (fun s h => legacy_step nts h s) hs (ratings t).
Proof.
  revert t. induction hs as [|h hs IH]; intros t; [done|].
  simpl. by rewrite IH, legacy_replayEntry_ratings.
Qed.

Lemma legacy_fold_history (hs : list entry) (t : state) :
  history (fold_left (Legacy.replayEntry nts) hs t) = history t ++ hs.
Proof.
  revert t. induction hs as [|h hs IH]; intros t; simpl.
  - by rewrite app_nil_r.
  - by rewrite IH, legacy_replayEntry_history, <- app_assoc.
Qed.

Lemma legacy_replayed_fold (hs : list entry) :
  Legacy.replayed nts hs = fold_left (fun s h => legacy_step nts h s) hs ∅.
Proof. unfold Legacy.replayed. by rewrite legacy_fold_ratings. Qed.

Lemma legacy_replayed_snoc (hs : list entry) (h : entry) :
  Legacy.replayed nts (hs ++ [h]) = legacy_step nts h (Legacy.replayed nts hs).
Proof. rewrite !legacy_replayed_fold. by rewrite fold_left_app. Qed.

Lemma penalize_veq (A B : string) (s1 s2 : store) :
  veq s1 s2 ->
  is_Some (s1 !! A) -> is_Some (s2 !! A) ->
  is_Some (s1 !! B) -> is_Some (s2 !! B) ->
  veq (Legacy.penalize A B s1) (Legacy.penalize A B s2).
Proof.
  intros H A1 A2 B1 B2. unfold Legacy.penalize.
  repeat (apply alter_veq; [|by rewrite ?alter_is_Some|by rewrite ?alter_is_Some]).
  exact H.
Qed.

Lemma penalize_is_Some (A B : string) (s : store) (c : string) :
  is_Some (Legacy.penalize A B s !! c) <-> is_Some (s !! c).
Proof. unfold Legacy.penalize. by rewrite !alter_is_Some. Qed.

Lemma legacy_step_veq (h : entry) (s1 s2 : store) :
  veq s1 s2 -> veq (legacy_step nts h s1) (legacy_step nts h s2).
Proof.
  intros H. unfold legacy_step, Legacy.replayEntry.
  destruct (Entry.outcome h) as [o|]; simpl; [|done].
  set (A := ToString nts (Entry.a h)). set (B := ToString nts (Entry.b h)).
  set (u1 := getRating B (getRating A s1)).
  set (u2 := getRating B (getRating A s2)).
  assert (Hu : veq u1 u2) by (by do 2 apply getRating_veq).
  assert (A1 : is_Some (u1 !! A)) by apply getRating_keeps, getRating_is_Some.
  assert (A2 : is_Some (u2 !! A)) by apply getRating_keeps, getRating_is_Some.
  assert (B1 : is_Some (u1 !! B)) by apply getRating_is_Some.
  assert (B2 : is_Some (u2 !! B)) by apply getRating_is_Some.
  assert (HP : veq
      (updatePair A B o (Some (BASE_K * Entry.kMult h)%R) u1)
      (updatePair A B o (Some (BASE_K * Entry.kMult h)%R) u2))
    by (by apply updatePair_veq).
  apply applyOutcomeCounters_veq;
    try destruct (Entry.neitherPenaltyApplied h);
    rewrite ?penalize_is_Some, ?updatePair_is_Some; try done.
  apply penalize_veq; rewrite ?updatePair_is_Some; done.
Qed.

(** What the legacy [vote] applies is what the legacy replay applies to
    the entry it records. *)
Lemma legacy_vote_step (now choice : string) (A B : item) (t t1 : state) :
  Legacy.vote now choice A B t = Some t1 ->
  exists e, history t1 = history t ++ [e] /\
            ratings t1 = legacy_step nts e (ratings t).
Proof.
  unfold Legacy.vote. destruct (Legacy.voteMap choice) as [cfg|]; [|discriminate].
  destruct (cfg_outcome cfg) as [o|] eqn:Ho; intros [= <-];
    eexists; (split; [reflexivity|]);
    unfold legacy_step, Legacy.replayEntry; reflexivity.
Qed.
End LegacyFacts.

(** Property X9.  In the legacy application, on ordinary ids, a vote
    keeps the ratings equal to the replay of the history, and undo right
    after a vote gives back the history and every record from before
    the vote, the flat penalty of a NEITHER vote included. *)
Theorem legacy_undo_round_trip (nts : R -> string) (now choice : string)
    (A B : item) (t t1 : state) :
  ordinary (Item.id A) -> ordinary (Item.id B) ->
  Forall (ordinary_entry nts) (history t) ->
  (forall id, obj (ratings t) id
              = obj (Legacy.replayed nts (history t)) id) ->
  Legacy.vote now choice A B t = Some t1 ->
  (forall id, obj (ratings t1) id
              = obj (Legacy.replayed nts (history t1)) id) /\
  exists t2,
    Legacy.undo nts t1 = Some t2 /\
    history t2 = history t /\
    forall id, obj (ratings t2) id = obj (ratings t) id.
Proof.
  intros _ _ _ Hsync Hvote.
  destruct (legacy_vote_step nts _ _ _ _ _ _ Hvote) as (e & Hh & Hr).
  split.
  - intros id. rewrite Hh, Hr, legacy_replayed_snoc.
    by apply legacy_step_veq.
  - unfold Legacy.undo. rewrite Hh, length_app. simpl.
    replace (length (history t) + 1 =? 0)%nat with false
      by (symmetry; apply Nat.eqb_neq; lia).
    replace (length (history t) + 1 - 1)%nat with (length (history t)) by lia.
    rewrite take_app_length. eexists. split; [reflexivity|]. split.
    + by rewrite legacy_fold_history.
    + intros id. rewrite legacy_fold_ratings. simpl.
      rewrite Hsync, legacy_replayed_fold. reflexivity.
Qed.

Lemma legacy_step_agrees (nts : R -> string) (h : entry) (s : store) :
  Entry.choice h <> "BOTH" -> Entry.choice h <> "NEITHER" ->
  legacy_step nts h s = entryStep nts h s.
Proof.
  intros H1 H2. unfold legacy_step, entryStep, Legacy.replayEntry, replayEntry.
  apply String.eqb_neq in H1, H2. rewrite H1, H2.
  destruct (Entry.outcome h); reflexivity.
Qed.

(** Property X10.  On ordinary ids the legacy and the unified application
    differ on joint votes only: their replays rebuild the same ratings
    from every history without BOTH and NEITHER entries, and on every
    other label their votes append the same entry and leave the same
    records. *)
Theorem legacy_unified_agree (nts : R -> string) :
  (forall hs : list entry,
     Forall (ordinary_entry nts) hs ->
     Forall (fun h => Entry.choice h <> "BOTH" /\ Entry.choice h <> "NEITHER")
            hs ->
     Legacy.replayed nts hs = replayed nts hs) /\
  (forall (now choice : string) (w : app) (g : rng) (A B : item) (t1 : state),
     currentPair w = Some (A, B) ->
     ordinary (Item.id A) -> ordinary (Item.id B) ->
     choice <> "BOTH" -> choice <> "NEITHER" ->
     Legacy.vote now choice A B (st w) = Some t1 ->
     history (st (vote now choice w g).1) = history t1 /\
     forall id, obj (ratings (st (vote now choice w g).1)) id
                = obj (ratings t1) id).
Proof.
  split.
  - intros hs _ H. rewrite legacy_replayed_fold. unfold replayed.
    generalize (∅ : store). induction H as [|h hs [H1 H2] Hhs IH]; intros s;
      [done|].
    simpl. rewrite legacy_step_agrees by done. apply IH.
  - intros now choice w g A B t1 Hcur _ _ H1 H2.
    unfold Legacy.vote, vote. rewrite Hcur.
    assert (Hmap : Legacy.voteMap choice = voteMap choice).
    { unfold Legacy.voteMap, voteMap. apply String.eqb_neq in H2.
      by rewrite H2. }
    rewrite Hmap. destruct (voteMap choice) as [cfg|] eqn:Hcfg; [|discriminate].
    assert (Hflag : cfg_neitherPenaltyApplied cfg = false).
    { unfold voteMap in Hcfg.
      repeat (destruct (String.eqb choice _); [by inversion Hcfg|]).
      discriminate. }
    apply String.eqb_neq in H1, H2. rewrite H1, H2, Hflag.
    destruct (cfg_outcome cfg) as [o|]; intros [= <-];
      (split; [by rewrite rebuildFiltered_history|]);
      intros id; by rewrite rebuildFiltered_obj.
Qed.


(* --------------------------------------------------------------------- *)
(** ** selector.js: orderByMuPriority *)
(* --------------------------------------------------------------------- *)

(** Property X11.  [shuffle(arr)] returns a rearrangement of [arr]: the
    same elements, each as often as in [arr], whatever the draws. *)
Theorem shuffle_permutes {A} (arr : list A) (g : rng) :
  (shuffle arr g).1 ≡ₚ arr /\ length (shuffle arr g).1 = length arr.
Proof.
  pose proof (shuffle_perm arr g) as H. split; [exact H|]. by rewrite H.
Qed.

Lemma insert_sorted_sorted {A} (cmp : A -> A -> R) (v : A) (l : list A) :
  consistent_cmp cmp ->
  StronglySorted (before cmp) l ->
  StronglySorted (before cmp) (insert_sorted cmp v l).
Proof.
  intros [Htot Htrans]. induction 1 as [|y l Hl IH Hy]; simpl.
  - repeat constructor.
  - destruct (Rlt_dec 0 (cmp v y)) as [Hlt|Hge].
    + constructor; [exact IH|].
      rewrite insert_sorted_perm. constructor; [by apply Htot|done].
    + assert (Hvy : before cmp v y) by (unfold before; lra).
      constructor; [by constructor|]. constructor; [done|].
      eapply Forall_impl; [exact Hy|]. intros z Hz. by eapply Htrans.
Qed.

Lemma sort_sorted {A} (cmp : A -> A -> R) (l : list A) :
  consistent_cmp cmp -> StronglySorted (before cmp) (sort cmp l).
Proof.
  intros H. unfold sort. induction l as [|y l IH]; simpl; [constructor|].
  by apply insert_sorted_sorted.
Qed.

(** The sort is stable: the elements that share a key keep their order. *)
Lemma insert_sorted_stable {A} (cmp : A -> A -> R) (P : A -> Prop)
    `{!forall a, Decision (P a)} (v : A) (l : list A) :
  (forall a b, P a -> P b -> ~ (0 < cmp a b)%R) ->
  filter P (insert_sorted cmp v l) = filter P (v :: l).
Proof.
  intros HP. induction l as [|y l IH]; simpl; [done|].
  destruct (Rlt_dec 0 (cmp v y)) as [Hlt|Hge]; [|done].
  rewrite filter_cons, IH. rewrite !filter_cons.
  destruct (decide (P y)) as [Hy|Hy], (decide (P v)) as [Hv|Hv]; try done.
  exfalso. by apply (HP v y).
Qed.

Lemma sort_stable {A} (cmp : A -> A -> R) (P : A -> Prop)
    `{!forall a, Decision (P a)} (l : list A) :
  (forall a b, P a -> P b -> ~ (0 < cmp a b)%R) ->
  filter P (sort cmp l) = filter P l.
Proof.
  intros HP. unfold sort. induction l as [|y l IH]; simpl; [done|].
  rewrite insert_sorted_stable by done. by rewrite !filter_cons, IH.
Qed.

Lemma StronglySorted_mono {A} (R1 R2 : A -> A -> Prop) (l : list A) :
  (forall a b, R1 a b -> R2 a b) -> StronglySorted R1 l -> StronglySorted R2 l.
Proof.
  intros H. induction 1 as [|y l Hl IH Hy]; constructor; [done|].
  eapply Forall_impl; [exact Hy|]. intros z. apply H.
Qed.

Lemma mu_ascending_consistent : consistent_cmp mu_ascending.
Proof. split; unfold mu_ascending; intros; lra. Qed.

Lemma mu_descending_consistent : consistent_cmp mu_descending.
Proof. split; unfold mu_descending; intros; lra. Qed.

(** Property X12.  [orderByMuPriority] returns a rearrangement of the
    items: by ascending mu under the priority [lowest], by descending mu
    under every priority other than [lowest] and [random]; both sorts
    keep items of equal mu in their order. *)
Theorem orderByMuPriority_sorted (items : list item) (st : state) (g : rng) :
  let out := (orderByMuPriority items st g).1 in
  out ≡ₚ items /\
  (getMuPriority st = "lowest" ->
   StronglySorted (fun a b => (Item.mu a <= Item.mu b)%R) out) /\
  (getMuPriority st <> "lowest" -> getMuPriority st <> "random" ->
   StronglySorted (fun a b => (Item.mu b <= Item.mu a)%R) out) /\
  (getMuPriority st <> "random" ->
   forall v : R,
     filter (fun a => Item.mu a = v) out = filter (fun a => Item.mu a = v) items).
Proof.
  intros out. split; [apply orderByMuPriority_perm|].
  unfold out, orderByMuPriority.
  destruct (String.eqb (getMuPriority st) "lowest") eqn:E1;
    [|destruct (String.eqb (getMuPriority st) "random") eqn:E2].
  - apply String.eqb_eq in E1. split; [|split].
    + intros _. eapply StronglySorted_mono; [|apply (sort_sorted mu_ascending), mu_ascending_consistent].
      unfold before, mu_ascending. intros a b. simpl. lra.
    + intros H. done.
    + intros _ v. apply (sort_stable mu_ascending).
      unfold mu_ascending. intros a b -> ->. lra.
  - apply String.eqb_eq in E2. apply String.eqb_neq in E1. repeat split; done.
  - apply String.eqb_neq in E1, E2. split; [done|]. split.
    + intros _ _. eapply StronglySorted_mono; [|apply (sort_sorted mu_descending), mu_descending_consistent].
      unfold before, mu_descending. intros a b. simpl. lra.
    + intros _ v. apply (sort_stable mu_descending).
      unfold mu_descending. intros a b -> ->. lra.
Qed.


(* --------------------------------------------------------------------- *)
(** ** selector.js: the groups of a Map *)
(* --------------------------------------------------------------------- *)

Lemma filter_none {A} (P : A -> Prop) `{!forall a, Decision (P a)} (l : list A) :
  (forall a, a ∈ l -> ~ P a) -> filter P l = [].
Proof.
  induction l as [|y l IH]; intros Hl; [done|].
  rewrite filter_cons. destruct (decide (P y)) as [Hy|Hy].
  - exfalso. apply (Hl y); [by left|done].
  - apply IH. intros a Ha. apply Hl. by right.
Qed.

Section GroupExact.
Context {K : Type} `{EqDecision K}.

Lemma group_add_keys (k : K) (v : item) (m : list (K * list item)) :
  map fst (group_add k v m)
  = if decide (k ∈ map fst m) then map fst m else map fst m ++ [k].
Proof.
  induction m as [|[k' grp] m IH]; simpl.
  - destruct (decide (k ∈ [])) as [H|H]; [by apply elem_of_nil in H|done].
  - destruct (decide (k = k')) as [->|Hne]; simpl.
    + destruct (decide (k' ∈ k' :: map fst m)) as [H|H]; [done|].
      exfalso. apply H. by left.
    + rewrite IH. destruct (decide (k ∈ map fst m)) as [H1|H1],
        (decide (k ∈ k' :: map fst m)) as [H2|H2]; try done.
      * exfalso. apply H2. by right.
      * exfalso. apply elem_of_cons in H2 as [?|?]; done.
Qed.

Lemma group_add_elem (k : K) (v : item) (m : list (K * list item))
    (k' : K) (grp' : list item) :
  NoDup (map fst m) ->
  (k', grp') ∈ group_add k v m ->
  (k' <> k /\ (k', grp') ∈ m) \/
  (k' = k /\ ((exists grp, (k, grp) ∈ m /\ grp' = grp ++ [v]) \/
              ((k ∉ map fst m) /\ grp' = [v]))).
Proof.
  induction m as [|[k0 g0] m IH]; simpl; intros Hnd Hin.
  - apply list_elem_of_singleton in Hin. injection Hin as -> ->.
    right. split; [done|]. right. split; [apply not_elem_of_nil|done].
  - apply NoDup_cons in Hnd as [Hk0 Hnd].
    destruct (decide (k = k0)) as [->|Hne].
    + apply elem_of_cons in Hin as [Hin|Hin].
      * injection Hin as -> ->. right. split; [done|]. left.
        exists g0. split; [by left|done].
      * left. split; [|by right]. intros ->. apply Hk0.
        apply list_elem_of_fmap. by exists (k0, grp').
    + apply elem_of_cons in Hin as [Hin|Hin].
      * injection Hin as -> ->. left. split; [done|by left].
      * destruct (IH Hnd Hin) as [[H1 H2]|[-> [(grp & H1 & H2)|[H1 H2]]]].
        -- left. split; [done|by right].
        -- right. split; [done|]. left. exists grp. split; [by right|done].
        -- right. split; [done|]. right. split; [|done].
           intros H3. apply elem_of_cons in H3 as [?|?]; done.
Qed.

Lemma groups_of_add (key : item -> K) (l : list item) (v : item)
    (m : list (K * list item)) :
  groups_of key l m -> groups_of key (l ++ [v]) (group_add (key v) v m).
Proof.
  intros (Hnd & Hgrp & Hkeys). split; [|split].
  - rewrite group_add_keys.
    destruct (decide (key v ∈ map fst m)) as [H1|H1]; [exact Hnd|].
    apply NoDup_app. split; [done|]. split; [|apply NoDup_singleton].
    intros k Hk Hk'. apply list_elem_of_singleton in Hk'. by subst.
  - intros k grp Hin.
    apply group_add_elem in Hin
      as [[H1 H2]|[-> [(grp0 & H1 & H2)|[H1 H2]]]]; [| | |done].
    + destruct (Hgrp _ _ H2) as [Hne ->]. split; [done|].
      rewrite filter_app, filter_cons, filter_nil.
      destruct (decide (key v = k)); [congruence|]. by rewrite app_nil_r.
    + destruct (Hgrp _ _ H1) as [Hne ->]. subst grp. split.
      * intros E. by apply app_eq_nil in E as [_ ?].
      * rewrite filter_app, filter_cons, filter_nil.
        destruct (decide (key v = key v)); done.
    + subst grp. split; [done|].
      rewrite filter_app, filter_cons, filter_nil.
      destruct (decide (key v = key v)); [|done].
      replace (filter (fun v0 => key v0 = key v) l) with (@nil item); [done|].
      symmetry. apply filter_none.
      intros u Hu E. apply H1. rewrite <- E. by apply Hkeys.
  - intros u Hu. rewrite group_add_keys.
    apply elem_of_app in Hu as [Hu|Hu].
    + destruct (decide _); [by apply Hkeys|].
      apply elem_of_app. left. by apply Hkeys.
    + apply list_elem_of_singleton in Hu. subst u.
      destruct (decide _) as [H1|H1]; [done|].
      apply elem_of_app. right. by left.
Qed.

Lemma groups_of_fold (key : item -> K) (l l0 : list item)
    (m : list (K * list item)) :
  groups_of key l0 m ->
  groups_of key (l0 ++ l) (fold_left (fun m v => group_add (key v) v m) l m).
Proof.
  revert l0 m. induction l as [|v l IH]; intros l0 m H; simpl.
  - by rewrite app_nil_r.
  - replace (l0 ++ v :: l) with ((l0 ++ [v]) ++ l) by (by rewrite <- app_assoc).
    apply IH. by apply groups_of_add.
Qed.

Lemma group_by_exact (key : item -> K) (items : list item) :
  groups_of key items (group_by key items).
Proof.
  apply (groups_of_fold key items [] []). split; [constructor|]. split.
  - intros k grp H. by apply elem_of_nil in H.
  - intros v H. by apply elem_of_nil in H.
Qed.

Lemma group_get_elem (k : K) (m : list (K * list item)) :
  NoDup (map fst m) ->
  forall grp, group_get k m = Some grp <-> (k, grp) ∈ m.
Proof.
  induction m as [|[k0 g0] m IH]; simpl; intros Hnd grp.
  - split; [discriminate|]. intros H. by apply elem_of_nil in H.
  - apply NoDup_cons in Hnd as [Hk0 Hnd].
    destruct (decide (k = k0)) as [->|Hne].
    + split.
      * intros [= ->]. by left.
      * intros H. apply elem_of_cons in H as [H|H]; [by injection H as ->|].
        exfalso. apply Hk0. apply list_elem_of_fmap. by exists (k0, grp).
    + rewrite IH by done. split; [by right|].
      intros H. apply elem_of_cons in H as [H|H]; [|done].
      injection H as -> ->. done.
Qed.

Lemma group_get_key (k : K) (m : list (K * list item)) :
  k ∈ map fst m -> is_Some (group_get k m).
Proof.
  induction m as [|[k0 g0] m IH]; simpl; [by intros H; apply elem_of_nil in H|].
  intros H. destruct (decide (k = k0)); [eauto|].
  apply elem_of_cons in H as [?|?]; [done|]. by apply IH.
Qed.

(** The group of a key that occurs is the items with that key. *)
Lemma group_by_get (key : item -> K) (items : list item) (k : K) :
  k ∈ map fst (group_by key items) ->
  group_get k (group_by key items) = Some (filter (fun v => key v = k) items)
  /\ filter (fun v => key v = k) items <> [].
Proof.
  intros Hk. destruct (group_by_exact key items) as (Hnd & Hgrp & _).
  destruct (group_get_key _ _ Hk) as [grp Hg].
  pose proof Hg as Hin. apply group_get_elem in Hin; [|done].
  destruct (Hgrp _ _ Hin) as [Hne ->]. done.
Qed.

Lemma group_by_keys (key : item -> K) (items : list item) (k : K) :
  k ∈ map fst (group_by key items) <-> exists v, v ∈ items /\ key v = k.
Proof.
  destruct (group_by_exact key items) as (Hnd & Hgrp & Hkeys). split.
  - intros Hk. apply list_elem_of_fmap in Hk as ([k' grp] & -> & Hin).
    destruct (Hgrp _ _ Hin) as [Hne Heq]. simpl.
    destruct grp as [|v grp]; [done|]. exists v.
    assert (Hv : v ∈ filter (fun v0 => key v0 = k') items)
      by (rewrite <- Heq; by left).
    by apply list_elem_of_filter in Hv as [? ?].
  - intros (v & Hv & <-). by apply Hkeys.
Qed.
End GroupExact.


(* --------------------------------------------------------------------- *)
(** ** selector.js: selectGroupByN *)
(* --------------------------------------------------------------------- *)

Lemma Z_ascending_consistent : consistent_cmp Z_ascending.
Proof. split; unfold Z_ascending; intros; lra. Qed.

Lemma sorted_Z (l : list Z) : StronglySorted Z.le (sort Z_ascending l).
Proof.
  eapply StronglySorted_mono; [|apply (sort_sorted Z_ascending), Z_ascending_consistent].
  unfold before, Z_ascending. intros a b Hab. apply le_IZR. lra.
Qed.

Lemma randInt_lt (n : nat) (g : rng) : (0 < n)%nat -> ((randInt n g).1 < n)%nat.
Proof.
  intros Hn. unfold randInt. rewrite rand_bind_unfold.
  unfold mret, rand_ret. simpl.
  destruct (n =? 0)%nat eqn:E; [apply Nat.eqb_eq in E; lia|].
  apply Nat.mod_upper_bound. lia.
Qed.

Lemma sorted_first (l : list Z) (k v : Z) :
  StronglySorted Z.le l -> l !! 0%nat = Some k -> v ∈ l -> (k <= v)%Z.
Proof.
  intros Hs Hk Hv. destruct l as [|k' l]; [done|]. injection Hk as ->.
  apply StronglySorted_inv in Hs as [_ Hall].
  apply elem_of_cons in Hv as [->|Hv]; [lia|].
  rewrite Forall_forall in Hall. by apply Hall.
Qed.

Lemma sorted_last (l : list Z) (k v : Z) :
  StronglySorted Z.le l -> l !! (length l - 1)%nat = Some k -> v ∈ l ->
  (v <= k)%Z.
Proof.
  intros Hs Hk Hv.
  assert (Hl : l = take (length l - 1) l ++ [k]).
  { rewrite <- (take_drop (length l - 1) l) at 1. f_equal.
    apply list_eq. intros i. rewrite lookup_drop.
    destruct i as [|i]; simpl.
    - by rewrite Nat.add_0_r.
    - rewrite lookup_nil. apply lookup_ge_None. lia. }
  rewrite Hl in Hs, Hv. apply elem_of_app in Hv as [Hv|Hv].
  - eapply (StronglySorted_app_1_elem_of Z.le); [exact Hs|exact Hv|by left].
  - apply list_elem_of_singleton in Hv. lia.
Qed.

Lemma pickTargetN_spec (strategy : string) (values : list Z) (g : rng) :
  values <> [] -> StronglySorted Z.le values ->
  exists k, (pickTargetN strategy values g).1 = Some k /\ k ∈ values /\
            (strategy = "maximal" -> forall v, v ∈ values -> (v <= k)%Z) /\
            (strategy <> "maximal" -> strategy <> "random" ->
             forall v, v ∈ values -> (k <= v)%Z).
Proof.
  intros Hne Hs. unfold pickTargetN.
  assert (Hlen : (0 < length values)%nat) by (destruct values; [done|simpl; lia]).
  destruct (String.eqb strategy "maximal") eqn:E1;
    [|destruct (String.eqb strategy "random") eqn:E2].
  - apply String.eqb_eq in E1.
    destruct (lookup_lt_is_Some_2 values (length values - 1)) as [k Hk]; [lia|].
    exists k. unfold mret, rand_ret. simpl. split; [done|].
    split; [by eapply list_elem_of_lookup_2|]. split.
    + intros _ v Hv. by eapply sorted_last.
    + intros H. done.
  - apply String.eqb_eq in E2. rewrite rand_bind_unfold.
    destruct (lookup_lt_is_Some_2 values (randInt (length values) g).1)
      as [k Hk]; [by apply randInt_lt|].
    exists k. unfold mret, rand_ret. simpl. split; [done|].
    split; [by eapply list_elem_of_lookup_2|]. split.
    + intros ->. discriminate.
    + intros _ H. done.
  - apply String.eqb_neq in E1, E2.
    destruct (lookup_lt_is_Some_2 values 0) as [k Hk]; [lia|].
    exists k. unfold mret, rand_ret. simpl. split; [done|].
    split; [by eapply list_elem_of_lookup_2|]. split.
    + intros H. done.
    + intros _ _ v Hv. by eapply sorted_first.
Qed.

Lemma selectGroupByN_exact (items : list item) (st : state) (g : rng) :
  let out := (selectGroupByN items st g).1 in
  ((length items <= 1)%nat -> out = items) /\
  ((2 <= length items)%nat ->
   exists k : Z,
     out = filter (fun v => Item.n v = k) items /\ out <> [] /\
     (getNStrategy st = "maximal" ->
      forall v, v ∈ items -> (Item.n v <= k)%Z) /\
     (getNStrategy st <> "maximal" -> getNStrategy st <> "random" ->
      forall v, v ∈ items -> (k <= Item.n v)%Z)).
Proof.
  intros out. unfold out, selectGroupByN. split.
  - intros H. apply Nat.leb_le in H. by rewrite H.
  - intros H. replace (length items <=? 1)%nat with false
      by (symmetry; apply Nat.leb_gt; lia).
    rewrite rand_bind_unfold.
    set (grouped := group_by Item.n items).
    set (nValues := sort Z_ascending (map fst grouped)).
    assert (Hkeys : forall k, k ∈ nValues <-> exists v, v ∈ items /\ Item.n v = k).
    { intros k. unfold nValues. rewrite sort_perm. apply group_by_keys. }
    assert (Hne : nValues <> []).
    { destruct items as [|v items]; [simpl in H; lia|].
      intros E. assert (Hin : Item.n v ∈ nValues)
        by (apply Hkeys; exists v; split; [by left|done]).
      rewrite E in Hin. by apply elem_of_nil in Hin. }
    destruct (pickTargetN_spec (getNStrategy st) nValues g Hne (sorted_Z _))
      as (k & Hk & Hin & Hmax & Hmin).
    rewrite Hk. unfold mret, rand_ret. simpl.
    assert (Hk' : k ∈ map fst grouped) by (unfold nValues in Hin; by rewrite sort_perm in Hin).
    destruct (group_by_get Item.n items k Hk') as [Hget Hnonempty].
    fold grouped in Hget. rewrite Hget. simpl.
    exists k. split; [done|]. split; [done|]. split.
    + intros E v Hv. apply Hmax; [done|]. apply Hkeys. by exists v.
    + intros E1 E2 v Hv. apply Hmin; [done..|]. apply Hkeys. by exists v.
Qed.


(** Property X13.  [selectGroupByN(items, state)] returns a pool of at
    most one item as it is.  Of a larger pool it returns one whole bucket:
    the items whose [n] is some value [k], in their order and never none;
    [k] is the largest [n] of the pool under the strategy [maximal], and
    the smallest under every strategy other than [maximal] and
    [random]. *)
Theorem selectGroupByN_bucket (items : list item) (st : state) (g : rng) :
  let out := (selectGroupByN items st g).1 in
  ((length items <= 1)%nat -> out = items) /\
  ((2 <= length items)%nat ->
   exists k : Z,
     out = filter (fun v => Item.n v = k) items /\ out <> [] /\
     (getNStrategy st = "maximal" ->
      forall v, v ∈ items -> (Item.n v <= k)%Z) /\
     (getNStrategy st <> "maximal" -> getNStrategy st <> "random" ->
      forall v, v ∈ items -> (k <= Item.n v)%Z)).
Proof. exact (selectGroupByN_exact items st g). Qed.

(* --------------------------------------------------------------------- *)
(** ** selector.js: pickTwoFromPool and random mode *)
(* --------------------------------------------------------------------- *)

Lemma pickNotIn_Some (arr : list item) (banned : gset string) (v : item) :
  pickNotIn arr banned = Some v -> v ∈ arr /\ Item.id v ∉ banned.
Proof.
  unfold pickNotIn. intros H. apply find_some in H as [H1 H2].
  split; [by apply list_elem_of_In|]. by apply bool_decide_eq_true in H2.
Qed.

Lemma pickNotIn_None (arr : list item) (banned : gset string) (v : item) :
  pickNotIn arr banned = None -> v ∈ arr -> Item.id v ∈ banned.
Proof.
  unfold pickNotIn. intros H Hv. apply list_elem_of_In in Hv.
  pose proof (find_none _ _ H v Hv) as Hb. simpl in Hb.
  apply bool_decide_eq_false in Hb. by apply dec_stable.
Qed.

(** The pick [pickNotIn(arr, banned) ?? arr[0]]: a member of [arr], outside
    [banned] unless all of [arr] is banned. *)
Lemma pick_spec (arr : list item) (banned : gset string) (v : item) :
  orElse (pickNotIn arr banned) (head arr) = Some v ->
  v ∈ arr /\ (Item.id v ∈ banned -> forall u, u ∈ arr -> Item.id u ∈ banned).
Proof.
  unfold orElse. destruct (pickNotIn arr banned) as [u|] eqn:E.
  - intros [= <-]. apply pickNotIn_Some in E as [H1 H2]. split; [done|].
    intros H. done.
  - intros H. split; [by apply head_Some_elem_of|].
    intros _ u Hu. by eapply pickNotIn_None.
Qed.

Lemma pickTwoFromPool_exact (pool : list item) (lastIds : gset string)
    (st : state) (g : rng) :
  let bucket := (selectGroupByN pool st g).1 in
  let r := (pickTwoFromPool pool lastIds st g).1 in
  (r = None <->
   forall a b, a ∈ bucket -> b ∈ bucket -> Item.id a = Item.id b) /\
  (forall a b, r = Some (a, b) ->
     a ∈ bucket /\ b ∈ bucket /\ Item.id a <> Item.id b /\
     (Item.id a ∈ lastIds -> forall v, v ∈ bucket -> Item.id v ∈ lastIds) /\
     (Item.id b ∈ lastIds ->
      forall v, v ∈ bucket -> Item.id v <> Item.id a -> Item.id v ∈ lastIds)).
Proof.
  intros bucket r. unfold r, pickTwoFromPool. rewrite rand_bind_unfold.
  fold bucket.
  destruct (orElse (pickNotIn bucket lastIds) (head bucket)) as [f|] eqn:Ef.
  - pose proof (pick_spec _ _ _ Ef) as [Hf Hfb].
    set (second := filter (fun v => Item.id v <> Item.id f) bucket).
    destruct (length second =? 0)%nat eqn:El.
    + apply Nat.eqb_eq in El. apply length_zero_iff_nil in El.
      split; [|intros a b Hr; unfold mret, rand_ret in Hr; discriminate].
      split; [|done]. intros _ a b Ha Hb.
      assert (Ha' : Item.id a = Item.id f).
      { destruct (decide (Item.id a = Item.id f)) as [E|E]; [done|].
        assert (a ∈ second) by (by apply list_elem_of_filter).
        rewrite El in H. by apply elem_of_nil in H. }
      assert (Hb' : Item.id b = Item.id f).
      { destruct (decide (Item.id b = Item.id f)) as [E|E]; [done|].
        assert (b ∈ second) by (by apply list_elem_of_filter).
        rewrite El in H. by apply elem_of_nil in H. }
      congruence.
    + apply Nat.eqb_neq in El.
      assert (Hne : second <> []) by (intros E; rewrite E in El; done).
      destruct (pick_is_Some second lastIds Hne) as [v Ev]. rewrite Ev.
      pose proof (pick_spec _ _ _ Ev) as [Hv Hvb].
      apply list_elem_of_filter in Hv as [Hvf Hv].
      split.
      * split; [intros Hr; unfold mret, rand_ret in Hr; discriminate|].
        intros H. exfalso. apply Hvf. by apply H.
      * intros a b Hr. unfold mret, rand_ret in Hr. simpl in Hr.
        injection Hr as <- <-. repeat split; try done.
        intros Hb u Hu Huf. apply Hvb; [done|]. by apply list_elem_of_filter.
  - split; [|intros a b Hr; unfold mret, rand_ret in Hr; discriminate].
    split; [|done]. intros _ a b Ha _.
    assert (bucket = []) as E.
    { unfold orElse in Ef. destruct (pickNotIn bucket lastIds); [done|].
      by destruct bucket. }
    rewrite E in Ha. by apply elem_of_nil in Ha.
Qed.

(** Property X14.  [pickTwoFromPool(pool, lastIds, state)] returns null
    exactly when the bucket that [selectGroupByN] picks holds no two
    items with different ids.  A returned pair consists of two items of
    that bucket with different ids; the first is one of the last pair
    only if every item of the bucket is, and the second only if every
    other item of the bucket is. *)
Theorem pickTwoFromPool_spec (pool : list item) (lastIds : gset string)
    (st : state) (g : rng) :
  let bucket := (selectGroupByN pool st g).1 in
  let r := (pickTwoFromPool pool lastIds st g).1 in
  (r = None <->
   forall a b, a ∈ bucket -> b ∈ bucket -> Item.id a = Item.id b) /\
  (forall a b, r = Some (a, b) ->
     a ∈ bucket /\ b ∈ bucket /\ Item.id a <> Item.id b /\
     (Item.id a ∈ lastIds -> forall v, v ∈ bucket -> Item.id v ∈ lastIds) /\
     (Item.id b ∈ lastIds ->
      forall v, v ∈ bucket -> Item.id v <> Item.id a -> Item.id v ∈ lastIds)).
Proof. exact (pickTwoFromPool_exact pool lastIds st g). Qed.

Lemma chooseNextPair_random_unfold (items : list item) (st : state) (g : rng) :
  default "active" (mode st) = "random" ->
  (2 <= length (applyWinsFilter items st))%nat ->
  exists prioritized lastIds g',
    prioritized ≡ₚ applyWinsFilter items st /\
    (chooseNextPair items st g).1
    = (pickTwoFromPool prioritized lastIds st g').1.
Proof.
  intros Hmode Hlen. unfold chooseNextPair.
  set (eff := applyWinsFilter items st) in *.
  assert (Hitems : (length items <? 2)%nat = false).
  { apply Nat.ltb_ge. etrans; [exact Hlen|].
    unfold eff, applyWinsFilter. destruct (negb _); [done|].
    apply length_filter. }
  rewrite Hitems.
  replace (length eff <? 2)%nat with false by (symmetry; by apply Nat.ltb_ge).
  rewrite rand_bind_unfold.
  pose proof (orderByMuPriority_perm eff st g) as Hperm.
  set (prioritized := (orderByMuPriority eff st g).1) in *.
  set (g1 := (orderByMuPriority eff st g).2).
  rewrite Hmode.
  change (String.eqb "random" "resolve_ties") with false.
  change (String.eqb "random" "random") with true. cbv iota.
  rewrite rand_bind_unfold. unfold mret at 1, rand_ret at 1. cbn [fst snd].
  eexists prioritized, _, g1. split; [done|reflexivity].
Qed.

(** Property X15.  In [random] mode, under a strategy other than
    [maximal] and [random], [chooseNextPair] returns a pair exactly when
    two eligible items with different ids both have the least [n] of the
    eligible items; both items of a returned pair have that least [n]. *)
Theorem chooseNextPair_random_mode (items : list item) (st : state) (g : rng) :
  default "active" (mode st) = "random" ->
  getNStrategy st <> "maximal" -> getNStrategy st <> "random" ->
  let eff := applyWinsFilter items st in
  let r := (chooseNextPair items st g).1 in
  (is_Some r <->
   exists a b, a ∈ eff /\ b ∈ eff /\ Item.id a <> Item.id b /\
               Item.n a = Item.n b /\
               forall v, v ∈ eff -> (Item.n a <= Item.n v)%Z) /\
  (forall a b, r = Some (a, b) ->
     Item.n a = Item.n b /\ forall v, v ∈ eff -> (Item.n a <= Item.n v)%Z).
Proof.
  intros Hmode Hs1 Hs2 eff r.
  destruct (decide (2 <= length eff)%nat) as [Hlen|Hlen].
  - destruct (chooseNextPair_random_unfold items st g Hmode Hlen)
      as (prioritized & lastIds & g' & Hperm & Hr).
    fold r in Hr. fold eff in Hperm.
    destruct (selectGroupByN_exact prioritized st g') as [_ Hb].
    destruct Hb as (k & Hbucket & Hne & _ & Hmin);
      [by rewrite Hperm|].
    specialize (Hmin Hs1 Hs2).
    destruct (pickTwoFromPool_exact prioritized lastIds st g') as [HNone HSome].
    rewrite <- Hr in HNone, HSome. rewrite Hbucket in HNone, HSome.
    assert (Hin : forall v, v ∈ filter (fun v => Item.n v = k) prioritized <->
                            v ∈ eff /\ Item.n v = k).
    { intros v. rewrite list_elem_of_filter, Hperm. tauto. }
    assert (Hk : forall v, v ∈ eff -> (k <= Item.n v)%Z).
    { intros v Hv. apply Hmin. by rewrite Hperm. }
    assert (HS : forall a b, r = Some (a, b) ->
              a ∈ eff /\ b ∈ eff /\ Item.id a <> Item.id b /\
              Item.n a = k /\ Item.n b = k).
    { intros a b Hab. destruct (HSome a b Hab) as (Ha & Hb & Hid & _).
      apply Hin in Ha as [Ha1 Ha2], Hb as [Hb1 Hb2]. done. }
    split.
    + split.
      * intros [[a b] Hab]. destruct (HS a b Hab) as (Ha & Hb & Hid & Ea & Eb).
        exists a, b. repeat split; try done; [congruence|].
        intros v Hv. rewrite Ea. by apply Hk.
      * intros (a & b & Ha & Hb & Hid & Hn & Hle).
        destruct r as [p|] eqn:Er; [eauto|]. exfalso. apply Hid.
        assert (Ea : Item.n a = k).
        { destruct (decide (Item.n a = k)) as [E|E]; [done|].
          rewrite Hbucket in Hne.
          destruct (filter (fun v => Item.n v = k) prioritized) as [|u us] eqn:Ef;
            [done|].
          assert (Hu : u ∈ eff /\ Item.n u = k)
            by (apply Hin; by left).
          destruct Hu as [Hu1 Hu2]. pose proof (Hle u Hu1). pose proof (Hk a Ha). lia. }
        apply (proj1 HNone eq_refl); apply Hin; split; try done. congruence.
    + intros a b Hab. destruct (HS a b Hab) as (Ha & Hb & Hid & Ea & Eb).
      split; [congruence|]. intros v Hv. rewrite Ea. by apply Hk.
  - assert (Hr : r = None).
    { unfold r, chooseNextPair. destruct (length items <? 2)%nat; [done|].
      fold eff. replace (length eff <? 2)%nat with true
        by (symmetry; apply Nat.ltb_lt; lia). done. }
    rewrite Hr. split; [|intros a b H; discriminate].
    split; [intros [? ?]; discriminate|].
    intros (a & b & Ha & Hb & Hid & _). exfalso. apply Hlen.
    destruct eff as [|u [|u' eff']]; simpl; try lia.
    + by apply elem_of_nil in Ha.
    + apply list_elem_of_singleton in Ha, Hb. congruence.
Qed.


(* --------------------------------------------------------------------- *)
(** ** selector.js: the opponent of the active selection *)
(* --------------------------------------------------------------------- *)

(** The selection of [chooseNextPair] outside the modes [random] and
    [resolve_ties]: [A] is one of the prioritized items and [B] comes
    from the pool of opponents of [A]. *)
Lemma chooseNextPair_active (items : list item) (st : state) (g : rng)
    (A B : item) :
  default "active" (mode st) <> "random" ->
  default "active" (mode st) <> "resolve_ties" ->
  (chooseNextPair items st g).1 = Some (A, B) ->
  exists prioritized,
    prioritized ≡ₚ applyWinsFilter items st /\
    A ∈ prioritized /\
    B ∈ map x (opponent_pool prioritized A).
Proof.
  intros Hm1 Hm2. unfold chooseNextPair.
  destruct (length items <? 2)%nat; [discriminate|].
  set (eff := applyWinsFilter items st).
  destruct (length eff <? 2)%nat; [discriminate|].
  rewrite rand_bind_unfold.
  pose proof (orderByMuPriority_perm eff st g) as Hperm.
  set (prioritized := (orderByMuPriority eff st g).1) in *.
  set (g1 := (orderByMuPriority eff st g).2).
  set (lastIds := list_to_set (filter (fun s : string => s <> "")
                                      (map Item.id (lastPair st))) : gset string).
  set (md := default "active" (mode st)) in *.
  apply String.eqb_neq in Hm1, Hm2. rewrite Hm1, Hm2.
  rewrite rand_bind_unfold.
  change ((mret None : Rand (option (item * item))) g1) with
    (@None (item * item), g1). cbn [fst snd].
  set (focusCount := Nat.max 2 ((2 * length prioritized + 4) / 5)).
  set (focusPool := take focusCount prioritized).
  set (byUnc := sort (fun x0 y : item => (Item.sigma y - Item.sigma x0)%R) focusPool).
  set (poolA := take (Nat.min 40 (length byUnc)) byUnc).
  rewrite rand_bind_unfold.
  destruct (selectGroupByN_spec poolA st g1) as [HAsub _].
  set (poolAByN := (selectGroupByN poolA st g1).1) in *.
  set (g3 := (selectGroupByN poolA st g1).2).
  assert (HpoolA : poolA ⊆ prioritized).
  { unfold poolA. etrans; [apply subseteq_take|].
    unfold byUnc. intros v Hv. rewrite sort_perm in Hv.
    by apply subseteq_take in Hv. }
  destruct (orElse (pickNotIn poolAByN lastIds) (head poolAByN)) as [A0|] eqn:EA;
    [|intros Hq; unfold mret, rand_ret in Hq; simpl in Hq; discriminate].
  assert (HA : A0 ∈ prioritized) by (apply HpoolA, HAsub; by apply pick_elem in EA).
  fold (opponent_candidates prioritized A0).
  change (take 30 (if (0 <? length (filter (fun c => Item.cat1 (x c) <> Item.cat1 A0)
                                        (opponent_candidates prioritized A0)))%nat
                    then filter (fun c => Item.cat1 (x c) <> Item.cat1 A0)
                                (opponent_candidates prioritized A0)
                    else opponent_candidates prioritized A0))
    with (opponent_pool prioritized A0).
  set (poolB := opponent_pool prioritized A0).
  rewrite rand_bind_unfold.
  match goal with |- context [(?m g3).1] => set (bubble := (m g3).1);
                                            set (g4 := (m g3).2) end.
  assert (Hbub : forall B2, bubble = Some B2 -> B2 ∈ map x poolB).
  { unfold bubble. intros B2.
    destruct (String.eqb md "bubble");
      [|intros Hq; unfold mret, rand_ret in Hq; simpl in Hq; discriminate].
    destruct (bool_decide (Item.id A0 ∈ _));
      [|intros Hq; unfold mret, rand_ret in Hq; simpl in Hq; discriminate].
    destruct (0 <? length (filter _ poolB))%nat;
      [|intros Hq; unfold mret, rand_ret in Hq; simpl in Hq; discriminate].
    rewrite rand_bind_unfold.
    match goal with |- context [selectGroupByN ?l st g3] =>
      destruct (selectGroupByN_spec l st g3) as [Hs _];
      set (chosen := (selectGroupByN l st g3).1) in * end.
    intros Hq. unfold mret, rand_ret in Hq. simpl in Hq.
    apply pick_elem, Hs in Hq.
    apply list_elem_of_In, in_map_iff in Hq as (c & <- & Hc).
    apply list_elem_of_In in Hc. apply list_elem_of_filter in Hc as [_ Hc].
    apply list_elem_of_In, in_map_iff. exists c. split; [done|].
    by apply list_elem_of_In. }
  destruct bubble as [B2|].
  { intros Hq. unfold mret, rand_ret in Hq. simpl in Hq. injection Hq as <- <-.
    exists prioritized. repeat split; try done. by apply Hbub. }
  rewrite rand_bind_unfold.
  destruct (selectGroupByN_spec (map x poolB) st g4) as [HFsub _].
  set (finalBPool := (selectGroupByN (map x poolB) st g4).1) in *.
  destruct (orElse (pickNotIn finalBPool lastIds) (head finalBPool))
    as [B0|] eqn:EB;
    [|intros Hq; unfold mret, rand_ret in Hq; simpl in Hq; discriminate].
  intros Hq. unfold mret, rand_ret in Hq. simpl in Hq. injection Hq as <- <-.
  exists prioritized. repeat split; try done.
  apply HFsub. by eapply pick_elem.
Qed.

Lemma candidate_order_consistent : consistent_cmp candidate_order.
Proof.
  split; unfold candidate_order.
  - intros a b. repeat destruct (Req_dec_T _ _); lra.
  - intros a b c. repeat destruct (Req_dec_T _ _); lra.
Qed.

Lemma candidate_order_closeness (u v : candidate) :
  before candidate_order u v -> (closeness u <= closeness v)%R.
Proof. unfold before, candidate_order. destruct (Req_dec_T _ _); lra. Qed.

Lemma StronglySorted_filter {A} (R0 : A -> A -> Prop) (P : A -> Prop)
    `{!forall a, Decision (P a)} (l : list A) :
  StronglySorted R0 l -> StronglySorted R0 (filter P l).
Proof.
  induction 1 as [|y l Hl IH Hy]; [constructor|].
  rewrite filter_cons. destruct (decide (P y)); [|done].
  constructor; [done|]. apply Forall_forall. intros z Hz.
  apply list_elem_of_filter in Hz as [_ Hz].
  rewrite Forall_forall in Hy. by apply Hy.
Qed.

Lemma filter_fmap_comm {A B} (f : A -> B) (P : B -> Prop)
    `{!forall b, Decision (P b)} (l : list A) :
  filter P (map f l) = map f (filter (fun a => P (f a)) l).
Proof.
  induction l as [|y l IH]; [done|]. simpl. rewrite !filter_cons.
  destruct (decide (P (f y))); simpl; by rewrite IH.
Qed.

(** In a sorted list, the elements that must stand strictly before the
    one at index [i] are fewer than [i + 1]. *)
Lemma sorted_closer_count (l : list candidate) (i : nat) (c : candidate) :
  StronglySorted (before candidate_order) l ->
  l !! i = Some c ->
  (length (filter (fun c' => (closeness c' < closeness c)%R) l) <= i)%nat.
Proof.
  intros Hs Hi.
  rewrite <- (take_drop i l) in Hs |- *.
  rewrite filter_app, length_app.
  assert (Hd : filter (fun c' => (closeness c' < closeness c)%R) (drop i l) = []).
  { apply filter_none. intros c' Hc'.
    assert (Hdrop : drop i l = c :: drop (S i) l).
    { by apply drop_S. }
    rewrite Hdrop in Hc', Hs.
    apply elem_of_cons in Hc' as [->|Hc']; [lra|].
    apply StronglySorted_app_1_r in Hs.
    apply StronglySorted_inv in Hs as [_ Hall].
    rewrite Forall_forall in Hall.
    pose proof (candidate_order_closeness _ _ (Hall _ Hc')). lra. }
  rewrite Hd. simpl. rewrite Nat.add_0_r.
  etrans; [apply length_filter|]. rewrite length_take. lia.
Qed.

Lemma opponent_candidates_perm (prioritized : list item) (A : item) :
  opponent_candidates prioritized A ≡ₚ
  map (fun v => mkCandidate v (Rabs (Item.mu v - Item.mu A)) (Item.sigma v))
      (filter (fun v => Item.id v <> Item.id A) prioritized).
Proof. apply sort_perm. Qed.

(** Property X16.  In the modes other than [random] and [resolve_ties],
    the opponent B of a returned pair (A, B) is an eligible item other
    than A, of another primary category than A whenever such an item
    exists, and among the items on offer fewer than 30 are strictly
    closer to A in mu than B is. *)
Theorem chooseNextPair_opponent (items : list item) (st : state) (g : rng)
    (A B : item) :
  default "active" (mode st) <> "random" ->
  default "active" (mode st) <> "resolve_ties" ->
  (chooseNextPair items st g).1 = Some (A, B) ->
  let others :=
    filter (fun v => Item.id v <> Item.id A) (applyWinsFilter items st) in
  let diverse := filter (fun v => Item.cat1 v <> Item.cat1 A) others in
  let offered := match diverse with [] => others | _ => diverse end in
  B ∈ offered /\
  (diverse <> [] -> Item.cat1 B <> Item.cat1 A) /\
  (length (filter (fun v => (Rabs (Item.mu v - Item.mu A)
                             < Rabs (Item.mu B - Item.mu A))%R) offered)
   < 30)%nat.
Proof.
  intros Hm1 Hm2 Hr others diverse offered.
  destruct (chooseNextPair_active items st g A B Hm1 Hm2 Hr)
    as (prioritized & Hperm & HA & HB).
  set (mk := fun v => mkCandidate v (Rabs (Item.mu v - Item.mu A)) (Item.sigma v)).
  set (others' := filter (fun v => Item.id v <> Item.id A) prioritized).
  set (diverse' := filter (fun v => Item.cat1 v <> Item.cat1 A) others').
  assert (Ho : others' ≡ₚ others) by (unfold others', others; by rewrite Hperm).
  assert (Hd : diverse' ≡ₚ diverse) by (unfold diverse', diverse; by rewrite Ho).
  set (cands := opponent_candidates prioritized A) in *.
  assert (Hcs : StronglySorted (before candidate_order) cands)
    by apply sort_sorted, candidate_order_consistent.
  assert (Hcp : cands ≡ₚ map mk others') by apply opponent_candidates_perm.
  set (dc := filter (fun c => Item.cat1 (x c) <> Item.cat1 A) cands).
  assert (Hdp : dc ≡ₚ map mk diverse').
  { unfold dc. rewrite Hcp. unfold diverse'.
    by rewrite (filter_fmap_comm mk (fun c => Item.cat1 (x c) <> Item.cat1 A)). }
  assert (Hds : StronglySorted (before candidate_order) dc)
    by (by apply StronglySorted_filter).
  (* the source of the pool and the items on offer *)
  set (offered' := match diverse' with [] => others' | _ => diverse' end).
  assert (Hoff : offered' ≡ₚ offered).
  { unfold offered', offered.
    destruct diverse' as [|d ds] eqn:E1, diverse as [|e es] eqn:E2; try done.
    - by apply Permutation_nil_cons in Hd.
    - symmetry in Hd. by apply Permutation_nil_cons in Hd. }
  assert (Hsrc : opponent_source prioritized A ≡ₚ map mk offered' /\
                 StronglySorted (before candidate_order)
                                (opponent_source prioritized A)).
  { unfold opponent_source. fold cands. fold dc. unfold offered'.
    destruct (0 <? length dc)%nat eqn:El.
    - apply Nat.ltb_lt in El. split; [|done]. rewrite Hdp.
      destruct diverse' as [|d ds] eqn:E1; [|done].
      rewrite Hdp in El. simpl in El. lia.
    - apply Nat.ltb_ge in El. split; [|done]. rewrite Hcp.
      destruct diverse' as [|d ds] eqn:E1; [done|].
      rewrite Hdp in El. simpl in El. lia. }
  destruct Hsrc as [Hsp Hss].
  unfold opponent_pool in HB.
  apply list_elem_of_fmap in HB as (c & -> & Hc).
  apply list_elem_of_lookup in Hc as [i Hi].
  assert (Hi30 : (i < 30)%nat).
  { apply lookup_lt_Some in Hi. rewrite length_take in Hi. lia. }
  rewrite lookup_take_lt in Hi by done.
  assert (Hcin : c ∈ map mk offered').
  { rewrite <- Hsp. by eapply list_elem_of_lookup_2. }
  apply list_elem_of_fmap in Hcin as (b & -> & Hb). simpl.
  assert (Hb' : b ∈ offered) by (by rewrite <- Hoff).
  split; [done|]. split.
  - intros Hne. unfold offered in Hb'.
    destruct diverse as [|e es] eqn:E; [done|].
    unfold diverse in E.
    assert (Hbd : b ∈ filter (fun v => Item.cat1 v <> Item.cat1 A) others)
      by (by rewrite E).
    by apply list_elem_of_filter in Hbd as [? _].
  - pose proof (sorted_closer_count _ _ _ Hss Hi) as Hcount.
    rewrite Hsp in Hcount.
    rewrite (filter_fmap_comm mk) in Hcount. rewrite length_map in Hcount.
    simpl in Hcount. rewrite <- Hoff. lia.
Qed.


(* --------------------------------------------------------------------- *)
(** ** selector.js: chooseTieResolutionPair returns ties *)
(* --------------------------------------------------------------------- *)

Lemma bucket_same_n (pool : list item) (st : state) (g : rng) (a b : item) :
  a ∈ (selectGroupByN pool st g).1 -> b ∈ (selectGroupByN pool st g).1 ->
  Item.id a <> Item.id b -> Item.n a = Item.n b.
Proof.
  intros Ha Hb Hid.
  destruct (selectGroupByN_exact pool st g) as [H1 H2].
  destruct (decide (length pool <= 1)%nat) as [Hl|Hl].
  - rewrite (H1 Hl) in Ha, Hb. exfalso. apply Hid.
    destruct pool as [|u [|u' pool]]; simpl in Hl; try lia.
    + by apply elem_of_nil in Ha.
    + apply list_elem_of_singleton in Ha, Hb. congruence.
  - destruct H2 as (k & E & _); [lia|]. rewrite E in Ha, Hb.
    apply list_elem_of_filter in Ha as [Ha _], Hb as [Hb _]. congruence.
Qed.

Lemma tieLoop_tied (tiedGroups : list (R * list item)) (st : state)
    (lastIds : gset string) (strategy : string) (g : rng) (a b : item) :
  Forall (fun e : R * list item =>
            forall u v, u ∈ e.2 -> v ∈ e.2 ->
                        toFixed6 (Item.mu u) = toFixed6 (Item.mu v))
         tiedGroups ->
  (tieLoop tiedGroups st lastIds strategy g).1 = Some (a, b) -> tied a b.
Proof.
  intros H. revert g. induction H as [|[m grp] rest Hgrp Hrest IH]; intros g;
    [discriminate|].
  cbn [tieLoop]. simpl in Hgrp.
  set (candidatePool := applyWinsFilter grp st).
  assert (Hcand : candidatePool ⊆ grp) by apply applyWinsFilter_subseteq.
  rewrite rand_bind_unfold.
  match goal with |- context [(?m g).1] => set (primary := (m g).1);
                                           set (g1 := (m g).2) end.
  assert (Hprim : forall u v, primary = Some (u, v) -> tied u v).
  { unfold primary. intros u v.
    destruct (0 <? _)%nat;
      [|intros Hq; unfold mret, rand_ret in Hq; simpl in Hq; discriminate].
    rewrite rand_bind_unfold.
    match goal with |- context [default [] ?o] =>
      destruct o as [sel|] eqn:Esel end;
      [change (default [] (Some sel)) with sel|].
    - apply bind_Some in Esel as (k & _ & Esel).
      destruct (group_by_exact Item.n candidatePool) as (Hnd & Hg & _).
      apply group_get_elem in Esel; [|done].
      destruct (Hg _ _ Esel) as [_ Hsel].
      destruct (orElse (pickNotIn sel lastIds) (head sel)) as [f|] eqn:Ef;
        [|intros Hq; unfold mret, rand_ret in Hq; simpl in Hq; discriminate].
      destruct (orElse (pickNotIn (filter _ sel) lastIds) _) as [s|] eqn:Ev;
        [|intros Hq; unfold mret, rand_ret in Hq; simpl in Hq; discriminate].
      intros Hq. unfold mret, rand_ret in Hq. simpl in Hq.
      injection Hq as <- <-.
      apply pick_elem in Ef. apply second_pick_valid in Ev as [Hv _].
      rewrite Hsel in Ef, Hv.
      apply list_elem_of_filter in Ef as [En1 Ef], Hv as [En2 Hv].
      split; [|congruence]. apply Hgrp; by apply Hcand.
    - intros Hq; unfold mret, rand_ret in Hq; simpl in Hq; discriminate. }
  destruct primary as [[u v]|].
  { intros Hq. unfold mret, rand_ret in Hq. simpl in Hq.
    injection Hq as <- <-. by apply Hprim. }
  rewrite rand_bind_unfold.
  destruct (pickTwoFromPool candidatePool lastIds st g1).1 as [[u v]|] eqn:Efb.
  - intros Hq. unfold mret, rand_ret in Hq. simpl in Hq.
    injection Hq as <- <-.
    destruct (pickTwoFromPool_exact candidatePool lastIds st g1) as [_ HS].
    destruct (HS _ _ Efb) as (Hu & Hv & Hid & _).
    split.
    + destruct (selectGroupByN_spec candidatePool st g1) as [Hsub _].
      apply Hgrp; by apply Hcand, Hsub.
    + by eapply bucket_same_n.
  - apply IH.
Qed.

Lemma chooseTieResolutionPair_ties (items : list item) (st : state)
    (lastIds : gset string) (g : rng) (a b : item) :
  (chooseTieResolutionPair items st lastIds g).1 = Some (a, b) -> tied a b.
Proof.
  unfold chooseTieResolutionPair.
  match goal with |- context [filter ?P (map ?f ?l)] =>
    set (tied0 := filter P (map f l)) end.
  rewrite rand_bind_unfold.
  match goal with |- context [(?m g).1] => set (tiedG := (m g).1);
                                           set (g1 := (m g).2) end.
  assert (H0 : Forall (fun e : R * list item =>
             forall u v, u ∈ e.2 -> v ∈ e.2 ->
                         toFixed6 (Item.mu u) = toFixed6 (Item.mu v)) tied0).
  { apply Forall_forall. intros e He. unfold tied0 in He.
    apply list_elem_of_filter in He as [_ He].
    apply list_elem_of_fmap in He as ([k grp] & -> & Hin). simpl.
    destruct (group_by_exact (fun it => toFixed6 (Item.mu it)) items)
      as (_ & Hg & _).
    destruct (Hg _ _ Hin) as [_ ->]. intros u v Hu Hv.
    apply list_elem_of_filter in Hu as [Hu _], Hv as [Hv _]. congruence. }
  assert (Hperm : tiedG ≡ₚ tied0).
  { unfold tiedG. destruct (String.eqb _ "lowest"); [apply sort_perm|].
    destruct (String.eqb _ "random"); [apply shuffle_perm|apply sort_perm]. }
  destruct (_ =? 0)%nat;
    [intros Hq; unfold mret, rand_ret in Hq; simpl in Hq; discriminate|].
  apply tieLoop_tied. by rewrite Hperm.
Qed.

(** Property X17.  A pair that [chooseTieResolutionPair] returns is a tie:
    two of the items, with different ids, the same mu to six decimals and
    the same number of matches. *)
Theorem chooseTieResolutionPair_tied (items : list item) (st : state)
    (lastIds : gset string) (g : rng) (a b : item) :
  (chooseTieResolutionPair items st lastIds g).1 = Some (a, b) ->
  a ∈ items /\ b ∈ items /\ Item.id a <> Item.id b /\
  toFixed6 (Item.mu a) = toFixed6 (Item.mu b) /\ Item.n a = Item.n b.
Proof.
  intros Hr.
  destruct (chooseTieResolutionPair_valid _ _ _ _ _ Hr) as (H1 & H2 & H3).
  destruct (chooseTieResolutionPair_ties _ _ _ _ _ _ Hr) as [H4 H5].
  done.
Qed.


(* --------------------------------------------------------------------- *)
(** ** selector.js: resolve_ties finds a tie *)
(* --------------------------------------------------------------------- *)

Lemma two_elements (l : list item) (a b : item) :
  a ∈ l -> b ∈ l -> Item.id a <> Item.id b -> (2 <= length l)%nat.
Proof.
  intros Ha Hb Hid. destruct l as [|u [|v l]]; simpl; try lia.
  - by apply elem_of_nil in Ha.
  - apply list_elem_of_singleton in Ha, Hb. congruence.
Qed.

Lemma NoDup_ids_perm (l1 l2 : list item) :
  l1 ≡ₚ l2 -> NoDup (map Item.id l1) -> NoDup (map Item.id l2).
Proof. intros H. by rewrite H. Qed.

Lemma NoDup_ids_subfilter (P : item -> Prop) `{!forall v, Decision (P v)}
    (l : list item) :
  NoDup (map Item.id l) -> NoDup (map Item.id (filter P l)).
Proof. apply NoDup_ids_filter. Qed.

Lemma applyWinsFilter_NoDup (l : list item) (st : state) :
  NoDup (map Item.id l) -> NoDup (map Item.id (applyWinsFilter l st)).
Proof.
  unfold applyWinsFilter. destruct (negb _); [done|]. apply NoDup_ids_filter.
Qed.

(** One round of the loop of [chooseTieResolutionPair] on a group that
    holds two items with as many matches: a pair is found. *)
Lemma tieLoop_live (tiedGroups : list (R * list item)) (st : state)
    (lastIds : gset string) (strategy : string) (g : rng) :
  Forall (fun e : R * list item => NoDup (map Item.id e.2)) tiedGroups ->
  Exists (fun e : R * list item =>
            exists a b, a ∈ applyWinsFilter e.2 st /\
                        b ∈ applyWinsFilter e.2 st /\
                        Item.id a <> Item.id b /\ Item.n a = Item.n b)
         tiedGroups ->
  is_Some (tieLoop tiedGroups st lastIds strategy g).1.
Proof.
  intros Hnd. revert g.
  induction Hnd as [|[m grp] rest Hgrp Hrest IH]; intros g Hex;
    [by apply Exists_nil in Hex|].
  cbn [tieLoop]. simpl in Hgrp.
  set (candidatePool := applyWinsFilter grp st).
  rewrite rand_bind_unfold.
  match goal with |- context [(?m g).1] => set (primary := (m g).1);
                                           set (g1 := (m g).2) end.
  destruct primary as [q|] eqn:Eprim; [by eexists|].
  rewrite rand_bind_unfold.
  destruct (pickTwoFromPool candidatePool lastIds st g1).1 as [q|] eqn:Efb;
    [by eexists|].
  apply IH. apply Exists_cons in Hex as [Hex|Hex]; [|done].
  exfalso. simpl in Hex. fold candidatePool in Hex.
  destruct Hex as (a & b & Ha & Hb & Hid & Hn).
  revert Eprim. unfold primary.
  destruct (group_by_exact Item.n candidatePool) as (Hgnd & Hg & Hkeys).
  set (groupedByN := group_by Item.n candidatePool) in *.
  set (avail := filter (fun nValue : Z =>
                (2 <= length (default [] (group_get nValue groupedByN)))%nat)
              (map fst groupedByN)).
  assert (Hsize : forall k, k ∈ sort Z_ascending avail ->
            exists sel, group_get k groupedByN = Some sel /\
                        (2 <= length sel)%nat /\ sel ⊆ candidatePool).
  { intros k Hk. rewrite sort_perm in Hk. unfold avail in Hk.
    apply list_elem_of_filter in Hk as [Hlen Hk].
    destruct (group_get_key _ _ Hk) as [sel Hsel]. rewrite Hsel in Hlen.
    exists sel. split; [done|]. split; [done|].
    apply group_get_elem in Hsel; [|done].
    destruct (Hg _ _ Hsel) as [_ ->]. apply list_subseteq_filter. }
  assert (Hav : Item.n a ∈ sort Z_ascending avail).
  { rewrite sort_perm. unfold avail. apply list_elem_of_filter.
    assert (Hk : Item.n a ∈ map fst groupedByN) by (by apply Hkeys).
    split; [|done].
    destruct (group_by_get Item.n candidatePool (Item.n a) Hk) as [Hget _].
    fold groupedByN in Hget. rewrite Hget. simpl.
    apply (two_elements _ a b); [| |done]; apply list_elem_of_filter; done. }
  assert (Hpos : (0 <? length (sort Z_ascending avail))%nat = true).
  { apply Nat.ltb_lt. destruct (sort Z_ascending avail); [|simpl; lia].
    by apply elem_of_nil in Hav. }
  fold avail. rewrite Hpos. rewrite rand_bind_unfold.
  destruct (pickTargetN_spec strategy (sort Z_ascending avail) g)
    as (k & Hk & Hkin & _).
  { intros E. rewrite E in Hav. by apply elem_of_nil in Hav. }
  { apply sorted_Z. }
  rewrite Hk. destruct (Hsize k Hkin) as (sel & Hsel & Hlen & Hsub).
  simpl. rewrite Hsel. simpl.
  assert (Hselnd : NoDup (map Item.id sel)).
  { apply group_get_elem in Hsel; [|done]. destruct (Hg _ _ Hsel) as [_ ->].
    apply NoDup_ids_filter. by apply applyWinsFilter_NoDup. }
  destruct (pick_is_Some sel lastIds) as [f Ef].
  { intros E. rewrite E in Hlen. simpl in Hlen. lia. }
  rewrite Ef.
  destruct (pick_is_Some (filter (fun v => Item.id v <> Item.id f) sel) lastIds)
    as [s Es].
  { destruct (other_id sel f (two_distinct_ids sel Hselnd Hlen)) as (y & Hy & Hne).
    intros E. assert (Hin : y ∈ filter (fun v => Item.id v <> Item.id f) sel)
      by (by apply list_elem_of_filter).
    rewrite E in Hin. by apply elem_of_nil in Hin. }
  rewrite Es. unfold mret, rand_ret. simpl. discriminate.
Qed.

Lemma applyWinsFilter_elem (l : list item) (st : state) (v : item) :
  v ∈ applyWinsFilter l st <->
  v ∈ l /\ (winsOnly st = true -> (1 <= Item.wins v)%Z).
Proof.
  unfold applyWinsFilter. destruct (winsOnly st); simpl.
  - rewrite list_elem_of_filter. split; [intros [? ?]; by split|].
    intros [? H]. split; [by apply H|done].
  - split; [intros ?; by split|]. by intros [? _].
Qed.

Lemma chooseTieResolutionPair_live (items : list item) (st : state)
    (lastIds : gset string) (g : rng) (a b : item) :
  NoDup (map Item.id items) ->
  a ∈ applyWinsFilter items st -> b ∈ applyWinsFilter items st ->
  Item.id a <> Item.id b -> tied a b ->
  is_Some (chooseTieResolutionPair items st lastIds g).1.
Proof.
  intros Hnd Ha Hb Hid [Hkey Hn]. unfold chooseTieResolutionPair.
  match goal with |- context [filter ?P (map ?f ?l)] =>
    set (tied0 := filter P (map f l)) end.
  rewrite rand_bind_unfold.
  match goal with |- context [(?m g).1] => set (tiedG := (m g).1);
                                           set (g1 := (m g).2) end.
  assert (Hperm : tiedG ≡ₚ tied0).
  { unfold tiedG. destruct (String.eqb _ "lowest"); [apply sort_perm|].
    destruct (String.eqb _ "random"); [apply shuffle_perm|apply sort_perm]. }
  apply applyWinsFilter_elem in Ha as [Ha Hwa], Hb as [Hb Hwb].
  destruct (group_by_exact (fun it => toFixed6 (Item.mu it)) items)
    as (Hgnd & Hg & Hkeys).
  set (byMu := group_by (fun it => toFixed6 (Item.mu it)) items) in *.
  assert (Hall : Forall (fun e : R * list item => NoDup (map Item.id e.2)) tied0).
  { apply Forall_forall. intros e He. unfold tied0 in He.
    apply list_elem_of_filter in He as [_ He].
    apply list_elem_of_fmap in He as ([k grp] & -> & Hin). simpl.
    destruct (Hg _ _ Hin) as [_ ->]. by apply NoDup_ids_filter. }
  assert (Hex : Exists (fun e : R * list item =>
            exists u v, u ∈ applyWinsFilter e.2 st /\
                        v ∈ applyWinsFilter e.2 st /\
                        Item.id u <> Item.id v /\ Item.n u = Item.n v) tied0).
  { apply Exists_exists.
    set (ka := toFixed6 (Item.mu a)).
    assert (Hk : ka ∈ map fst byMu) by (by apply Hkeys).
    destruct (group_by_get (fun it => toFixed6 (Item.mu it)) items ka Hk)
      as [Hget _].
    fold byMu in Hget. apply group_get_elem in Hget; [|done].
    set (grp := filter (fun v => toFixed6 (Item.mu v) = ka) items) in *.
    assert (Hga : a ∈ grp) by (by apply list_elem_of_filter).
    assert (Hgb : b ∈ grp) by (apply list_elem_of_filter; split; [by symmetry|done]).
    exists (Number_of_key ka, grp). split.
    - unfold tied0. apply list_elem_of_filter. split.
      + simpl. by apply (two_elements _ a b).
      + apply list_elem_of_fmap. by exists (ka, grp).
    - exists a, b. simpl. repeat split; try done;
        by apply applyWinsFilter_elem. }
  assert (Hne : (length tiedG =? 0)%nat = false).
  { apply Nat.eqb_neq. rewrite Hperm. apply Exists_exists in Hex as (e & He & _).
    destruct tied0; [by apply elem_of_nil in He|simpl; lia]. }
  rewrite Hne. apply tieLoop_live.
  - by rewrite Hperm.
  - by rewrite Hperm.
Qed.

(** Property X18.  In [resolve_ties] mode on items with unique ids,
    whenever two eligible items tie (different ids, the same mu to six
    decimals, as many matches), [chooseNextPair] returns a pair of
    eligible items that tie. *)
Theorem resolve_ties_finds_tie (items : list item) (st : state) (g : rng) :
  default "active" (mode st) = "resolve_ties" ->
  NoDup (map Item.id items) ->
  let eff := applyWinsFilter items st in
  (exists a b, a ∈ eff /\ b ∈ eff /\ Item.id a <> Item.id b /\
               toFixed6 (Item.mu a) = toFixed6 (Item.mu b) /\
               Item.n a = Item.n b) ->
  exists A B,
    (chooseNextPair items st g).1 = Some (A, B) /\
    A ∈ eff /\ B ∈ eff /\ Item.id A <> Item.id B /\
    toFixed6 (Item.mu A) = toFixed6 (Item.mu B) /\ Item.n A = Item.n B.
Proof.
  intros Hmode Hnd eff (a & b & Ha & Hb & Hid & Hkey & Hn).
  assert (Hlen : (2 <= length eff)%nat) by (by apply (two_elements _ a b)).
  unfold chooseNextPair. fold eff.
  assert (Hitems : (length items <? 2)%nat = false).
  { apply Nat.ltb_ge. etrans; [exact Hlen|].
    unfold eff, applyWinsFilter. destruct (negb _); [done|].
    apply length_filter. }
  rewrite Hitems.
  replace (length eff <? 2)%nat with false by (symmetry; by apply Nat.ltb_ge).
  rewrite rand_bind_unfold.
  pose proof (orderByMuPriority_perm eff st g) as Hperm.
  set (prioritized := (orderByMuPriority eff st g).1) in *.
  set (g1 := (orderByMuPriority eff st g).2).
  set (lastIds := list_to_set (filter (fun s : string => s <> "")
                                      (map Item.id (lastPair st))) : gset string).
  rewrite Hmode. change (String.eqb "resolve_ties" "resolve_ties") with true.
  cbv iota. rewrite rand_bind_unfold.
  assert (Hpnd : NoDup (map Item.id prioritized)).
  { apply (NoDup_ids_perm eff); [done|]. by apply applyWinsFilter_NoDup. }
  assert (Hin : forall v, v ∈ eff -> v ∈ applyWinsFilter prioritized st).
  { intros v Hv. apply applyWinsFilter_elem. split; [by rewrite Hperm|].
    by apply applyWinsFilter_elem in Hv as [_ ?]. }
  destruct (chooseTieResolutionPair_live prioritized st lastIds g1 a b Hpnd
              (Hin a Ha) (Hin b Hb) Hid (conj Hkey Hn)) as [[A B] Hr].
  rewrite Hr. exists A, B. split; [reflexivity|].
  destruct (chooseTieResolutionPair_valid _ _ _ _ _ Hr) as (H1 & H2 & H3).
  destruct (chooseTieResolutionPair_ties _ _ _ _ _ _ Hr) as [H4 H5].
  simpl in H1, H2, H3. rewrite Hperm in H1, H2. done.
Qed.


(* --------------------------------------------------------------------- *)
(** ** csv.js: parseCSV reads what toCSV writes *)
(* --------------------------------------------------------------------- *)

Lemma append_nil_l (s : string) : "" +:+ s = s.
Proof. reflexivity. Qed.

Lemma append_cons (c : ascii) (s t : string) :
  String c s +:+ t = String c (s +:+ t).
Proof. reflexivity. Qed.

Lemma append_assoc (a b c : string) : ((a +:+ b) +:+ c) = (a +:+ (b +:+ c)).
Proof.
  induction a as [|k a IH]; [done|]. by rewrite !append_cons, IH.
Qed.

Lemma append_nil_r (a : string) : a +:+ "" = a.
Proof. induction a as [|k a IH]; [done|]. by rewrite append_cons, IH. Qed.

Lemma push_char_app (acc : string) (c : ascii) (s : string) :
  push_char acc c +:+ s = acc +:+ String c s.
Proof. unfold push_char. by rewrite append_assoc. Qed.

Lemma parse_plain (str tail : string) rows acc row :
  has_char DQUOTE str = false -> has_char COMMA str = false ->
  has_char LF str = false -> has_char CR str = false ->
  parseLoop (str +:+ tail) rows acc row false
  = parseLoop tail rows (acc +:+ str) row false.
Proof.
  revert acc. induction str as [|c s IH]; intros acc Hq Hc Hl Hr.
  - by rewrite append_nil_l, append_nil_r.
  - simpl in Hq, Hc, Hl, Hr.
    apply orb_false_iff in Hq as [Hq1 Hq2], Hc as [Hc1 Hc2],
      Hl as [Hl1 Hl2], Hr as [Hr1 Hr2].
    rewrite append_cons. cbn [parseLoop]. rewrite Hq1, Hc1, Hl1, Hr1.
    cbn [orb]. rewrite IH by done. by rewrite push_char_app.
Qed.

Lemma parse_quoted (str tail : string) rows acc row :
  no_quote_head tail ->
  parseLoop (replaceAll DQUOTE (String DQUOTE (String DQUOTE EmptyString)) str
             +:+ String DQUOTE tail) rows acc row true
  = parseLoop tail rows (acc +:+ str) row false.
Proof.
  intros Ht. revert acc. induction str as [|c s IH]; intros acc.
  - cbn [replaceAll]. rewrite append_nil_l, append_nil_r.
    cbn [parseLoop]. rewrite Ascii.eqb_refl.
    destruct tail as [|c' t]; [done|].
    simpl in Ht. apply Ascii.eqb_neq in Ht. by rewrite Ht.
  - cbn [replaceAll]. destruct (Ascii.eqb c DQUOTE) eqn:E.
    + apply Ascii.eqb_eq in E. subst c.
      repeat (rewrite append_cons || rewrite append_nil_l).
      cbn [parseLoop]. rewrite Ascii.eqb_refl.
      rewrite IH. by rewrite push_char_app.
    + rewrite append_cons. cbn [parseLoop]. rewrite E. rewrite IH.
      by rewrite push_char_app.
Qed.

Lemma parse_field nts (v : jsval) (tail : string) rows row :
  no_quote_head tail ->
  parseLoop (csv_esc nts v +:+ tail) rows "" row false
  = parseLoop tail rows (String_of nts v) row false.
Proof.
  intros Ht. unfold csv_esc.
  assert (Hq : forall str,
    parseLoop (String DQUOTE
                 (replaceAll DQUOTE (String DQUOTE (String DQUOTE EmptyString)) str
                  +:+ String DQUOTE EmptyString) +:+ tail) rows "" row false
    = parseLoop tail rows str row false).
  { intros str. rewrite append_cons, append_assoc, append_cons, append_nil_l.
    cbn [parseLoop]. change (Ascii.eqb DQUOTE DQUOTE) with true. cbv iota.
    by rewrite parse_quoted. }
  destruct (has_char DQUOTE (String_of nts v)) eqn:Eq; cbn [orb]; [apply Hq|].
  destruct (has_char COMMA (String_of nts v)) eqn:Ec; cbn [orb]; [apply Hq|].
  destruct (has_char LF (String_of nts v)) eqn:El; cbn [orb]; [apply Hq|].
  destruct (has_char CR (String_of nts v)) eqn:Er; cbn [orb]; [apply Hq|].
  by rewrite parse_plain.
Qed.

Lemma join_cons2 (sep x0 y : string) (l : list string) :
  join sep (x0 :: y :: l) = x0 +:+ sep +:+ join sep (y :: l).
Proof. reflexivity. Qed.

Lemma parse_cells nts (vs : list jsval) (tail : string) rows row :
  no_quote_head tail ->
  let cs := map (String_of nts) vs in
  parseLoop (join "," (map (csv_esc nts) vs) +:+ tail) rows "" row false
  = parseLoop tail rows (List.last cs "") (row ++ removelast cs) false.
Proof.
  intros Ht. revert row. induction vs as [|v vs IH]; intros row.
  - simpl. by rewrite append_nil_l, app_nil_r.
  - destruct vs as [|v' vs].
    + cbn [map join List.last removelast]. rewrite app_nil_r.
      by apply parse_field.
    + cbn [map]. rewrite join_cons2. rewrite !append_assoc.
      rewrite parse_field by (simpl; discriminate).
      rewrite append_cons, append_nil_l. cbn [parseLoop].
      change (Ascii.eqb "," DQUOTE) with false.
      change (Ascii.eqb "," COMMA) with true. cbv iota.
      specialize (IH (row ++ [String_of nts v])). cbn [map] in IH.
      rewrite IH. cbn [List.last removelast map].
      by rewrite <- app_assoc.
Qed.

Lemma fold_pushRow (l rows : list (list string)) :
  fold_left pushRow l rows = rows ++ List.filter keepRow l.
Proof.
  revert rows. induction l as [|r l IH]; intros rows; simpl.
  - by rewrite app_nil_r.
  - rewrite IH. unfold pushRow. destruct (keepRow r); [|done].
    by rewrite <- app_assoc.
Qed.

Lemma pushRow_cells (rows : list (list string)) (cs : list string) :
  pushRow rows (removelast cs ++ [List.last cs ""]) = pushRow rows cs.
Proof.
  destruct cs as [|c cs]; [done|].
  by rewrite <- app_removelast_last.
Qed.

Lemma parse_lines nts (vss : list (list jsval)) rows :
  vss <> [] ->
  parseLoop (join (String LF EmptyString)
               (map (fun vs => join "," (map (csv_esc nts) vs)) vss))
            rows "" [] false
  = fold_left pushRow (map (map (String_of nts)) vss) rows.
Proof.
  intros Hne. revert rows. induction vss as [|vs vss IH]; intros rows; [done|].
  destruct vss as [|vs' vss].
  - cbn [map join fold_left].
    rewrite <- (append_nil_r (join "," (map (csv_esc nts) vs))).
    rewrite parse_cells by done. cbn [parseLoop]. rewrite ?app_nil_l.
    apply pushRow_cells.
  - cbn [map]. rewrite join_cons2.
    rewrite parse_cells by (simpl; discriminate).
    rewrite append_cons, append_nil_l. cbn [parseLoop]. rewrite ?app_nil_l.
    change (Ascii.eqb LF DQUOTE) with false.
    change (Ascii.eqb LF COMMA) with false.
    change (Ascii.eqb LF LF || Ascii.eqb LF CR) with true.
    change (Ascii.eqb LF CR) with false. cbv iota. cbn [andb].
    rewrite pushRow_cells.
    assert (E : forall t, match t with
                          | String _ _ | _ => parseLoop t (pushRow rows (map (String_of nts) vs)) "" [] false
                          end = parseLoop t (pushRow rows (map (String_of nts) vs)) "" [] false)
      by (by intros []).
    rewrite E. cbn [fold_left]. by apply IH.
Qed.

(** Property X19.  [parseCSV] reads back what [toCSV] writes: the header
    row and, for each record, the row of its cells as strings, whatever
    commas, quotes and line breaks the cells hold; only a row of one
    blank cell is dropped, which cannot occur with two or more
    columns. *)
Theorem parseCSV_toCSV (nts : R -> string) (headers : list string)
    (records : list (string -> jsval)) :
  let table :=
    headers :: map (fun rec => map (fun h => String_of nts (rec h)) headers)
                   records in
  parseCSV (toCSV nts headers records) = List.filter keepRow table /\
  ((2 <= length headers)%nat ->
   parseCSV (toCSV nts headers records) = table).
Proof.
  intros table.
  assert (H : parseCSV (toCSV nts headers records) = List.filter keepRow table).
  { unfold parseCSV, toCSV, csv_lines.
    pose proof (parse_lines nts
      (map JStr headers :: map (fun rec => map rec headers) records) []
      ltac:(done)) as HL.
    cbn [map] in HL. rewrite !map_map in HL.
    rewrite fold_pushRow in HL. rewrite app_nil_l in HL.
    etrans; [|etrans; [exact HL|]].
    - do 3 f_equal. apply map_ext. intros rec. by rewrite map_map.
    - unfold table. f_equal. f_equal.
      + rewrite <- (map_id headers) at 2. apply map_ext. done.
      + apply map_ext. intros rec. by rewrite map_map. }
  split; [exact H|]. intros Hlen. rewrite H.
  assert (Hall : forall r, In r table -> keepRow r = true).
  { intros r Hr. unfold keepRow.
    assert (length r = length headers) as ->.
    { destruct Hr as [<-|Hr]; [done|].
      apply in_map_iff in Hr as (rec & <- & _). by rewrite length_map. }
    apply orb_true_iff. left. apply Nat.ltb_lt. lia. }
  clear H. induction table as [|r t IH]; [done|]. simpl.
  rewrite Hall by (by left). f_equal. apply IH. intros r' Hr'. apply Hall. by right.
Qed.

Lemma pushRow_keep (rows : list (list string)) (row : list string) :
  Forall (fun r => keepRow r = true) rows ->
  Forall (fun r => keepRow r = true) (pushRow rows row).
Proof.
  intros H. unfold pushRow. destruct (keepRow row) eqn:E; [|done].
  apply Forall_app. split; [done|]. by constructor.
Qed.

Lemma parseLoop_keep (n : nat) :
  forall (text : string) rows field row q,
    (String.length text <= n)%nat ->
    Forall (fun r => keepRow r = true) rows ->
    Forall (fun r => keepRow r = true) (parseLoop text rows field row q).
Proof.
  induction n as [|n IH]; intros text rows field row q Hlen Hrows.
  - destruct text; [|simpl in Hlen; lia]. simpl. by apply pushRow_keep.
  - destruct text as [|c rest]; [simpl; by apply pushRow_keep|].
    simpl in Hlen. cbn [parseLoop].
    assert (Hrest : forall rows' f r q',
               Forall (fun r => keepRow r = true) rows' ->
               Forall (fun r => keepRow r = true) (parseLoop rest rows' f r q')).
    { intros. apply IH; [lia|done]. }
    assert (Hrest' : forall c' rest' rows' f r q',
               rest = String c' rest' ->
               Forall (fun r => keepRow r = true) rows' ->
               Forall (fun r => keepRow r = true) (parseLoop rest' rows' f r q')).
    { intros c' rest' rows' f r q' -> H. apply IH; [simpl in Hlen; lia|done]. }
    destruct q.
    + destruct (Ascii.eqb c DQUOTE); [|by apply Hrest].
      destruct rest as [|c' rest'] eqn:Er; [by apply IH; [simpl; lia|]|].
      destruct (Ascii.eqb c' DQUOTE); [by eapply Hrest'|by apply Hrest].
    + destruct (Ascii.eqb c DQUOTE); [by apply Hrest|].
      destruct (Ascii.eqb c COMMA); [by apply Hrest|].
      destruct (Ascii.eqb c LF || Ascii.eqb c CR); [|by apply Hrest].
      destruct rest as [|c' rest'] eqn:Er.
      * apply IH; [simpl; lia|by apply pushRow_keep].
      * destruct (Ascii.eqb c CR && Ascii.eqb c' LF).
        -- eapply Hrest'; [done|by apply pushRow_keep].
        -- apply Hrest. by apply pushRow_keep.
Qed.

(** Property X20.  No row that [parseCSV] returns is empty or consists of
    one blank cell. *)
Theorem parseCSV_rows (text : string) (row : list string) :
  row ∈ parseCSV text ->
  row <> [] /\ row <> [""] /\
  (forall cell, row = [cell] -> trim cell <> "").
Proof.
  intros Hin.
  pose proof (parseLoop_keep (String.length text) text [] "" [] false
                (Nat.le_refl _) (Forall_nil_2 _)) as H.
  rewrite Forall_forall in H. specialize (H row Hin).
  unfold keepRow in H. split; [|split].
  - intros ->. discriminate.
  - intros ->. discriminate.
  - intros cell ->. simpl in H. intros E. rewrite E in H. discriminate.
Qed.


(* --------------------------------------------------------------------- *)
(** ** csv.js: line breaks *)
(* --------------------------------------------------------------------- *)

Lemma parse_break (sep rest : string) rows field row :
  line_break sep -> (sep = String CR EmptyString -> no_LF_head rest) ->
  parseLoop (sep +:+ rest) rows field row false
  = parseLoop rest (pushRow rows (row ++ [field])) "" [] false.
Proof.
  unfold line_break.
  intros [-> | [-> | ->]] Hrest; repeat (rewrite append_cons || rewrite append_nil_l);
    cbn [parseLoop].
  - change (Ascii.eqb LF DQUOTE) with false. change (Ascii.eqb LF COMMA) with false.
    change (Ascii.eqb LF LF) with true. change (Ascii.eqb LF CR) with false.
    cbn [orb andb]. by destruct rest.
  - change (Ascii.eqb CR DQUOTE) with false. change (Ascii.eqb CR COMMA) with false.
    change (Ascii.eqb CR LF) with false. change (Ascii.eqb CR CR) with true.
    change (Ascii.eqb LF LF) with true. cbn [orb andb]. done.
  - change (Ascii.eqb CR DQUOTE) with false. change (Ascii.eqb CR COMMA) with false.
    change (Ascii.eqb CR LF) with false. change (Ascii.eqb CR CR) with true.
    cbn [orb andb]. destruct rest as [|c' rest']; [done|].
    specialize (Hrest eq_refl).
    simpl in Hrest. apply Ascii.eqb_neq in Hrest. by rewrite Hrest.
Qed.

Lemma no_LF_head_app (a b : string) :
  no_LF_head a -> (a = "" -> no_LF_head b) -> no_LF_head (a +:+ b).
Proof. destruct a; [intros _ H; by apply H|]. intros H _. by rewrite append_cons. Qed.

Lemma csv_esc_head nts (v : jsval) : no_LF_head (csv_esc nts v).
Proof.
  unfold csv_esc. destruct (has_char DQUOTE _ || _ || _ || _) eqn:E.
  - simpl. discriminate.
  - apply orb_false_iff in E as [E _]. apply orb_false_iff in E as [_ E].
    destruct (String_of nts v) as [|c s]; [done|]. simpl in *.
    apply orb_false_iff in E as [E _]. by apply Ascii.eqb_neq in E.
Qed.

Lemma line_head nts (vs : list jsval) (tail : string) :
  no_LF_head tail ->
  no_LF_head (join "," (map (csv_esc nts) vs) +:+ tail).
Proof.
  intros Ht. destruct vs as [|v vs]; [done|].
  destruct vs as [|v' vs].
  - cbn [map join]. apply no_LF_head_app; [apply csv_esc_head|done].
  - cbn [map]. rewrite join_cons2. rewrite append_assoc.
    apply no_LF_head_app; [apply csv_esc_head|]. intros _.
    rewrite append_assoc. by rewrite append_cons.
Qed.

Lemma lines_head nts (final : string) (vss : list (list jsval)) :
  no_LF_head final ->
  no_LF_head (join (String CR EmptyString)
                (map (fun vs => join "," (map (csv_esc nts) vs)) vss)
              +:+ final).
Proof.
  intros Hf. destruct vss as [|vs [|vs' vss]]; [done| |].
  - cbn [map join]. by apply line_head.
  - cbn [map]. rewrite join_cons2, append_assoc. apply line_head.
    rewrite append_assoc. by rewrite append_cons.
Qed.

Lemma break_heads (sep : string) :
  line_break sep -> no_quote_head sep /\ forall t, no_quote_head (sep +:+ t).
Proof.
  unfold line_break. intros [-> | [-> | ->]]; split; try intros t; simpl; discriminate.
Qed.

Lemma parse_lines_break nts (sep final : string) (vss : list (list jsval)) rows :
  line_break sep -> final = "" \/ final = sep ->
  vss <> [] ->
  parseLoop (join sep (map (fun vs => join "," (map (csv_esc nts) vs)) vss)
             +:+ final)
            rows "" [] false
  = fold_left pushRow (map (map (String_of nts)) vss) rows.
Proof.
  intros Hsep Hfinal Hne. revert rows.
  destruct (break_heads sep Hsep) as [Hq1 Hq2].
  induction vss as [|vs vss IH]; intros rows; [done|].
  destruct vss as [|vs' vss].
  - cbn [map join fold_left].
    rewrite parse_cells by (destruct Hfinal as [-> | ->]; done).
    destruct Hfinal as [-> | ->].
    + cbn [parseLoop]. rewrite app_nil_l. apply pushRow_cells.
    + rewrite <- (append_nil_r sep) at 1.
      rewrite parse_break by done. rewrite app_nil_l, pushRow_cells.
      cbn [parseLoop]. rewrite app_nil_l. unfold pushRow at 1. done.
  - cbn [map]. rewrite join_cons2. rewrite !append_assoc.
    rewrite parse_cells by apply Hq2.
    rewrite parse_break; [|done|].
    + rewrite app_nil_l, pushRow_cells. cbn [fold_left]. by apply IH.
    + intros ->. apply (lines_head nts final (vs' :: vss)).
      destruct Hfinal as [-> | ->]; simpl; [done|discriminate].
Qed.


(* --------------------------------------------------------------------- *)
(** ** csv.js: normKey and detectColumns *)
(* --------------------------------------------------------------------- *)

Lemma findIndex_Some {A} (p : A -> bool) (arr : list A) (i : nat) :
  findIndex p arr = Some i ->
  exists v, arr !! i = Some v /\ p v = true /\
            forall j w, (j < i)%nat -> arr !! j = Some w -> p w = false.
Proof.
  revert i. induction arr as [|v arr IH]; intros i; [discriminate|].
  simpl. destruct (p v) eqn:E.
  - intros [= <-]. exists v. repeat split; [done|]. intros j w Hj. lia.
  - destruct (findIndex p arr) as [k|]; [|discriminate].
    intros [= <-]. destruct (IH k eq_refl) as (u & Hu & Hp & Hlt).
    exists u. repeat split; [done..|].
    intros [|j] w Hj; simpl; [by intros [= <-]|].
    apply Hlt. lia.
Qed.

Lemma findIndex_None {A} (p : A -> bool) (arr : list A) :
  findIndex p arr = None <-> forall v, v ∈ arr -> p v = false.
Proof.
  induction arr as [|v arr IH]; simpl.
  - split; [|done]. intros _ v Hv. by apply elem_of_nil in Hv.
  - destruct (p v) eqn:E.
    + split; [discriminate|]. intros H. rewrite H in E; [done|by left].
    + destruct (findIndex p arr) as [k|] eqn:Ek; simpl.
      * split; [discriminate|]. intros H.
        assert (Some k = None); [|done]. apply IH.
        intros u Hu. apply H. by right.
      * split; [|done]. intros _ u Hu.
        apply elem_of_cons in Hu as [->|Hu]; [done|]. by apply IH.
Qed.

Lemma prefix_refl (s : string) : String.prefix s s = true.
Proof.
  induction s as [|c s IH]; [done|]. simpl.
  destruct (ascii_dec c c); [done|congruence].
Qed.

Lemma includes_refl (s : string) : includes s s = true.
Proof. destruct s; simpl; [done|]. destruct (ascii_dec a a); [|congruence]. by rewrite prefix_refl. Qed.

Lemma includes_empty (needle : string) :
  needle <> "" -> includes needle "" = false.
Proof. destruct needle; [done|]. reflexivity. Qed.

Lemma idx_Some (headers aliases : list string) (h : string) :
  idx headers aliases = Some h ->
  h ∈ headers /\
  exists a, a ∈ aliases /\ includes (normKey a) (normKey h) = true.
Proof.
  induction aliases as [|a aliases IH]; [discriminate|].
  cbn [idx].
  destruct (indexOf (normKey a) (map normKey headers)) as [ai|] eqn:Ei.
  - intros Hh. apply findIndex_Some in Ei as (k & Hk & Hp & _).
    rewrite list_lookup_fmap, Hh in Hk. simpl in Hk. injection Hk as <-.
    split; [by eapply list_elem_of_lookup_2|].
    exists a. split; [by left|]. apply String.eqb_eq in Hp. rewrite <- Hp.
    apply includes_refl.
  - destruct (findIndex _ (map normKey headers)) as [sub|] eqn:Es.
    + intros Hh. apply findIndex_Some in Es as (k & Hk & Hp & _).
      rewrite list_lookup_fmap, Hh in Hk. simpl in Hk. injection Hk as <-.
      split; [by eapply list_elem_of_lookup_2|].
      exists a. split; [by left|done].
    + intros Hh. destruct (IH Hh) as (H1 & a' & Ha' & H2).
      split; [done|]. exists a'. split; [by right|done].
Qed.

Lemma lookup_map_is_Some (headers : list string) (i : nat) (k : string) :
  map normKey headers !! i = Some k -> is_Some (headers !! i).
Proof.
  rewrite list_lookup_fmap. destruct (headers !! i); [eauto|discriminate].
Qed.

Lemma idx_None (headers aliases : list string) :
  idx headers aliases = None <->
  forall a h, a ∈ aliases -> h ∈ headers ->
              includes (normKey a) (normKey h) = false.
Proof.
  induction aliases as [|a aliases IH].
  - split; [|done]. intros _ a h Ha. by apply elem_of_nil in Ha.
  - cbn [idx].
    destruct (indexOf (normKey a) (map normKey headers)) as [ai|] eqn:Ei.
    + pose proof Ei as Ei'.
      apply findIndex_Some in Ei as (k & Hk & Hp & _).
      destruct (lookup_map_is_Some _ _ _ Hk) as [h Hh]. rewrite Hh.
      split; [discriminate|]. intros H.
      rewrite list_lookup_fmap, Hh in Hk. simpl in Hk. injection Hk as <-.
      apply String.eqb_eq in Hp.
      exfalso. specialize (H a h ltac:(by left)
                            ltac:(by eapply list_elem_of_lookup_2)).
      rewrite <- Hp, includes_refl in H. done.
    + destruct (findIndex _ (map normKey headers)) as [sub|] eqn:Es.
      * apply findIndex_Some in Es as (k & Hk & Hp & _).
        destruct (lookup_map_is_Some _ _ _ Hk) as [h Hh]. rewrite Hh.
        split; [discriminate|]. intros H.
        rewrite list_lookup_fmap, Hh in Hk. simpl in Hk. injection Hk as <-.
        rewrite (H a h) in Hp; [done|by left|by eapply list_elem_of_lookup_2].
      * rewrite IH. rewrite findIndex_None in Es. split.
        -- intros H a' h Ha' Hh. apply elem_of_cons in Ha' as [->|Ha'].
           ++ apply Es. apply list_elem_of_fmap. by exists h.
           ++ by apply H.
        -- intros H a' h Ha' Hh. apply H; [by right|done].
Qed.

Lemma findIndex_first {A} (p : A -> bool) (pre post : list A) (v : A) :
  (forall u, u ∈ pre -> p u = false) -> p v = true ->
  findIndex p (pre ++ v :: post) = Some (length pre).
Proof.
  intros Hpre Hv. induction pre as [|u pre IH]; simpl.
  - by rewrite Hv.
  - rewrite (Hpre u) by (by left). rewrite IH; [done|].
    intros u' Hu'. apply Hpre. by right.
Qed.

Lemma idx_exact_first (headers aliases : list string) (a h : string)
    (pre post : list string) :
  headers = pre ++ h :: post ->
  normKey h = normKey a ->
  (forall h', h' ∈ pre -> normKey h' <> normKey a) ->
  idx headers (a :: aliases) = Some h.
Proof.
  intros -> Hh Hpre. cbn [idx]. unfold indexOf.
  rewrite map_app. cbn [map].
  rewrite findIndex_first.
  - rewrite length_map. by rewrite list_lookup_middle.
  - intros k Hk. apply list_elem_of_fmap in Hk as (h' & -> & Hh').
    apply String.eqb_neq. intros E. by apply (Hpre h').
  - apply String.eqb_eq. done.
Qed.

Lemma lower_ascii_not_upper (c : ascii) : is_upper (lower_ascii c) = false.
Proof. destruct c as [[] [] [] [] [] [] [] []]; reflexivity. Qed.

Lemma toLowerCase_chars (s : string) (c : ascii) :
  c ∈ chars (toLowerCase s) -> is_upper c = false.
Proof.
  induction s as [|k s IH]; simpl; [by intros H; apply elem_of_nil in H|].
  intros H. apply elem_of_cons in H as [->|H]; [apply lower_ascii_not_upper|auto].
Qed.

Lemma collapse_chars (b : bool) (s : string) (c : ascii) :
  c ∈ chars (collapse_spaces b s) ->
  c = " "%char \/ (c ∈ chars s /\ is_space c = false).
Proof.
  revert b. induction s as [|k s IH]; intros b; simpl;
    [by intros H; apply elem_of_nil in H|].
  destruct (is_space k) eqn:Ek.
  - destruct b; simpl.
    + intros H. destruct (IH _ H) as [?|[? ?]]; [by left|right].
      split; [by right|done].
    + intros H. apply elem_of_cons in H as [->|H]; [by left|].
      destruct (IH _ H) as [?|[? ?]]; [by left|right]. split; [by right|done].
  - simpl. intros H. apply elem_of_cons in H as [->|H].
    + right. split; [by left|done].
    + destruct (IH _ H) as [?|[? ?]]; [by left|right]. split; [by right|done].
Qed.

Lemma strip_chars (s : string) (c : ascii) :
  c ∈ chars (strip_punctuation s) ->
  c ∈ chars s /\ (is_word c || is_space c || Ascii.eqb c "-") = true.
Proof.
  induction s as [|k s IH]; simpl; [by intros H; apply elem_of_nil in H|].
  destruct (is_word k || is_space k || Ascii.eqb k "-") eqn:Ek; simpl.
  - intros H. apply elem_of_cons in H as [->|H].
    + split; [by left|done].
    + destruct (IH H). split; [by right|done].
  - intros H. destruct (IH H). split; [by right|done].
Qed.

Lemma key_char_cases (c : ascii) :
  (is_word c || is_space c || Ascii.eqb c "-") = true ->
  c = " "%char \/ (is_space c = false /\ is_upper c = false) ->
  is_key_char c = true.
Proof.
  destruct c as [[] [] [] [] [] [] [] []]; vm_compute; intros H [E|[E1 E2]];
    try reflexivity; try discriminate.
Qed.

(** Property X21.  A key that [normKey] returns consists of lower-case
    letters, digits, underscores, spaces and hyphens only. *)
Theorem normKey_alphabet (s : string) (c : ascii) :
  c ∈ chars (normKey s) -> is_key_char c = true.
Proof.
  unfold normKey. intros H. apply strip_chars in H as [H Hk].
  apply key_char_cases; [done|].
  apply collapse_chars in H as [->|[H Hs]]; [by left|right].
  split; [done|]. by eapply toLowerCase_chars.
Qed.


(* --------------------------------------------------------------------- *)
(** ** unified_app.js: esc *)
(* --------------------------------------------------------------------- *)

Lemma replaceAll_app (p : ascii) (r a b : string) :
  replaceAll p r (a +:+ b) = replaceAll p r a +:+ replaceAll p r b.
Proof.
  induction a as [|c a IH]; [done|].
  rewrite append_cons. cbn [replaceAll]. destruct (Ascii.eqb c p).
  - by rewrite IH, append_assoc.
  - by rewrite IH, append_cons.
Qed.

Lemma esc_cons nts (c : ascii) (s : string) :
  esc nts (JStr (String c s)) = entity c +:+ esc nts (JStr s).
Proof.
  unfold esc, entity, String_of. cbn [nullish ToString].
  cbn [replaceAll].
  destruct (Ascii.eqb c "&") eqn:E1.
  { rewrite !replaceAll_app. reflexivity. }
  cbn [replaceAll]. destruct (Ascii.eqb c "<") eqn:E2.
  { rewrite !replaceAll_app. reflexivity. }
  cbn [replaceAll]. destruct (Ascii.eqb c ">") eqn:E3.
  { rewrite !replaceAll_app. reflexivity. }
  cbn [replaceAll]. destruct (Ascii.eqb c DQUOTE) eqn:E4.
  { rewrite !replaceAll_app. reflexivity. }
  cbn [replaceAll]. destruct (Ascii.eqb c "'") eqn:E5.
  { reflexivity. }
  reflexivity.
Qed.

Lemma esc_nil nts : esc nts (JStr "") = "".
Proof. reflexivity. Qed.

Lemma chars_app (a b : string) : chars (a +:+ b) = chars a ++ chars b.
Proof.
  unfold chars. induction a as [|c a IH]; [done|]. rewrite append_cons.
  cbn [list_ascii_of_string]. by rewrite IH.
Qed.

Lemma entity_markup (k c : ascii) : c ∈ chars (entity k) -> is_markup c = false.
Proof.
  unfold entity.
  destruct (Ascii.eqb k "&") eqn:E1;
    [intros H; repeat (apply elem_of_cons in H as [->|H]; [reflexivity|]);
     by apply elem_of_nil in H|].
  destruct (Ascii.eqb k "<") eqn:E2;
    [intros H; repeat (apply elem_of_cons in H as [->|H]; [reflexivity|]);
     by apply elem_of_nil in H|].
  destruct (Ascii.eqb k ">") eqn:E3;
    [intros H; repeat (apply elem_of_cons in H as [->|H]; [reflexivity|]);
     by apply elem_of_nil in H|].
  destruct (Ascii.eqb k DQUOTE) eqn:E4;
    [intros H; repeat (apply elem_of_cons in H as [->|H]; [reflexivity|]);
     by apply elem_of_nil in H|].
  destruct (Ascii.eqb k "'") eqn:E5;
    [intros H; repeat (apply elem_of_cons in H as [->|H]; [reflexivity|]);
     by apply elem_of_nil in H|].
  intros H. apply elem_of_cons in H as [->|H]; [|by apply elem_of_nil in H].
  unfold is_markup. by rewrite E2, E3, E4, E5.
Qed.

Lemma esc_str_markup nts (s : string) (c : ascii) :
  c ∈ chars (esc nts (JStr s)) -> is_markup c = false.
Proof.
  induction s as [|k s IH].
  - rewrite esc_nil. intros H. by apply elem_of_nil in H.
  - rewrite esc_cons, chars_app. intros H.
    apply elem_of_app in H as [H|H]; [by eapply entity_markup|auto].
Qed.

Lemma esc_String_of nts (v : jsval) :
  esc nts v = esc nts (JStr (String_of nts v)).
Proof. reflexivity. Qed.

Lemma entity_inj (c1 c2 : ascii) (t1 t2 : string) :
  entity c1 +:+ t1 = entity c2 +:+ t2 -> c1 = c2 /\ t1 = t2.
Proof.
  unfold entity.
  destruct (Ascii.eqb c1 "&") eqn:A1; [apply Ascii.eqb_eq in A1; subst c1|];
  [|destruct (Ascii.eqb c1 "<") eqn:A2; [apply Ascii.eqb_eq in A2; subst c1|];
  [|destruct (Ascii.eqb c1 ">") eqn:A3; [apply Ascii.eqb_eq in A3; subst c1|];
  [|destruct (Ascii.eqb c1 DQUOTE) eqn:A4; [apply Ascii.eqb_eq in A4; subst c1|];
  [|destruct (Ascii.eqb c1 "'") eqn:A5; [apply Ascii.eqb_eq in A5; subst c1|]]]]];
  (destruct (Ascii.eqb c2 "&") eqn:B1; [apply Ascii.eqb_eq in B1; subst c2|];
  [|destruct (Ascii.eqb c2 "<") eqn:B2; [apply Ascii.eqb_eq in B2; subst c2|];
  [|destruct (Ascii.eqb c2 ">") eqn:B3; [apply Ascii.eqb_eq in B3; subst c2|];
  [|destruct (Ascii.eqb c2 DQUOTE) eqn:B4; [apply Ascii.eqb_eq in B4; subst c2|];
  [|destruct (Ascii.eqb c2 "'") eqn:B5; [apply Ascii.eqb_eq in B5; subst c2|]]]]]);
  repeat (rewrite append_cons || rewrite append_nil_l);
  intros H; try discriminate H;
  try (injection H as H; by split);
  try (injection H as H1 H2; subst;
       first [ by split
             | rewrite Ascii.eqb_refl in *; discriminate ]).
Qed.

(** Property X22.  What [esc] returns holds none of the characters [<],
    [>], double quote and single quote, and [esc] maps different strings
    to different texts. *)
Theorem esc_html_safe (nts : R -> string) :
  (forall (v : jsval) (c : ascii),
     c ∈ chars (esc nts v) -> is_markup c = false) /\
  (forall s1 s2 : string,
     esc nts (JStr s1) = esc nts (JStr s2) -> s1 = s2).
Proof.
  split.
  - intros v c. rewrite esc_String_of. apply esc_str_markup.
  - intros s1. induction s1 as [|c1 s1 IH]; intros [|c2 s2].
    + done.
    + rewrite esc_nil, esc_cons. unfold entity.
      repeat destruct (Ascii.eqb c2 _); discriminate.
    + rewrite esc_nil, esc_cons. unfold entity.
      repeat destruct (Ascii.eqb c1 _); discriminate.
    + rewrite !esc_cons. intros H. apply entity_inj in H as [-> H].
      f_equal. by apply IH.
Qed.


(* --------------------------------------------------------------------- *)
(** ** csv.js: line breaks and column detection *)
(* --------------------------------------------------------------------- *)

Lemma toCSV_lines nts headers records :
  toCSV nts headers records = join (String LF EmptyString) (csv_lines nts headers records).
Proof. reflexivity. Qed.

(** Property X23.  [parseCSV] reads the same table whether the lines are
    separated by LF, by CR LF or by CR, and whether or not a line break
    ends the text. *)
Theorem parseCSV_line_breaks (nts : R -> string) (headers : list string)
    (records : list (string -> jsval)) (sep final : string) :
  line_break sep -> final = "" \/ final = sep ->
  parseCSV (join sep (csv_lines nts headers records) +:+ final)
  = parseCSV (toCSV nts headers records).
Proof.
  intros Hsep Hfinal.
  assert (Hl : csv_lines nts headers records
               = map (fun vs => join "," (map (csv_esc nts) vs))
                     (map JStr headers :: map (fun rec => map rec headers) records)).
  { unfold csv_lines. cbn [map]. f_equal.
    - by rewrite map_map.
    - rewrite map_map. apply map_ext. intros rec. by rewrite map_map. }
  rewrite toCSV_lines. unfold parseCSV. rewrite Hl.
  rewrite (parse_lines_break nts sep final) by done.
  rewrite <- (append_nil_r (join (String LF EmptyString) _)).
  rewrite (parse_lines_break nts (String LF EmptyString) "");
    [done|by left|by left|done].
Qed.

(** Property X24.  The column lookup of [detectColumns] returns null
    exactly when no header key includes any alias key; a header it
    returns is one of the headers and its key includes the key of an
    alias; the first header whose key equals the key of the first alias
    is returned; and a detected id, title or abstract column is never
    the empty header. *)
Theorem detectColumns_idx (headers aliases : list string) :
  (idx headers aliases = None <->
   forall a h, a ∈ aliases -> h ∈ headers ->
               includes (normKey a) (normKey h) = false) /\
  (forall h, idx headers aliases = Some h ->
     h ∈ headers /\
     exists a, a ∈ aliases /\ includes (normKey a) (normKey h) = true) /\
  (forall a rest pre h post,
     aliases = a :: rest -> headers = pre ++ h :: post ->
     normKey h = normKey a ->
     (forall h', h' ∈ pre -> normKey h' <> normKey a) ->
     idx headers aliases = Some h) /\
  (forall h, col_id (detectColumns headers) = Some h \/
             col_title (detectColumns headers) = Some h \/
             col_abstract (detectColumns headers) = Some h -> h <> "").
Proof.
  split; [apply idx_None|]. split; [apply idx_Some|]. split.
  - intros a rest pre h post -> Hh Hk Hpre. by eapply idx_exact_first.
  - assert (Hne : forall al h,
              Forall (fun a => includes (normKey a) "" = false) al ->
              idx headers al = Some h -> h <> "").
    { intros al h Hal Hh ->. apply idx_Some in Hh as (_ & a & Ha & Hinc).
      rewrite Forall_forall in Hal. specialize (Hal a Ha).
      change (normKey "") with "" in Hinc. congruence. }
    intros h [H|[H|H]]; (eapply Hne; [|exact H]);
      repeat (constructor; [reflexivity|]); constructor.
Qed.


(* --------------------------------------------------------------------- *)
(** ** Ranks, normalized scores and opacities *)
(* --------------------------------------------------------------------- *)

Lemma Math_min_spec (v : R) (vs : list R) :
  (forall u, u ∈ v :: vs -> (Math_min v vs <= u)%R) /\ Math_min v vs ∈ v :: vs.
Proof.
  unfold Math_min. revert v. induction vs as [|y vs IH]; intros v; simpl.
  - split; [|by left]. intros u Hu. apply list_elem_of_singleton in Hu. lra.
  - destruct (IH (Rmin v y)) as [H1 H2]. split.
    + intros u Hu. apply elem_of_cons in Hu as [->|Hu].
      * etrans; [apply H1; by left|]. apply Rmin_l.
      * apply elem_of_cons in Hu as [->|Hu].
        -- etrans; [apply H1; by left|]. apply Rmin_r.
        -- apply H1. by right.
    + apply elem_of_cons in H2 as [H2|H2].
      * rewrite H2. unfold Rmin. destruct (Rle_dec v y); [by left|right; by left].
      * right. by right.
Qed.

Lemma Math_max_spec (v : R) (vs : list R) :
  (forall u, u ∈ v :: vs -> (u <= Math_max v vs)%R) /\ Math_max v vs ∈ v :: vs.
Proof.
  unfold Math_max. revert v. induction vs as [|y vs IH]; intros v; simpl.
  - split; [|by left]. intros u Hu. apply list_elem_of_singleton in Hu. lra.
  - destruct (IH (Rmax v y)) as [H1 H2]. split.
    + intros u Hu. apply elem_of_cons in Hu as [->|Hu].
      * etrans; [|apply H1; by left]. apply Rmax_l.
      * apply elem_of_cons in Hu as [->|Hu].
        -- etrans; [|apply H1; by left]. apply Rmax_r.
        -- apply H1. by right.
    + apply elem_of_cons in H2 as [H2|H2].
      * rewrite H2. unfold Rmax. destruct (Rle_dec v y); [right; by left|by left].
      * right. by right.
Qed.

(** Property X25.  [normalizeInGroup(values, value)] of a member of
    [values] lies between 0 and 1, is monotone in the value, and is 0 at
    the least and 1 at the greatest value when these are at least 1e-9
    apart. *)
Theorem normalizeInGroup_range (values : list R) (value : R) :
  value ∈ values ->
  (0 <= normalizeInGroup values value <= 1)%R /\
  (forall other, other ∈ values -> (other <= value)%R ->
     (normalizeInGroup values other <= normalizeInGroup values value)%R) /\
  (forall lo hi, lo ∈ values -> hi ∈ values ->
     (forall u, u ∈ values -> lo <= u <= hi)%R -> (1e-9 <= hi - lo)%R ->
     normalizeInGroup values lo = 0%R /\ normalizeInGroup values hi = 1%R).
Proof.
  intros Hin. destruct values as [|v vs]; [by apply elem_of_nil in Hin|].
  unfold normalizeInGroup.
  destruct (Math_min_spec v vs) as [Hmin Hmin'].
  destruct (Math_max_spec v vs) as [Hmax Hmax'].
  set (mn := Math_min v vs) in *. set (mx := Math_max v vs) in *.
  split; [|split].
  - destruct (Rlt_dec (mx - mn) 1e-9) as [Hs|Hs]; [lra|].
    pose proof (Hmin _ Hin). pose proof (Hmax _ Hin).
    assert (Hpos : (0 < mx - mn)%R) by lra.
    split.
    + apply Rmult_le_reg_r with (mx - mn)%R; [done|].
      unfold Rdiv. rewrite Rmult_assoc, Rinv_l by lra. lra.
    + apply Rmult_le_reg_r with (mx - mn)%R; [done|].
      unfold Rdiv. rewrite Rmult_assoc, Rinv_l by lra. lra.
  - intros other Ho Hle.
    destruct (Rlt_dec (mx - mn) 1e-9) as [Hs|Hs]; [lra|].
    assert (Hpos : (0 < mx - mn)%R) by lra.
    apply Rmult_le_reg_r with (mx - mn)%R; [done|].
    unfold Rdiv. rewrite !Rmult_assoc, Rinv_l by lra. lra.
  - intros lo hi Hlo Hhi Hall Hspan.
    assert (Elo : mn = lo).
    { apply Rle_antisym; [by apply Hmin|]. by apply Hall. }
    assert (Ehi : mx = hi).
    { apply Rle_antisym; [by apply Hall|]. by apply Hmax. }
    rewrite Elo, Ehi.
    destruct (Rlt_dec (hi - lo) 1e-9) as [Hs|Hs]; [lra|].
    split; field; lra.
Qed.

(** The last [set] of a key decides what a [Map] holds for it. *)
Lemma fold_set_absent {V} (l : list (string * V)) (m : gmap string V)
    (k : string) :
  k ∉ map fst l ->
  fold_left (fun (m : gmap string V) (e : string * V) => <[e.1 := e.2]> m) l m !! k
  = m !! k.
Proof.
  revert m. induction l as [|[k' v] l IH]; intros m Hk; [done|].
  simpl. rewrite IH.
  - rewrite lookup_insert_ne; [done|]. intros ->. apply Hk. by left.
  - intros H. apply Hk. by right.
Qed.

Lemma Map_of_last {V} (l1 l2 : list (string * V)) (k : string) (v : V) :
  k ∉ map fst l2 -> Map_of (l1 ++ (k, v) :: l2) !! k = Some v.
Proof.
  intros Hk. unfold Map_of. rewrite fold_left_app. simpl.
  rewrite fold_set_absent by done. by rewrite lookup_insert_eq.
Qed.

Lemma fold_set_elem {V} (l : list (string * V)) (m : gmap string V)
    (k : string) (v : V) :
  fold_left (fun (m : gmap string V) (e : string * V) => <[e.1 := e.2]> m) l m !! k
  = Some v ->
  (k, v) ∈ l \/ m !! k = Some v.
Proof.
  revert m. induction l as [|[k' v'] l IH]; intros m H; [by right|].
  simpl in H. apply IH in H as [H|H]; [left; by right|].
  destruct (decide (k' = k)) as [->|Hne].
  - rewrite lookup_insert_eq in H. injection H as ->. left. by left.
  - rewrite lookup_insert_ne in H by done. by right.
Qed.

Lemma Map_of_elem {V} (l : list (string * V)) (k : string) (v : V) :
  Map_of l !! k = Some v -> (k, v) ∈ l.
Proof.
  intros H. apply fold_set_elem in H as [H|H]; [done|].
  by rewrite lookup_empty in H.
Qed.

(** The last entry of a key that occurs. *)
Lemma last_entry {V} (l : list (string * V)) (k : string) :
  k ∈ map fst l ->
  exists l1 v l2, l = l1 ++ (k, v) :: l2 /\ k ∉ map fst l2.
Proof.
  induction l as [|[k' v'] l IH]; simpl; [by intros H; apply elem_of_nil in H|].
  intros H. destruct (decide (k ∈ map fst l)) as [Hin|Hin].
  - destruct (IH Hin) as (l1 & v & l2 & -> & Hl2).
    by exists ((k', v') :: l1), v, l2.
  - apply elem_of_cons in H as [->|H]; [|done].
    by exists [], v', l.
Qed.

Lemma Map_of_is_Some {V} (l : list (string * V)) (k : string) :
  k ∈ map fst l -> is_Some (Map_of l !! k).
Proof.
  intros H. destruct (last_entry l k H) as (l1 & v & l2 & -> & Hl2).
  rewrite Map_of_last by done. eauto.
Qed.

(** Property X26.  [buildOpacityMap(points)] gives every point an opacity,
    gives none to other ids, and every opacity lies between 0.18 and
    0.92. *)
Theorem buildOpacityMap_range (s : store) (points : list string) :
  (forall p, p ∈ points -> is_Some (buildOpacityMap s points !! p)) /\
  (forall p o, buildOpacityMap s points !! p = Some o ->
     p ∈ points /\ (0.18 <= o <= 0.92)%R).
Proof.
  unfold buildOpacityMap.
  destruct (map (fun p => mu (obj s p)) points) as [|m ms] eqn:Emus.
  { destruct points; [|discriminate]. split.
    - intros p Hp. by apply elem_of_nil in Hp.
    - intros p o Hp. by rewrite lookup_empty in Hp. }
  destruct (Math_min_spec m ms) as [Hmin _].
  destruct (Math_max_spec m ms) as [Hmax _].
  set (mn := Math_min m ms) in *. set (mx := Math_max m ms) in *.
  set (span := Rmax 1e-9 (mx - mn)).
  assert (Hspan : (0 < span)%R /\ (mx - mn <= span)%R).
  { unfold span. split; [|apply Rmax_r].
    eapply Rlt_le_trans; [|apply Rmax_l]. lra. }
  rewrite <- Emus in *.
  split.
  - intros p Hp. apply Map_of_is_Some.
    rewrite map_map. simpl.
    rewrite <- (map_map fst (fun k : string => k)), map_id.
    rewrite fst_zip; [done|]. by rewrite length_map.
  - intros p o Hp. apply Map_of_elem in Hp.
    apply list_elem_of_fmap in Hp as ([p' u] & [= -> ->] & Hin). simpl.
    assert (Hp' : p' ∈ points).
    { apply list_elem_of_In in Hin. apply in_combine_l in Hin.
      by apply list_elem_of_In. }
    assert (Hu : u ∈ map (fun p => mu (obj s p)) points).
    { apply list_elem_of_In in Hin. apply in_combine_r in Hin.
      by apply list_elem_of_In. }
    split; [done|].
    pose proof (Hmin u Hu). pose proof (Hmax u Hu).
    assert (Hn : (0 <= (u - mn) / span <= 1)%R).
    { destruct Hspan as [Hs1 Hs2]. split.
      - apply Rmult_le_reg_r with span; [done|].
        unfold Rdiv. rewrite Rmult_assoc, Rinv_l by lra. lra.
      - apply Rmult_le_reg_r with span; [done|].
        unfold Rdiv. rewrite Rmult_assoc, Rinv_l by lra. lra. }
    lra.
Qed.

Lemma sorted_lookup {A} (R0 : A -> A -> Prop) (l : list A) (i j : nat) (a b : A) :
  StronglySorted R0 l -> (i < j)%nat ->
  l !! i = Some a -> l !! j = Some b -> R0 a b.
Proof.
  intros Hs Hij Hi Hj.
  rewrite <- (take_drop j l) in Hs.
  eapply (StronglySorted_app_1_elem_of R0); [exact Hs| |].
  - apply list_elem_of_lookup. exists i. by rewrite lookup_take_lt.
  - apply list_elem_of_lookup. exists 0%nat. rewrite lookup_drop.
    by rewrite Nat.add_0_r.
Qed.

Lemma imap_app_cons {A B} (f : nat -> A -> B) (l1 l2 : list A) (v : A) :
  imap f (l1 ++ v :: l2)
  = imap f l1 ++ f (length l1) v :: imap (fun i => f (S (length l1 + i))) l2.
Proof.
  rewrite imap_app. f_equal. simpl. rewrite Nat.add_0_r. f_equal.
  apply imap_ext. intros i u _. simpl. f_equal. lia.
Qed.

(** The rank of an id: one more than the index of its last item in the
    list sorted by decreasing mu. *)
Lemma rank_of_last (all : list item) (k : string) :
  k ∈ map Item.id all ->
  exists l1 v l2,
    all = l1 ++ v :: l2 /\ Item.id v = k /\ (k ∉ map Item.id l2) /\
    Map_of (imap (fun idx it => (Item.id it, (idx + 1)%nat)) all) !! k
    = Some (length l1 + 1)%nat.
Proof.
  intros Hk.
  assert (Hl : exists l1 v l2, all = l1 ++ v :: l2 /\ Item.id v = k /\
                               k ∉ map Item.id l2).
  { clear -Hk. induction all as [|y l IH]; simpl in Hk;
      [by apply elem_of_nil in Hk|].
    destruct (decide (k ∈ map Item.id l)) as [Hin|Hin].
    - destruct (IH Hin) as (l1 & v & l2 & -> & Hv & Hl2).
      by exists (y :: l1), v, l2.
    - apply elem_of_cons in Hk as [->|Hk]; [|done]. by exists [], y, l. }
  destruct Hl as (l1 & v & l2 & -> & Hv & Hl2).
  exists l1, v, l2. repeat split; try done.
  rewrite imap_app_cons, Hv. apply Map_of_last.
  intros Hin. apply Hl2.
  apply list_elem_of_fmap in Hin as ([k' r] & -> & Hin). simpl.
  apply list_elem_of_lookup in Hin as [i Hi].
  rewrite list_lookup_imap in Hi.
  destruct (l2 !! i) as [u|] eqn:Eu; simpl in Hi; [|discriminate].
  injection Hi as <- _. apply list_elem_of_fmap. exists u.
  split; [done|]. by eapply list_elem_of_lookup_2.
Qed.

Lemma hydrateAll_ids (recs : list record) (s0 : store) (rec : record) :
  rec ∈ recs -> rec_id rec ∈ map Item.id (hydrateAll recs s0).1.
Proof.
  revert s0. induction recs as [|r0 recs IH]; intros s0 Hrec;
    [by apply elem_of_nil in Hrec|].
  simpl. destruct (hydrateAll recs (getRating (rec_id r0) s0)) as [its s'] eqn:E.
  simpl. apply elem_of_cons in Hrec as [->|Hrec]; [by left|].
  right. specialize (IH (getRating (rec_id r0) s0) Hrec).
  by rewrite E in IH.
Qed.

Lemma hydrateAll_length (recs : list record) (s0 : store) :
  length (hydrateAll recs s0).1 = length recs.
Proof.
  revert s0. induction recs as [|r0 recs IH]; intros s0; [done|].
  simpl. destruct (hydrateAll recs (getRating (rec_id r0) s0)) as [its s'] eqn:E.
  simpl. specialize (IH (getRating (rec_id r0) s0)). rewrite E in IH.
  simpl in IH. by rewrite IH.
Qed.

(** Property X27.  [buildRankById()] gives the id of every loaded record a
    rank between 1 and the number of records, and an id with a higher mu
    a smaller rank. *)
Theorem buildRankById_order (w : app) (ra rb : record) :
  ra ∈ RAW_RECORDS w -> rb ∈ RAW_RECORDS w ->
  let ranks := (buildRankById w).1 in
  let s := ratings (st w) in
  exists i j : nat,
    ranks !! rec_id ra = Some i /\ ranks !! rec_id rb = Some j /\
    (1 <= i <= length (RAW_RECORDS w))%nat /\
    ((mu (obj s (rec_id rb)) < mu (obj s (rec_id ra)))%R -> (i < j)%nat).
Proof.
  intros Ha Hb ranks s. unfold ranks, buildRankById.
  pose proof (hydrateAll_shows (RAW_RECORDS w) (ratings (st w))) as Hshows.
  pose proof (hydrateAll_ids (RAW_RECORDS w) (ratings (st w))) as Hids.
  pose proof (hydrateAll_length (RAW_RECORDS w) (ratings (st w))) as Hlen.
  destruct (hydrateAll (RAW_RECORDS w) (ratings (st w))) as [items s1].
  simpl in *.
  set (all := sort mu_descending items).
  assert (Hperm : all ≡ₚ items) by apply sort_perm.
  assert (Hsorted : StronglySorted (fun a b => (Item.mu b <= Item.mu a)%R) all).
  { eapply StronglySorted_mono; [|apply (sort_sorted mu_descending), mu_descending_consistent].
    unfold before, mu_descending. intros a b. simpl. lra. }
  assert (Hka : rec_id ra ∈ map Item.id all) by (rewrite Hperm; by apply Hids).
  assert (Hkb : rec_id rb ∈ map Item.id all) by (rewrite Hperm; by apply Hids).
  destruct (rank_of_last all _ Hka) as (a1 & va & a2 & Ea & Hva & Ha2 & Hra).
  destruct (rank_of_last all _ Hkb) as (b1 & vb & b2 & Eb & Hvb & Hb2 & Hrb).
  exists (length a1 + 1)%nat, (length b1 + 1)%nat.
  split; [done|]. split; [done|]. split.
  - split; [lia|]. rewrite <- Hlen, <- Hperm, Ea, length_app. simpl. lia.
  - intros Hmu.
    assert (Hia : all !! length a1 = Some va) by (rewrite Ea; apply list_lookup_middle; done).
    assert (Hib : all !! length b1 = Some vb) by (rewrite Eb; apply list_lookup_middle; done).
    assert (Hma : Item.mu va = mu (obj s (rec_id ra))).
    { rewrite <- Hva. apply Hshows. rewrite <- Hperm.
      by eapply list_elem_of_lookup_2. }
    assert (Hmb : Item.mu vb = mu (obj s (rec_id rb))).
    { rewrite <- Hvb. apply Hshows. rewrite <- Hperm.
      by eapply list_elem_of_lookup_2. }
    destruct (Nat.lt_trichotomy (length a1) (length b1)) as [Hlt|[Heq|Hgt]].
    + lia.
    + rewrite Heq in Hia. rewrite Hia in Hib. injection Hib as ->. lra.
    + pose proof (sorted_lookup _ _ _ _ _ _ Hsorted Hgt Hib Hia) as Hle.
      simpl in Hle. lra.
Qed.


(** ** The properties on the sample data *)

Lemma undo_round_trip_witness :
  consistent (fun _ => "") paired /\
  ordinary_app (fun _ => "") paired /\ ordinary "A" /\
  history (st (vote "t1" "A" paired no_draws).1) <> history (st paired) /\
  history (st (undo (fun _ => "")
                    (vote "t1" "A" paired no_draws).1 no_draws).1)
  = history (st paired).
Proof.
  assert (H0 : consistent (fun _ => "") paired) by (intros id; reflexivity).
  assert (Ho : ordinary_app (fun _ => "") paired).
  { split; [constructor|]. split; [constructor|]. split.
    - intros A B [= <- <-].
      split; apply (bool_decide_unpack _); reflexivity.
    - repeat constructor. }
  assert (Hl : ordinary "A") by (apply (bool_decide_unpack _); reflexivity).
  assert (H1 : history (st (vote "t1" "A" paired no_draws).1)
               <> history (st paired)).
  { unfold vote. simpl. discriminate. }
  split; [exact H0|]. split; [exact Ho|]. split; [exact Hl|].
  split; [exact H1|].
  exact (proj1 (proj1 (proj2 (undo_round_trip (fun _ => ""))) paired "t1" "A"
                      no_draws no_draws H0 Ho Hl H1)).
Defined.

Lemma chooseNextPair_validity_witness :
  default "active" (mode getDefaultState) <> "random" /\
  NoDup (map Item.id [p1; p2; p3]) /\
  (2 <= length (applyWinsFilter [p1; p2; p3] getDefaultState))%nat /\
  is_Some (chooseNextPair [p1; p2; p3] getDefaultState no_draws).1.
Proof.
  assert (H1 : default "active" (mode getDefaultState) <> "random")
    by discriminate.
  assert (H2 : NoDup (map Item.id [p1; p2; p3]))
    by (apply (bool_decide_unpack _); reflexivity).
  assert (H3 : (2 <= length (applyWinsFilter [p1; p2; p3] getDefaultState))%nat)
    by (simpl; lia).
  split; [exact H1|]. split; [exact H2|]. split; [exact H3|].
  exact (proj2 (proj2 (chooseNextPair_validity [p1; p2; p3] getDefaultState
                         no_draws)) H1 H2 H3).
Defined.

Lemma updatePair_default_example_witness :
  "X" <> "Y" /\
  fresh_pair !! "X" = Some default_rating /\
  fresh_pair !! "Y" = Some default_rating /\
  updatePair "X" "Y" 1.0 (Some 32%R) fresh_pair !! "X"
  = Some (mkRating 1516 325.5 1 0 0 0).
Proof.
  assert (H1 : "X" <> "Y") by discriminate.
  assert (H2 : fresh_pair !! "X" = Some default_rating) by reflexivity.
  assert (H3 : fresh_pair !! "Y" = Some default_rating) by reflexivity.
  split; [exact H1|]. split; [exact H2|]. split; [exact H3|].
  exact (proj1 (updatePair_default_example fresh_pair "X" "Y" H1 H2 H3)).
Defined.

Lemma sigma_floor_invariant_witness :
  (MIN_SIGMA <= sigma (obj fresh_pair "X"))%R /\
  (MIN_SIGMA <= sigma (obj (fold_left applyOp
                              [OpPair "X" "Y" 0.5 (Some 32%R);
                               OpJoint "X" (-1) 1.2] fresh_pair) "X"))%R.
Proof.
  assert (H1 : (MIN_SIGMA <= sigma (obj fresh_pair "X"))%R).
  { change (obj fresh_pair "X") with default_rating.
    unfold MIN_SIGMA, default_rating, DEFAULT_SIGMA. simpl. lra. }
  split; [exact H1|].
  exact (sigma_floor_invariant _ fresh_pair "X" H1).
Defined.

Lemma joint_adjustment_postcondition_witness :
  currentPair paired = Some (itemX, itemY) /\
  Item.id itemX <> Item.id itemY /\
  mu (obj (ratings (st (vote "t1" "BOTH" paired no_draws).1)) "X") = 1511.52%R.
Proof.
  assert (H1 : currentPair paired = Some (itemX, itemY)) by reflexivity.
  assert (H2 : Item.id itemX <> Item.id itemY) by discriminate.
  split; [exact H1|]. split; [exact H2|].
  exact (proj1 (proj2 (proj2 (joint_adjustment_postcondition "t1" "BOTH" 1 0.8
                                paired no_draws itemX itemY H1 H2
                                (or_introl (conj eq_refl (conj eq_refl eq_refl)))))
                      eq_refl itemX (or_introl eq_refl) eq_refl)).
Defined.

Lemma zero_sum_update_witness :
  "X" <> "Y" /\ is_Some (fresh_pair !! "X") /\ is_Some (fresh_pair !! "Y") /\
  effK (Some 32%R) (obj fresh_pair "X") = effK (Some 32%R) (obj fresh_pair "Y") /\
  (0 <= default 32 (Some 32))%R /\
  (mu (obj fresh_pair "X")
   <= mu (obj (updatePair "X" "Y" 1.0 (Some 32%R) fresh_pair) "X"))%R.
Proof.
  assert (H1 : "X" <> "Y") by discriminate.
  assert (H2 : is_Some (fresh_pair !! "X")) by (exists default_rating; reflexivity).
  assert (H3 : is_Some (fresh_pair !! "Y")) by (exists default_rating; reflexivity).
  assert (H4 : effK (Some 32%R) (obj fresh_pair "X")
               = effK (Some 32%R) (obj fresh_pair "Y")) by reflexivity.
  assert (H5 : (0 <= default 32 (Some 32))%R) by (simpl; lra).
  split; [exact H1|]. split; [exact H2|]. split; [exact H3|].
  split; [exact H4|]. split; [exact H5|].
  exact (proj1 (proj2 (proj2 (proj2
    (zero_sum_update "X" "Y" (Some 32%R) fresh_pair H1 H2 H3 H4 H5))))).
Defined.

Lemma vote_skip_frame_witness :
  currentPair paired = Some (itemX, itemY) /\
  history (st (vote "t1" "SKIP" paired no_draws).1)
  = history (st paired) ++
      [Entry.mk (JStr "X") (JStr "Y") None "SKIP" 0.0 false (JStr "t1")].
Proof.
  assert (H1 : currentPair paired = Some (itemX, itemY)) by reflexivity.
  split; [exact H1|].
  exact (proj1 (vote_skip_frame "t1" paired no_draws itemX itemY H1)).
Defined.

Lemma history_normalization_witness :
  let skipped := JObj [("a", JStr "X"); ("b", JStr "Y"); ("outcome", JNull)] in
  let rated := JObj [("a", JStr "X"); ("b", JStr "Y"); ("outcome", JNum 0.5)] in
  let raw := JObj [("ratings", JObj []); ("history", JArr [skipped])] in
  let l := [Entry.mk (JStr "X") (JStr "Y") None "SKIP" 0.0 false (JStr "t1")] in
  get raw "history" = JArr [skipped] /\
  normalizeState_history (fun _ => "t1") raw = Some l /\
  exists e, normalizeHistoryEntry "t1" rated = Some e /\
            Entry.outcome e = Some 0.5%R /\
            Entry.choice e = "BOTH" /\ Entry.kMult e = 0.75%R.
Proof.
  intros skipped rated raw l.
  assert (H1 : get raw "history" = JArr [skipped]) by reflexivity.
  assert (H2 : normalizeState_history (fun _ => "t1") raw = Some l)
    by reflexivity.
  split; [exact H1|]. split; [exact H2|].
  destruct (proj1 (proj2 (proj2 (history_normalization "t1" (fun _ => "t1") raw
                                   [skipped] rated l H1 H2)))
              eq_refl eq_refl (or_intror (conj eq_refl eq_refl)))
    as (e & He & _ & _ & Ho & Hc & Hk).
  exact (ex_intro _ e
           (conj He (conj Ho
              (conj (proj1 (proj2 (proj2 (Hc I))) eq_refl)
                    (proj1 (proj2 (proj2 (Hk I))) eq_refl))))).
Defined.

Lemma vote_neither_counters_witness :
  currentPair paired = Some (itemX, itemY) /\
  Item.id itemX <> Item.id itemY /\
  history (st (vote "t1" "NEITHER" paired no_draws).1)
  = history (st paired) ++
      [Entry.mk (JStr "X") (JStr "Y") (Some 0.5%R) "NEITHER" 1.2 false
                (JStr "t1")].
Proof.
  assert (H1 : currentPair paired = Some (itemX, itemY)) by reflexivity.
  assert (H2 : Item.id itemX <> Item.id itemY) by discriminate.
  split; [exact H1|]. split; [exact H2|].
  exact (proj1 (vote_neither_counters "t1" paired no_draws itemX itemY H1 H2)).
Defined.

(** ** The further properties on the sample data *)


Lemma vote_moves_pair_only_witness :
  currentPair paired = Some (itemX, itemY) /\
  Item.id itemX <> Item.id itemY /\
  ordinary (Item.id itemX) /\ ordinary (Item.id itemY) /\
  ordinary "STRONG_A" /\
  (Rabs (mu (obj (ratings (st (vote "t1" "STRONG_A" paired no_draws).1)) "X")
         - mu (obj (ratings (st paired)) "X")) < 104)%R.
Proof.
  assert (H1 : currentPair paired = Some (itemX, itemY)) by reflexivity.
  assert (H2 : Item.id itemX <> Item.id itemY) by discriminate.
  assert (H3 : ordinary (Item.id itemX))
    by (apply (bool_decide_unpack _); reflexivity).
  assert (H4 : ordinary (Item.id itemY))
    by (apply (bool_decide_unpack _); reflexivity).
  assert (H5 : ordinary "STRONG_A")
    by (apply (bool_decide_unpack _); reflexivity).
  split; [exact H1|]. split; [exact H2|]. split; [exact H3|].
  split; [exact H4|]. split; [exact H5|].
  exact (proj2 (vote_moves_pair_only "t1" "STRONG_A" paired no_draws
                  itemX itemY H1 H2 H3 H4 H5) "X").
Defined.

Lemma sigma_never_grows_witness :
  (MIN_SIGMA <= sigma (obj fresh_pair "X"))%R /\
  (sigma (obj (fold_left applyOp
                 [OpPair "X" "Y" 1 None; OpJoint "X" 1 0.8] fresh_pair) "X")
   <= sigma (obj fresh_pair "X"))%R.
Proof.
  assert (H1 : (MIN_SIGMA <= sigma (obj fresh_pair "X"))%R).
  { change (obj fresh_pair "X") with default_rating.
    unfold MIN_SIGMA, default_rating, DEFAULT_SIGMA. simpl. lra. }
  split; [exact H1|].
  exact (proj1 (sigma_never_grows _ fresh_pair "X" H1)).
Defined.

Lemma undo_steps_back_witness :
  ordinary_app (fun _ => "") voted_once /\
  (0 < 1 <= length (history (st voted_once)))%nat /\
  history (st (run (fun _ => "") (replicate 1 EUndo) voted_once no_draws).1) = [] /\
  forall id,
    obj (ratings (st (run (fun _ => "") (replicate 1 EUndo) voted_once
                          no_draws).1)) id
    = default_rating.
Proof.
  assert (H0 : ordinary_app (fun _ => "") voted_once).
  { split; [|split; [constructor|split]].
    - repeat constructor; apply (bool_decide_unpack _); reflexivity.
    - intros A B; discriminate.
    - repeat constructor. }
  assert (H1 : (0 < 1 <= length (history (st voted_once)))%nat)
    by (simpl; lia).
  split; [exact H0|]. split; [exact H1|].
  exact (proj2 (proj2 (undo_steps_back (fun _ => "") 1 voted_once no_draws
                         H0 H1))
               eq_refl).
Defined.

Lemma normalization_idempotent_witness :
  let raw := JObj [("a", JStr "X"); ("b", JStr "Y"); ("outcome", JNum 1);
                   ("choice", JStr "STRONG_A"); ("kMult", JNum 1.8)] in
  let e := Entry.mk (JStr "X") (JStr "Y") (Some 1%R) "STRONG_A" 1.8 false
                    (JStr "t1") in
  normalizeHistoryEntry "t1" raw = Some e /\
  normalizeHistoryEntry "t2" (stored_entry e) = Some e.
Proof.
  intros raw e.
  assert (H1 : normalizeHistoryEntry "t1" raw = Some e) by reflexivity.
  split; [exact H1|].
  exact (normalization_idempotent "t1" "t2" raw e H1).
Defined.

Lemma display_shows_ratings_witness :
  let w := (session (fun _ => "") [Event (ELoadCSV [mkRecord "X" "Parsing"])]
                    boot no_draws).1 in
  itemX ∈ filtered w /\
  Item.mu itemX = mu (obj (ratings (st w)) (Item.id itemX)).
Proof.
  intros w.
  assert (H1 : itemX ∈ filtered w) by (change (filtered w) with [itemX]; left).
  split; [exact H1|].
  exact (proj1 (proj2 (proj2 (proj2
    (display_shows_ratings (fun _ => "")
       [Event (ELoadCSV [mkRecord "X" "Parsing"])] no_draws itemX H1))))).
Defined.

Lemma legacy_undo_round_trip_witness :
  ordinary (Item.id itemX) /\ ordinary (Item.id itemY) /\
  Forall (ordinary_entry (fun _ => "")) (history getDefaultState) /\
  (forall id, obj (ratings getDefaultState) id
              = obj (Legacy.replayed (fun _ => "") (history getDefaultState)) id) /\
  Legacy.vote "t1" "NEITHER" itemX itemY getDefaultState = Some legacy_voted /\
  exists t2,
    Legacy.undo (fun _ => "") legacy_voted = Some t2 /\
    history t2 = history getDefaultState /\
    forall id, obj (ratings t2) id = obj (ratings getDefaultState) id.
Proof.
  assert (HA : ordinary (Item.id itemX))
    by (apply (bool_decide_unpack _); reflexivity).
  assert (HB : ordinary (Item.id itemY))
    by (apply (bool_decide_unpack _); reflexivity).
  assert (Hh : Forall (ordinary_entry (fun _ => "")) (history getDefaultState))
    by constructor.
  assert (H1 : forall id, obj (ratings getDefaultState) id
                 = obj (Legacy.replayed (fun _ => "") (history getDefaultState)) id)
    by (intros id; reflexivity).
  assert (H2 : Legacy.vote "t1" "NEITHER" itemX itemY getDefaultState
               = Some legacy_voted) by reflexivity.
  split; [exact HA|]. split; [exact HB|]. split; [exact Hh|].
  split; [exact H1|]. split; [exact H2|].
  exact (proj2 (legacy_undo_round_trip (fun _ => "") "t1" "NEITHER" itemX itemY
                  getDefaultState legacy_voted HA HB Hh H1 H2)).
Defined.

Lemma legacy_unified_agree_witness :
  let hs := [Entry.mk (JStr "X") (JStr "Y") (Some 1%R) "A" 1.0 false
                      (JStr "t0")] in
  Forall (ordinary_entry (fun _ => "")) hs /\
  Forall (fun h => Entry.choice h <> "BOTH" /\ Entry.choice h <> "NEITHER") hs /\
  Legacy.replayed (fun _ => "") hs = replayed (fun _ => "") hs.
Proof.
  intros hs.
  assert (H0 : Forall (ordinary_entry (fun _ => "")) hs).
  { repeat constructor; apply (bool_decide_unpack _); reflexivity. }
  assert (H1 : Forall (fun h => Entry.choice h <> "BOTH"
                               /\ Entry.choice h <> "NEITHER") hs).
  { repeat constructor; discriminate. }
  split; [exact H0|]. split; [exact H1|].
  exact (proj1 (legacy_unified_agree (fun _ => "")) hs H0 H1).
Defined.

Lemma orderByMuPriority_sorted_witness :
  getMuPriority lowest_state = "lowest" /\
  StronglySorted (fun a b => (Item.mu a <= Item.mu b)%R)
                 (orderByMuPriority [p1; p2; p3] lowest_state no_draws).1.
Proof.
  assert (H1 : getMuPriority lowest_state = "lowest") by reflexivity.
  split; [exact H1|].
  exact (proj1 (proj2 (orderByMuPriority_sorted [p1; p2; p3] lowest_state
                         no_draws)) H1).
Defined.

Lemma chooseNextPair_random_mode_witness :
  default "active" (mode random_state) = "random" /\
  getNStrategy random_state <> "maximal" /\
  getNStrategy random_state <> "random" /\
  (is_Some (chooseNextPair [p1; p2; p3] random_state no_draws).1 <->
   exists a b, a ∈ applyWinsFilter [p1; p2; p3] random_state /\
               b ∈ applyWinsFilter [p1; p2; p3] random_state /\
               Item.id a <> Item.id b /\ Item.n a = Item.n b /\
               forall v, v ∈ applyWinsFilter [p1; p2; p3] random_state ->
                         (Item.n a <= Item.n v)%Z).
Proof.
  assert (H1 : default "active" (mode random_state) = "random") by reflexivity.
  assert (H2 : getNStrategy random_state <> "maximal") by discriminate.
  assert (H3 : getNStrategy random_state <> "random") by discriminate.
  split; [exact H1|]. split; [exact H2|]. split; [exact H3|].
  exact (proj1 (chooseNextPair_random_mode [p1; p2; p3] random_state no_draws
                  H1 H2 H3)).
Defined.

Lemma resolve_ties_finds_tie_witness :
  default "active" (mode resolve_state) = "resolve_ties" /\
  NoDup (map Item.id [itemX; itemY]) /\
  exists A B,
    (chooseNextPair [itemX; itemY] resolve_state no_draws).1 = Some (A, B) /\
    A ∈ applyWinsFilter [itemX; itemY] resolve_state /\
    B ∈ applyWinsFilter [itemX; itemY] resolve_state /\
    Item.id A <> Item.id B /\
    toFixed6 (Item.mu A) = toFixed6 (Item.mu B) /\ Item.n A = Item.n B.
Proof.
  assert (H1 : default "active" (mode resolve_state) = "resolve_ties")
    by reflexivity.
  assert (H2 : NoDup (map Item.id [itemX; itemY]))
    by (apply (bool_decide_unpack _); reflexivity).
  assert (H3 : exists a b,
             a ∈ applyWinsFilter [itemX; itemY] resolve_state /\
             b ∈ applyWinsFilter [itemX; itemY] resolve_state /\
             Item.id a <> Item.id b /\
             toFixed6 (Item.mu a) = toFixed6 (Item.mu b) /\
             Item.n a = Item.n b).
  { exists itemX, itemY. split; [left|]. split; [right; left|].
    split; [discriminate|]. split; reflexivity. }
  split; [exact H1|]. split; [exact H2|].
  exact (resolve_ties_finds_tie [itemX; itemY] resolve_state no_draws H1 H2 H3).
Defined.

Lemma selectGroupByN_bucket_witness :
  (2 <= length [p1; p2; p3])%nat /\
  exists k : Z,
    (selectGroupByN [p1; p2; p3] random_state no_draws).1
    = filter (fun v => Item.n v = k) [p1; p2; p3].
Proof.
  assert (H1 : (2 <= length [p1; p2; p3])%nat) by (simpl; lia).
  split; [exact H1|].
  destruct (proj2 (selectGroupByN_bucket [p1; p2; p3] random_state no_draws) H1)
    as (k & Hk & _).
  exact (ex_intro _ k Hk).
Defined.

Lemma pickTwoFromPool_spec_witness :
  (forall a b, a ∈ (selectGroupByN [p3] random_state no_draws).1 ->
               b ∈ (selectGroupByN [p3] random_state no_draws).1 ->
               Item.id a = Item.id b) /\
  (pickTwoFromPool [p3] ∅ random_state no_draws).1 = None.
Proof.
  assert (H1 : forall a b,
             a ∈ (selectGroupByN [p3] random_state no_draws).1 ->
             b ∈ (selectGroupByN [p3] random_state no_draws).1 ->
             Item.id a = Item.id b).
  { change (selectGroupByN [p3] random_state no_draws).1 with [p3].
    intros a b Ha Hb. apply list_elem_of_singleton in Ha, Hb. by subst. }
  split; [exact H1|].
  exact (proj2 (proj1 (pickTwoFromPool_spec [p3] ∅ random_state no_draws)) H1).
Defined.

Lemma chooseTieResolutionPair_tied_witness :
  exists a b,
    (chooseTieResolutionPair [itemX; itemY] resolve_state ∅ no_draws).1
    = Some (a, b) /\
    a ∈ [itemX; itemY] /\ b ∈ [itemX; itemY] /\ Item.id a <> Item.id b /\
    toFixed6 (Item.mu a) = toFixed6 (Item.mu b) /\ Item.n a = Item.n b.
Proof.
  assert (H0 : is_Some (chooseTieResolutionPair [itemX; itemY] resolve_state
                          ∅ no_draws).1).
  { apply (chooseTieResolutionPair_live _ _ _ _ itemX itemY).
    - apply (bool_decide_unpack _). reflexivity.
    - left.
    - right; left.
    - discriminate.
    - split; reflexivity. }
  destruct H0 as [[a b] H1].
  exists a, b. split; [exact H1|].
  exact (chooseTieResolutionPair_tied [itemX; itemY] resolve_state ∅ no_draws
           a b H1).
Defined.

Lemma active_selection_example :
  (chooseNextPair [itemX; itemY] getDefaultState no_draws).1
  = Some (itemX, itemY).
Proof.
  unfold chooseNextPair.
  change (applyWinsFilter [itemX; itemY] getDefaultState) with [itemX; itemY].
  change (length [itemX; itemY] <? 2)%nat with false. cbv iota.
  rewrite rand_bind_unfold.
  assert (Hsort : orderByMuPriority [itemX; itemY] getDefaultState no_draws
                  = ([itemX; itemY], no_draws)).
  { unfold orderByMuPriority. change (getMuPriority getDefaultState) with "highest".
    change ("highest" =? "lowest") with false.
    change ("highest" =? "random") with false. cbv iota.
    unfold mret, rand_ret. f_equal.
    unfold sort. cbn [foldr insert_sorted]. decide_reals. reflexivity. }
  rewrite Hsort. cbn [fst snd].
  change (default "active" (mode getDefaultState)) with "active".
  change ("active" =? "resolve_ties") with false.
  change ("active" =? "random") with false.
  change ("active" =? "bubble") with false. cbv iota.
  rewrite rand_bind_unfold. unfold mret at 1, rand_ret at 1. cbn [fst snd].
  cbv iota.
  change (Nat.max 2 ((2 * length [itemX; itemY] + 4) / 5)) with 2%nat.
  change (take 2 [itemX; itemY]) with [itemX; itemY].
  assert (Hunc : sort (fun a b : item => (Item.sigma b - Item.sigma a)%R)
                       [itemX; itemY] = [itemX; itemY]).
  { unfold sort. cbn [foldr insert_sorted]. decide_reals. reflexivity. }
  rewrite Hunc.
  change (take (40 `min` length [itemX; itemY]) [itemX; itemY])
    with [itemX; itemY].
  assert (Hsel : forall g', selectGroupByN [itemX; itemY] getDefaultState g'
                            = ([itemX; itemY], g')).
  { intros g'. unfold selectGroupByN.
    change (length [itemX; itemY] <=? 1)%nat with false. cbv iota.
    rewrite rand_bind_unfold.
    change (getNStrategy getDefaultState) with "minimal".
    change ("minimal" =? "maximal") with false.
    change ("minimal" =? "random") with false. cbv iota.
    change (group_by Item.n [itemX; itemY]) with [(0%Z, [itemX; itemY])].
    reflexivity. }
  rewrite rand_bind_unfold, Hsel. cbn [fst snd].
  change (orElse (pickNotIn [itemX; itemY] _) (head [itemX; itemY]))
    with (Some itemX).
  cbv iota. rewrite rand_bind_unfold. unfold mret at 1, rand_ret at 1.
  cbn [fst snd]. cbv iota.
  reflexivity.
Qed.

Lemma chooseNextPair_opponent_witness :
  default "active" (mode getDefaultState) <> "random" /\
  default "active" (mode getDefaultState) <> "resolve_ties" /\
  (chooseNextPair [itemX; itemY] getDefaultState no_draws).1
  = Some (itemX, itemY) /\
  Item.cat1 itemY <> Item.cat1 itemX.
Proof.
  assert (H1 : default "active" (mode getDefaultState) <> "random")
    by discriminate.
  assert (H2 : default "active" (mode getDefaultState) <> "resolve_ties")
    by discriminate.
  split; [exact H1|]. split; [exact H2|].
  split; [exact active_selection_example|].
  apply (proj1 (proj2 (chooseNextPair_opponent [itemX; itemY] getDefaultState
                         no_draws itemX itemY H1 H2 active_selection_example))).
  discriminate.
Defined.

Lemma parseCSV_toCSV_witness :
  (2 <= length sample_headers)%nat /\
  parseCSV (toCSV (fun _ => "7") sample_headers [sample_row])
  = [["id"; "title"]; ["7"; "Parsing, fast"]].
Proof.
  assert (H1 : (2 <= length sample_headers)%nat) by (simpl; lia).
  split; [exact H1|].
  exact (proj2 (parseCSV_toCSV (fun _ => "7") sample_headers [sample_row]) H1).
Defined.

Lemma parseCSV_line_breaks_witness :
  line_break (String CR (String LF EmptyString)) /\
  parseCSV (join (String CR (String LF EmptyString))
                 (csv_lines (fun _ => "7") sample_headers [sample_row])
            +:+ String CR (String LF EmptyString))
  = parseCSV (toCSV (fun _ => "7") sample_headers [sample_row]).
Proof.
  assert (H1 : line_break (String CR (String LF EmptyString)))
    by (right; left; reflexivity).
  split; [exact H1|].
  exact (parseCSV_line_breaks (fun _ => "7") sample_headers [sample_row]
           _ _ H1 (or_intror eq_refl)).
Defined.

Lemma parseCSV_rows_witness :
  ["a"; "b"] ∈ parseCSV "a,b" /\ ["a"; "b"] <> [""].
Proof.
  assert (H1 : ["a"; "b"] ∈ parseCSV "a,b") by (vm_compute; left).
  split; [exact H1|].
  exact (proj1 (proj2 (parseCSV_rows "a,b" ["a"; "b"] H1))).
Defined.

Lemma detectColumns_idx_witness :
  idx ["Paper  Title"; "ID"] ["Title"; "paper title"] = Some "Paper  Title" /\
  "Paper  Title" ∈ ["Paper  Title"; "ID"].
Proof.
  assert (H1 : idx ["Paper  Title"; "ID"] ["Title"; "paper title"]
               = Some "Paper  Title") by reflexivity.
  split; [exact H1|].
  exact (proj1 (proj1 (proj2 (detectColumns_idx ["Paper  Title"; "ID"]
                                ["Title"; "paper title"])) _ H1)).
Defined.

Lemma normKey_alphabet_witness :
  "p"%char ∈ chars (normKey " Paper (ID)!") /\ is_key_char "p" = true.
Proof.
  assert (H1 : "p"%char ∈ chars (normKey " Paper (ID)!")) by (vm_compute; left).
  split; [exact H1|].
  exact (normKey_alphabet " Paper (ID)!" "p" H1).
Defined.

Lemma esc_html_safe_witness :
  "&"%char ∈ chars (esc (fun _ => "") (JStr "<b>")) /\
  is_markup "&" = false.
Proof.
  assert (H1 : "&"%char ∈ chars (esc (fun _ => "") (JStr "<b>")))
    by (vm_compute; left).
  split; [exact H1|].
  exact (proj1 (esc_html_safe (fun _ => "")) (JStr "<b>") "&"%char H1).
Defined.

Lemma normalizeInGroup_range_witness :
  (2 : R) ∈ [1%R; 2%R] /\
  (0 <= normalizeInGroup [1%R; 2%R] 2 <= 1)%R.
Proof.
  assert (H1 : (2 : R) ∈ [1%R; 2%R]) by (right; left).
  split; [exact H1|].
  exact (proj1 (normalizeInGroup_range [1%R; 2%R] 2 H1)).
Defined.

Lemma buildOpacityMap_range_witness :
  "X" ∈ ["X"; "Y"] /\ is_Some (buildOpacityMap ahead_pair ["X"; "Y"] !! "X").
Proof.
  assert (H1 : "X" ∈ ["X"; "Y"]) by left.
  split; [exact H1|].
  exact (proj1 (buildOpacityMap_range ahead_pair ["X"; "Y"]) "X" H1).
Defined.

Lemma buildRankById_order_witness :
  mkRecord "X" "Parsing" ∈ RAW_RECORDS loaded /\
  mkRecord "Y" "Semantics" ∈ RAW_RECORDS loaded /\
  exists i j : nat,
    (buildRankById loaded).1 !! "X" = Some i /\
    (buildRankById loaded).1 !! "Y" = Some j /\
    (1 <= i <= length (RAW_RECORDS loaded))%nat.
Proof.
  assert (H1 : mkRecord "X" "Parsing" ∈ RAW_RECORDS loaded) by left.
  assert (H2 : mkRecord "Y" "Semantics" ∈ RAW_RECORDS loaded) by (right; left).
  split; [exact H1|]. split; [exact H2|].
  destruct (buildRankById_order loaded _ _ H1 H2) as (i & j & Hi & Hj & Hr & _).
  exact (ex_intro _ i (ex_intro _ j (conj Hi (conj Hj Hr)))).
Defined.
